(** * An expression-language interpreter: lexer, recursive-descent evaluator

    A shallow embedding of [parser.py]: the [Lexer] that turns the input
    text into tokens on demand, the [Parser] whose productions evaluate while
    they parse, and [evaluate].  Python's [float] is IEEE 754 binary64; it is
    modelled by the Standard Library's [spec_float] at precision 53 and
    maximal exponent 1024, whose operations are the round-to-nearest-even
    operations of the standard. *)

From Stdlib Require Import ZArith Bool List String Ascii Lia.
From Stdlib Require Import Floats.SpecFloat.
Import ListNotations.

Local Open Scope string_scope.
Local Open Scope Z_scope.

(** ** Outcomes: a value, a raised exception, or fuel exhausted

    Python code either returns or raises.  [OutOfFuel] belongs to the model
    only: recursive functions of the source are written by recursion on a
    fuel counter, and [evaluate_never_out_of_fuel] shows that [evaluate]
    provides enough of it for every input. *)

Inductive exn : Type :=
| Exception_InvalidCharacter (line column : Z)
    (* Lexer.error: Exception('Invalid character at line .., column ..') *)
| Exception_InvalidSyntax
    (* Parser.error: Exception('Invalid syntax') *)
| Exception_DivisionByZero
    (* Parser.term: Exception('Division by zero') *)
| ZeroDivisionError
    (* built-in, raised by the float operator % on a zero right operand *)
| ValueError
    (* built-in: math.pow 'math domain error', float() on a malformed string *)
| OverflowError
    (* built-in: math.pow 'math range error' *)
| TypeError.
    (* built-in: a token value that is no number used as a number *)

Inductive outcome (A : Type) : Type :=
| Ok (a : A)
| Raise (e : exn)
| OutOfFuel.

Arguments Ok {A} a.
Arguments Raise {A} e.
Arguments OutOfFuel {A}.

Definition bind {A B : Type} (c : outcome A) (k : A -> outcome B) : outcome B :=
  match c with
  | Ok a => k a
  | Raise e => Raise e
  | OutOfFuel => OutOfFuel
  end.

Notation "x <- c ;; k" := (bind c (fun x => k))
  (at level 61, c at next level, right associativity).
Notation "' pat <- c ;; k" := (bind c (fun x => match x with pat => k end))
  (at level 61, pat pattern, c at next level, right associativity).

(** ** Python floats *)

Module Float.

Definition prec : Z := 53.
Definition emax : Z := 1024.

Definition float : Type := spec_float.

Definition zero : float := S754_zero false.
Definition nan : float := S754_nan.
Definition infinity : float := S754_infinity false.

(** The float nearest to an integer, and to [m * 2^e]. *)
Definition of_Z (z : Z) : float := binary_normalize prec emax z 0 false.
Definition of_dyadic (m e : Z) : float := binary_normalize prec emax m e false.

Definition one : float := of_Z 1.

Definition add : float -> float -> float := SFadd prec emax.
Definition sub : float -> float -> float := SFsub prec emax.
Definition mul : float -> float -> float := SFmul prec emax.
Definition div : float -> float -> float := SFdiv prec emax.
Definition neg : float -> float := SFopp.
Definition fabs : float -> float := SFabs.
Definition eqb : float -> float -> bool := SFeqb.
Definition ltb : float -> float -> bool := SFltb.
Definition leb : float -> float -> bool := SFleb.

Definition isnan (x : float) : bool :=
  match x with S754_nan => true | _ => false end.
Definition isinf (x : float) : bool :=
  match x with S754_infinity _ => true | _ => false end.
Definition isfinite (x : float) : bool :=
  match x with S754_zero _ | S754_finite _ _ _ => true | _ => false end.
Definition signbit (x : float) : bool :=
  match x with
  | S754_zero s | S754_infinity s | S754_finite s _ _ => s
  | S754_nan => false
  end.
Definition copysign (x y : float) : float :=
  if Bool.eqb (signbit x) (signbit y) then x else neg x.

(** [bool(x)] for a float: every float but the two zeros is true. *)
Definition truthy (x : float) : bool := negb (eqb x zero).

(** *** [float(s)] on a decimal numeral

    [float] rounds the decimal value to the nearest binary64.  For the
    strings the lexer builds (digits with at most one point) the value is
    [digits / 10^frac_len]; the division below rounds it once, correctly.
    Any other string over digits and points is a [ValueError]. *)

Definition of_decimal (digits : Z) (frac_len : nat) : float :=
  match digits with
  | Zpos d => div (S754_finite false d 0)
                  (S754_finite false (Z.to_pos (10 ^ Z.of_nat frac_len)) 0)
  | _ => zero
  end.

Definition isdigit (c : ascii) : bool :=
  let n := nat_of_ascii c in (48 <=? n)%nat && (n <=? 57)%nat.

Definition digit_value (c : ascii) : Z := Z.of_nat (nat_of_ascii c) - 48.

Fixpoint scan_decimal (s : string) (acc : Z) (frac_len : option nat)
    (seen_digit : bool) : option (Z * nat) :=
  match s with
  | EmptyString =>
      if seen_digit
      then Some (acc, match frac_len with Some k => k | None => O end)
      else None
  | String c s' =>
      if isdigit c
      then scan_decimal s' (10 * acc + digit_value c) (option_map S frac_len) true
      else if Ascii.eqb c "."
      then match frac_len with
           | None => scan_decimal s' acc (Some O) seen_digit
           | Some _ => None
           end
      else None
  end.

Definition of_string (s : string) : outcome float :=
  match scan_decimal s 0 None false with
  | Some (digits, frac_len) => Ok (of_decimal digits frac_len)
  | None => Raise ValueError
  end.

(** *** Exact values

    A finite float is the dyadic number [m * 2^e]; the helpers below read
    that value back, so that results that are exactly representable can be
    computed without reference to a C library. *)

Definition to_Z_exact (y : float) : option Z :=
  match y with
  | S754_zero _ => Some 0
  | S754_finite s m e =>
      if 0 <=? e then Some (cond_Zopp s (Zpos m * 2 ^ e))
      else if Zpos m mod 2 ^ (- e) =? 0
           then Some (cond_Zopp s (Zpos m / 2 ^ (- e)))
           else None
  | _ => None
  end.

Definition is_integer (y : float) : bool :=
  match to_Z_exact y with Some _ => true | None => false end.
Definition is_odd_integer (y : float) : bool :=
  match to_Z_exact y with Some n => Z.odd n | None => false end.

(** [represents r m e]: the float [r] is exactly [m * 2^e]. *)
Definition represents (r : float) (m e : Z) : bool :=
  match r with
  | S754_finite s mr er =>
      let e0 := Z.min er e in
      cond_Zopp s (Zpos mr) * 2 ^ (er - e0) =? m * 2 ^ (e - e0)
  | _ => false
  end.

Definition exactly (m e : Z) : option float :=
  let r := of_dyadic m e in
  if represents r m e then Some r else None.

(** The power [x^n] of a finite non-zero [x] by a non-zero integer [n],
    when it is a binary64 number. *)
Definition exact_pow (x : float) (n : Z) : option float :=
  match x with
  | S754_finite s m e =>
      let sign := if s && Z.odd n then (-1) else 1 in
      if 0 <? n
      then exactly (sign * Zpos m ^ n) (e * n)
      else let j := Z.log2 (Zpos m) in
           if Zpos m =? 2 ^ j then exactly sign ((j + e) * n) else None
  | _ => None
  end.

(** *** The operator [%] on floats

    CPython: a zero right operand raises [ZeroDivisionError]; otherwise the
    result is C's [fmod], moved by one [wx] when its sign differs from the
    sign of [wx], and a zero result takes the sign of [wx].  [fmod] is exact:
    the remainder of the truncated division, with the sign of [vx]. *)

Definition fmod (x y : float) : float :=
  match x, y with
  | S754_nan, _ | _, S754_nan => nan
  | S754_infinity _, _ => nan
  | _, S754_zero _ => nan
  | S754_zero _, _ => x
  | S754_finite _ _ _, S754_infinity _ => x
  | S754_finite sx mx ex, S754_finite _ my ey =>
      let e0 := Z.min ex ey in
      let r := Z.rem (Zpos mx * 2 ^ (ex - e0)) (Zpos my * 2 ^ (ey - e0)) in
      binary_normalize prec emax (cond_Zopp sx r) e0 sx
  end.

Definition rem (vx wx : float) : outcome float :=
  if eqb wx zero then Raise ZeroDivisionError
  else
    let mod_ := fmod vx wx in
    if truthy mod_
    then if negb (Bool.eqb (ltb wx zero) (ltb mod_ zero))
         then Ok (add mod_ wx)
         else Ok mod_
    else Ok (copysign zero wx).

(** *** [math.pow]

    CPython settles the cases with a non-finite operand itself and hands two
    finite operands to C's [pow], turning a not-a-number result into
    [ValueError] and an infinite one into [ValueError] (zero base) or
    [OverflowError].  C's [pow] is fixed by Annex F of the C standard at its
    special cases, and is exact where the power of an integral exponent is a
    binary64 number; its remaining, rounded results are those of the C
    library at hand, the parameter [libm_pow]. *)

Definition c_pow (libm_pow : float -> float -> float) (x y : float) : float :=
  if eqb y zero then one
  else if eqb x one then one
  else if eqb x zero then
    if ltb y zero
    then if is_odd_integer y then copysign infinity x else infinity
    else if is_odd_integer y then x else zero
  else if ltb x zero && negb (is_integer y) then nan
  else
    match to_Z_exact y with
    | Some n =>
        match exact_pow x n with
        | Some r => r
        | None => libm_pow x y
        end
    | None => libm_pow x y
    end.

Definition math_pow (libm_pow : float -> float -> float) (x y : float)
    : outcome float :=
  if negb (isfinite x) || negb (isfinite y) then
    if isnan x then Ok (if eqb y zero then one else x)
    else if isnan y then Ok (if eqb x one then one else y)
    else if isinf x then
      let odd_y := isfinite y && is_odd_integer y in
      if ltb zero y then Ok (if odd_y then x else fabs x)
      else if eqb y zero then Ok one
      else Ok (if odd_y then copysign zero x else zero)
    else
      if eqb (fabs x) one then Ok one
      else if ltb zero y && ltb one (fabs x) then Ok y
      else if ltb y zero && ltb (fabs x) one then Ok (neg y)
      else Ok zero
  else
    let r := c_pow libm_pow x y in
    if isnan r then Raise ValueError
    else if isinf r
         then if eqb x zero then Raise ValueError else Raise OverflowError
         else Ok r.

End Float.

(** ** Characters and strings

    The model reads ASCII text.  On the ASCII characters [isspace],
    [isalpha], [isalnum], [Float.isdigit] and [upper] are Python's [str]
    methods.  Python's methods go on over the rest of Unicode (there are
    further blanks, letters and digits, and [upper] may lengthen a text);
    the functions below do not, and the statements that depend on the class
    of a character are made of ASCII text, see [ascii_text]. *)

Definition newline : ascii := "010"%char.

Definition isspace (c : ascii) : bool :=
  let n := nat_of_ascii c in
  ((9 <=? n)%nat && (n <=? 13)%nat) || ((28 <=? n)%nat && (n <=? 32)%nat).

Definition isalpha (c : ascii) : bool :=
  let n := nat_of_ascii c in
  ((65 <=? n)%nat && (n <=? 90)%nat) || ((97 <=? n)%nat && (n <=? 122)%nat).

Definition isalnum (c : ascii) : bool := isalpha c || Float.isdigit c.

Definition upper_char (c : ascii) : ascii :=
  let n := nat_of_ascii c in
  if (97 <=? n)%nat && (n <=? 122)%nat then ascii_of_nat (n - 32) else c.

Fixpoint upper (s : string) : string :=
  match s with
  | EmptyString => EmptyString
  | String c s' => String (upper_char c) (upper s')
  end.

Definition startswith (c : ascii) (s : string) : bool :=
  match s with
  | String a _ => Ascii.eqb a c
  | EmptyString => false
  end.

Fixpoint endswith (c : ascii) (s : string) : bool :=
  match s with
  | EmptyString => false
  | String a EmptyString => Ascii.eqb a c
  | String _ s' => endswith c s'
  end.

Definition len (s : string) : Z := Z.of_nat (String.length s).

(** ** Tokens *)

Module TokenType.

Inductive t : Set :=
| IF | THEN | ELSE
| PLUS | MINUS | MULTIPLY | DIVIDE | EXPONENTIATION | MODULUS
| BITWISE_AND | BITWISE_OR
| AND | OR | NOT
| EQUAL | NOT_EQUAL | LESS | GREATER | LESS_EQUAL | GREATER_EQUAL
| NUMBER | LPAREN | RPAREN | EOF.

Definition eq_dec (a b : t) : {a = b} + {a <> b}.
Proof. decide equality. Defined.

Definition eqb (a b : t) : bool := if eq_dec a b then true else false.

(** [a in (b1, b2, ...)] *)
Definition is_in (a : t) (l : list t) : bool := existsb (eqb a) l.

End TokenType.

(** [Token.value] is a float for a NUMBER, the operator or keyword text for
    the other kinds, and None at the end of the input. *)
Inductive py_value : Type :=
| PyFloat (f : Float.float)
| PyStr (s : string)
| PyNone.

Module Token.

Record t : Type := mk {
  type : TokenType.t;
  value : py_value;
  line : Z;
  column : Z
}.

End Token.

(** ** The lexer *)

Module Lexer.

Import TokenType.

(** [text] holds [self.text[self.pos:]], the characters not yet consumed;
    [current_char] is its first character. *)
Record t : Type := mk {
  text : string;
  line : Z;
  column : Z
}.

Definition init (text : string) : t := mk text 1 1.

Definition current_char (lx : t) : option ascii :=
  match text lx with
  | EmptyString => None
  | String c _ => Some c
  end.

Definition keywords : list (string * TokenType.t) :=
  [("IF", IF); ("THEN", THEN); ("ELSE", ELSE);
   ("AND", AND); ("OR", OR); ("NOT", NOT)].

Fixpoint get (d : list (string * TokenType.t)) (k : string) : option TokenType.t :=
  match d with
  | [] => None
  | (k', v) :: d' => if String.eqb k' k then Some v else get d' k
  end.

Definition error {A : Type} (lx : t) : outcome A :=
  Raise (Exception_InvalidCharacter (line lx) (column lx)).

(** The line and column after consuming the character [c]. *)
Definition advance_position (c : ascii) (line column : Z) : Z * Z :=
  if Ascii.eqb c newline then (line + 1, 0 + 1) else (line, column + 1).

Definition advance (lx : t) : t :=
  match text lx with
  | EmptyString => mk EmptyString (line lx) (column lx + 1)
  | String c rest =>
      let '(l, k) := advance_position c (line lx) (column lx) in
      mk rest l k
  end.

(** The three scanning loops advance one character per iteration; they are
    written by recursion on the unread text. *)

Fixpoint skip_whitespace_from (s : string) (line column : Z) : t :=
  match s with
  | String c rest =>
      if isspace c
      then let '(l, k) := advance_position c line column in
           skip_whitespace_from rest l k
      else mk s line column
  | EmptyString => mk s line column
  end.

Definition skip_whitespace (lx : t) : t :=
  skip_whitespace_from (text lx) (line lx) (column lx).

Fixpoint skip_comment_from (s : string) (line column : Z) : t :=
  match s with
  | String c rest =>
      if negb (Ascii.eqb c newline)
      then let '(l, k) := advance_position c line column in
           skip_comment_from rest l k
      else mk s line column
  | EmptyString => mk s line column
  end.

Definition skip_comment (lx : t) : t :=
  advance (skip_comment_from (text lx) (line lx) (column lx)).

Fixpoint number_from (s : string) (line column : Z)
    (result : string) (decimal_point_count : nat) : outcome (string * t) :=
  match s with
  | String c rest =>
      if Float.isdigit c || Ascii.eqb c "."
      then
        let decimal_point_count :=
          if Ascii.eqb c "." then S decimal_point_count else decimal_point_count in
        if Ascii.eqb c "." && (1 <? decimal_point_count)%nat
        then error (mk s line column)
        else let '(l, k) := advance_position c line column in
             number_from rest l k (result ++ String c EmptyString) decimal_point_count
      else Ok (result, mk s line column)
  | EmptyString => Ok (result, mk s line column)
  end.

Definition number (lx : t) : outcome (Token.t * t) :=
  '(result, lx) <- number_from (text lx) (line lx) (column lx) EmptyString O ;;
  let result := if startswith "." result then "0" ++ result else result in
  let result := if endswith "." result then result ++ "0" else result in
  v <- Float.of_string result ;;
  Ok (Token.mk NUMBER (PyFloat v) (line lx) (column lx - len result), lx).

Fixpoint id_from (s : string) (line column : Z) (result : string) : string * t :=
  match s with
  | String c rest =>
      if isalnum c || Ascii.eqb c "_"
      then let '(l, k) := advance_position c line column in
           id_from rest l k (result ++ String c EmptyString)
      else (result, mk s line column)
  | EmptyString => (result, mk s line column)
  end.

Definition _id (lx : t) : outcome (Token.t * t) :=
  let '(result, lx) := id_from (text lx) (line lx) (column lx) EmptyString in
  match get keywords (upper result) with
  | Some token_type =>
      Ok (Token.mk token_type (PyStr (upper result))
                   (line lx) (column lx - len result), lx)
  | None => error lx
  end.

(** One pass of [get_next_token]'s [while] loop; [continue] is the
    recursive call.  Each [continue] follows the consumption of at least one
    character, so [get_next_token] starts the loop with one unit of fuel more
    than there are characters left. *)
Fixpoint get_next_token_loop (fuel : nat) (lx : t) : outcome (Token.t * t) :=
  match fuel with
  | O => OutOfFuel
  | S fuel =>
    match current_char lx with
    | None => Ok (Token.mk EOF PyNone (line lx) (column lx), lx)
    | Some c =>
      if isspace c then get_next_token_loop fuel (skip_whitespace lx)
      else if Ascii.eqb c "#" then get_next_token_loop fuel (skip_comment lx)
      else if Float.isdigit c || Ascii.eqb c "." then number lx
      else if isalpha c then _id lx
      else if Ascii.eqb c "+" then
        let lx := advance lx in
        Ok (Token.mk PLUS (PyStr "+") (line lx) (column lx - 1), lx)
      else if Ascii.eqb c "-" then
        let lx := advance lx in
        Ok (Token.mk MINUS (PyStr "-") (line lx) (column lx - 1), lx)
      else if Ascii.eqb c "*" then
        let lx := advance lx in
        Ok (Token.mk MULTIPLY (PyStr "*") (line lx) (column lx - 1), lx)
      else if Ascii.eqb c "/" then
        let lx := advance lx in
        Ok (Token.mk DIVIDE (PyStr "/") (line lx) (column lx - 1), lx)
      else if Ascii.eqb c "^" then
        let lx := advance lx in
        Ok (Token.mk EXPONENTIATION (PyStr "^") (line lx) (column lx - 1), lx)
      else if Ascii.eqb c "%" then
        let lx := advance lx in
        Ok (Token.mk MODULUS (PyStr "%") (line lx) (column lx - 1), lx)
      else if Ascii.eqb c "&" then
        let lx := advance lx in
        Ok (Token.mk BITWISE_AND (PyStr "&") (line lx) (column lx - 1), lx)
      else if Ascii.eqb c "|" then
        let lx := advance lx in
        Ok (Token.mk BITWISE_OR (PyStr "|") (line lx) (column lx - 1), lx)
      else if Ascii.eqb c "(" then
        let lx := advance lx in
        Ok (Token.mk LPAREN (PyStr "(") (line lx) (column lx - 1), lx)
      else if Ascii.eqb c ")" then
        let lx := advance lx in
        Ok (Token.mk RPAREN (PyStr ")") (line lx) (column lx - 1), lx)
      else if Ascii.eqb c "=" then
        let lx := advance lx in
        match current_char lx with
        | Some "="%char =>
            let lx := advance lx in
            Ok (Token.mk EQUAL (PyStr "==") (line lx) (column lx - 2), lx)
        | _ => error lx
        end
      else if Ascii.eqb c "!" then
        let lx := advance lx in
        match current_char lx with
        | Some "="%char =>
            let lx := advance lx in
            Ok (Token.mk NOT_EQUAL (PyStr "!=") (line lx) (column lx - 2), lx)
        | _ => error lx
        end
      else if Ascii.eqb c "<" then
        let lx := advance lx in
        match current_char lx with
        | Some "="%char =>
            let lx := advance lx in
            Ok (Token.mk LESS_EQUAL (PyStr "<=") (line lx) (column lx - 2), lx)
        | _ => Ok (Token.mk LESS (PyStr "<") (line lx) (column lx - 1), lx)
        end
      else if Ascii.eqb c ">" then
        let lx := advance lx in
        match current_char lx with
        | Some "="%char =>
            let lx := advance lx in
            Ok (Token.mk GREATER_EQUAL (PyStr ">=") (line lx) (column lx - 2), lx)
        | _ => Ok (Token.mk GREATER (PyStr ">") (line lx) (column lx - 1), lx)
        end
      else error lx
    end
  end.

Definition get_next_token (lx : t) : outcome (Token.t * t) :=
  get_next_token_loop (S (String.length (text lx))) lx.

End Lexer.

(** ** Values

    [comparison] and [logical_expr] return a float or a bool; Python orders
    and equates a bool with a float as the number 1.0 or 0.0. *)

Inductive value : Type :=
| VFloat (f : Float.float)
| VBool (b : bool).

Definition to_float (v : value) : Float.float :=
  match v with
  | VFloat f => f
  | VBool true => Float.one
  | VBool false => Float.zero
  end.

(** [bool(v)], the test behind [and], [or] and the conditional expression. *)
Definition truthy (v : value) : bool :=
  match v with
  | VFloat f => Float.truthy f
  | VBool b => b
  end.

Definition py_eq (a : value) (b : Float.float) : bool := Float.eqb (to_float a) b.
Definition py_ne (a : value) (b : Float.float) : bool := negb (py_eq a b).
Definition py_lt (a : value) (b : Float.float) : bool := Float.ltb (to_float a) b.
Definition py_gt (a : value) (b : Float.float) : bool := Float.ltb b (to_float a).
Definition py_le (a : value) (b : Float.float) : bool := Float.leb (to_float a) b.
Definition py_ge (a : value) (b : Float.float) : bool := Float.leb b (to_float a).

(** ** The parser *)

Module Parser.

Import TokenType.

Record t : Type := mk {
  lexer : Lexer.t;
  current_token : Token.t
}.

Definition init (lexer : Lexer.t) : outcome t :=
  '(token, lexer) <- Lexer.get_next_token lexer ;;
  Ok (mk lexer token).

Definition error {A : Type} : outcome A := Raise Exception_InvalidSyntax.

Definition eat (token_type : TokenType.t) (p : t) : outcome t :=
  if eqb (Token.type (current_token p)) token_type
  then '(token, lexer) <- Lexer.get_next_token (lexer p) ;;
       Ok (mk lexer token)
  else error.

(** [atom] returns [token.value]; the lexer gives every NUMBER a float. *)
Definition number_value (v : py_value) : outcome Float.float :=
  match v with
  | PyFloat f => Ok f
  | _ => Raise TypeError
  end.

Section Productions.

(** The C library's [pow] where its result is rounded (see [Float.c_pow]). *)
Variable libm_pow : Float.float -> Float.float -> Float.float.

(** The productions that call each other, and the [while] loop of each as
    a function of the running [result].  Every call takes one unit of fuel. *)
Fixpoint atom (fuel : nat) (p : t) : outcome (Float.float * t) :=
  match fuel with
  | O => OutOfFuel
  | S fuel =>
    let token := current_token p in
    if eqb (Token.type token) NUMBER then
      p <- eat NUMBER p ;;
      v <- number_value (Token.value token) ;;
      Ok (v, p)
    else if eqb (Token.type token) LPAREN then
      p <- eat LPAREN p ;;
      '(result, p) <- expression fuel p ;;
      p <- eat RPAREN p ;;
      Ok (result, p)
    else error
  end

with factor (fuel : nat) (p : t) : outcome (Float.float * t) :=
  match fuel with
  | O => OutOfFuel
  | S fuel =>
    let token := current_token p in
    if eqb (Token.type token) PLUS then
      p <- eat PLUS p ;;
      factor fuel p
    else if eqb (Token.type token) MINUS then
      p <- eat MINUS p ;;
      '(v, p) <- factor fuel p ;;
      Ok (Float.neg v, p)
    else exponentiation fuel p
  end

with exponentiation (fuel : nat) (p : t) : outcome (Float.float * t) :=
  match fuel with
  | O => OutOfFuel
  | S fuel =>
    '(result, p) <- atom fuel p ;;
    exponentiation_loop fuel result p
  end

with exponentiation_loop (fuel : nat) (result : Float.float) (p : t)
    : outcome (Float.float * t) :=
  match fuel with
  | O => OutOfFuel
  | S fuel =>
    if eqb (Token.type (current_token p)) EXPONENTIATION then
      p <- eat EXPONENTIATION p ;;
      '(e, p) <- factor fuel p ;;
      result <- Float.math_pow libm_pow result e ;;
      exponentiation_loop fuel result p
    else Ok (result, p)
  end

with term (fuel : nat) (p : t) : outcome (Float.float * t) :=
  match fuel with
  | O => OutOfFuel
  | S fuel =>
    '(result, p) <- factor fuel p ;;
    term_loop fuel result p
  end

with term_loop (fuel : nat) (result : Float.float) (p : t)
    : outcome (Float.float * t) :=
  match fuel with
  | O => OutOfFuel
  | S fuel =>
    if is_in (Token.type (current_token p)) [MULTIPLY; DIVIDE; MODULUS] then
      let token := current_token p in
      if eqb (Token.type token) MULTIPLY then
        p <- eat MULTIPLY p ;;
        '(v, p) <- factor fuel p ;;
        term_loop fuel (Float.mul result v) p
      else if eqb (Token.type token) DIVIDE then
        p <- eat DIVIDE p ;;
        '(divisor, p) <- factor fuel p ;;
        if Float.eqb divisor Float.zero
        then Raise Exception_DivisionByZero
        else term_loop fuel (Float.div result divisor) p
      else if eqb (Token.type token) MODULUS then
        p <- eat MODULUS p ;;
        '(v, p) <- factor fuel p ;;
        result <- Float.rem result v ;;
        term_loop fuel result p
      else term_loop fuel result p
    else Ok (result, p)
  end

with expression (fuel : nat) (p : t) : outcome (Float.float * t) :=
  match fuel with
  | O => OutOfFuel
  | S fuel =>
    '(result, p) <- term fuel p ;;
    expression_loop fuel result p
  end

with expression_loop (fuel : nat) (result : Float.float) (p : t)
    : outcome (Float.float * t) :=
  match fuel with
  | O => OutOfFuel
  | S fuel =>
    if is_in (Token.type (current_token p)) [PLUS; MINUS] then
      let token := current_token p in
      if eqb (Token.type token) PLUS then
        p <- eat PLUS p ;;
        '(v, p) <- term fuel p ;;
        expression_loop fuel (Float.add result v) p
      else if eqb (Token.type token) MINUS then
        p <- eat MINUS p ;;
        '(v, p) <- term fuel p ;;
        expression_loop fuel (Float.sub result v) p
      else expression_loop fuel result p
    else Ok (result, p)
  end.

Fixpoint comparison_loop (fuel : nat) (result : value) (p : t)
    : outcome (value * t) :=
  match fuel with
  | O => OutOfFuel
  | S fuel =>
    if is_in (Token.type (current_token p))
             [EQUAL; NOT_EQUAL; LESS; GREATER; LESS_EQUAL; GREATER_EQUAL] then
      let token := current_token p in
      if eqb (Token.type token) EQUAL then
        p <- eat EQUAL p ;;
        '(v, p) <- expression fuel p ;;
        comparison_loop fuel (VBool (py_eq result v)) p
      else if eqb (Token.type token) NOT_EQUAL then
        p <- eat NOT_EQUAL p ;;
        '(v, p) <- expression fuel p ;;
        comparison_loop fuel (VBool (py_ne result v)) p
      else if eqb (Token.type token) LESS then
        p <- eat LESS p ;;
        '(v, p) <- expression fuel p ;;
        comparison_loop fuel (VBool (py_lt result v)) p
      else if eqb (Token.type token) GREATER then
        p <- eat GREATER p ;;
        '(v, p) <- expression fuel p ;;
        comparison_loop fuel (VBool (py_gt result v)) p
      else if eqb (Token.type token) LESS_EQUAL then
        p <- eat LESS_EQUAL p ;;
        '(v, p) <- expression fuel p ;;
        comparison_loop fuel (VBool (py_le result v)) p
      else if eqb (Token.type token) GREATER_EQUAL then
        p <- eat GREATER_EQUAL p ;;
        '(v, p) <- expression fuel p ;;
        comparison_loop fuel (VBool (py_ge result v)) p
      else comparison_loop fuel result p
    else Ok (result, p)
  end.

Definition comparison (fuel : nat) (p : t) : outcome (value * t) :=
  '(result, p) <- expression fuel p ;;
  comparison_loop fuel (VFloat result) p.

(** [result and self.comparison()] calls [comparison] only when [result] is
    true, and [result or self.comparison()] only when it is false: that is
    Python's [and] and [or]. *)
Fixpoint logical_expr_loop (fuel : nat) (result : value) (p : t)
    : outcome (value * t) :=
  match fuel with
  | O => OutOfFuel
  | S fuel =>
    if is_in (Token.type (current_token p)) [AND; OR] then
      let token := current_token p in
      if eqb (Token.type token) AND then
        p <- eat AND p ;;
        if truthy result
        then '(v, p) <- comparison fuel p ;;
             logical_expr_loop fuel v p
        else logical_expr_loop fuel result p
      else if eqb (Token.type token) OR then
        p <- eat OR p ;;
        if truthy result
        then logical_expr_loop fuel result p
        else '(v, p) <- comparison fuel p ;;
             logical_expr_loop fuel v p
      else logical_expr_loop fuel result p
    else Ok (result, p)
  end.

Definition logical_expr (fuel : nat) (p : t) : outcome (value * t) :=
  '(result, p) <- comparison fuel p ;;
  logical_expr_loop fuel result p.

Definition if_expr (fuel : nat) (p : t) : outcome (Float.float * t) :=
  p <- eat IF p ;;
  '(condition, p) <- logical_expr fuel p ;;
  p <- eat THEN p ;;
  '(true_value, p) <- expression fuel p ;;
  p <- eat ELSE p ;;
  '(false_value, p) <- expression fuel p ;;
  Ok (if truthy condition then true_value else false_value, p).

Definition parse (fuel : nat) (p : t) : outcome (value * t) :=
  if eqb (Token.type (current_token p)) IF
  then '(v, p) <- if_expr fuel p ;; Ok (VFloat v, p)
  else logical_expr fuel p.

End Productions.

End Parser.

(** ** [evaluate]

    The recursion of the productions is bounded by the length of the text:
    every token takes at least one character, and five calls are nested
    between two tokens.  That gives the fuel; [evaluate_never_out_of_fuel]
    shows that it is enough for every input.  (Python's own bound on the
    depth of recursion is not modelled: the statements that need a run to
    stay within it bound the nesting of the text, see [nesting] and
    [frames_left].) *)

Definition fuel_for (text : string) : nat := 5 * String.length text + 5.

Definition evaluate (libm_pow : Float.float -> Float.float -> Float.float)
    (text : string) : outcome value :=
  let lexer := Lexer.init text in
  parser <- Parser.init lexer ;;
  '(v, _) <- Parser.parse libm_pow (fuel_for text) parser ;;
  Ok v.

(** * Notions used by the statements and their proofs *)

(** A C library used where a statement needs a concrete one: its [pow]
    answers not-a-number wherever the power is not exact. *)
Definition libm_pow_nan (x y : Float.float) : Float.float := Float.nan.

(** The token kinds at which some [while] loop of the parser goes on. *)
Definition continues (ty : TokenType.t) : bool :=
  TokenType.is_in ty
    [TokenType.EXPONENTIATION; TokenType.MULTIPLY; TokenType.DIVIDE;
     TokenType.MODULUS; TokenType.PLUS; TokenType.MINUS;
     TokenType.EQUAL; TokenType.NOT_EQUAL; TokenType.LESS; TokenType.GREATER;
     TokenType.LESS_EQUAL; TokenType.GREATER_EQUAL;
     TokenType.AND; TokenType.OR].

(** The token kinds an operand can start with. *)
Definition starts_operand (ty : TokenType.t) : bool :=
  TokenType.is_in ty
    [TokenType.NUMBER; TokenType.LPAREN; TokenType.PLUS; TokenType.MINUS].

(** [rest] begins (after blanks and comments) with a token, possibly the end
    of the input, that continues no loop, wherever the lexer stands. *)
Definition begins_with_no_operator (rest : string) : Prop :=
  forall line column, exists token lexer,
    Lexer.get_next_token (Lexer.mk rest line column) = Ok (token, lexer) /\
    continues (Token.type token) = false.

(** The lexer [lx] with a newline and [rest] added to its text. *)
Definition extend (rest : string) (lx : Lexer.t) : Lexer.t :=
  Lexer.mk (Lexer.text lx ++ String newline rest) (Lexer.line lx) (Lexer.column lx).

Definition fails {A : Type} (r : outcome A) : Prop :=
  match r with Ok _ => False | _ => True end.

(** What a call of the lexer from [lx] may end in: it does not run out of
    fuel, it never gives text back, and a token other than EOF takes at
    least one character. *)
Definition consumes (lx : Lexer.t) (r : outcome (Token.t * Lexer.t)) : Prop :=
  match r with
  | Ok (tok, lx') =>
      (String.length (Lexer.text lx') <= String.length (Lexer.text lx))%nat /\
      (Token.type tok <> TokenType.EOF ->
       (String.length (Lexer.text lx') < String.length (Lexer.text lx))%nat)
  | Raise _ => True
  | OutOfFuel => False
  end.

(** [r] is what the lexer returns over the extended text where it returned
    [tok] and [lx'] over the text itself: the same token with [rest] still
    ahead, or, at the end of the text, the first token of [rest]. *)
Definition framed (rest : string) (tok : Token.t) (lx' : Lexer.t)
    (r : outcome (Token.t * Lexer.t)) : Prop :=
  (Token.type tok = TokenType.EOF ->
   exists l k, r = Lexer.get_next_token (Lexer.mk rest l k)) /\
  (Token.type tok <> TokenType.EOF -> r = Ok (tok, extend rest lx')).

Definition frames (rest : string) (short long : outcome (Token.t * Lexer.t)) : Prop :=
  forall tok lx', short = Ok (tok, lx') -> framed rest tok lx' long.

(** A production [f] carries the relation [R] between parser states from
    its start to its return, with the same value, given at least as much
    fuel on the right. *)
Definition simulated (R : Parser.t -> Parser.t -> Prop) {A : Type}
    (f : nat -> Parser.t -> outcome (A * Parser.t)) (n : nat) : Prop :=
  forall m p q v p', (n <= m)%nat -> R p q -> f n p = Ok (v, p') ->
  exists q', f m q = Ok (v, q') /\ R p' q'.

(** The parser over a text, [p], and over that text, a newline and [rest],
    [q]: the same current token, with [rest] ahead of the lexer of [q]; or [p]
    is at the end of its text and [q] at a token that continues no loop. *)
Definition ahead (rest : string) (p q : Parser.t) : Prop :=
  (Token.type (Parser.current_token p) <> TokenType.EOF /\
   Parser.current_token q = Parser.current_token p /\
   Parser.lexer q = extend rest (Parser.lexer p)) \/
  (Token.type (Parser.current_token p) = TokenType.EOF /\
   continues (Token.type (Parser.current_token q)) = false).

(** The termination measure: the characters the lexer has not read yet,
    and one more while the current token is not EOF. *)
Definition remaining (p : Parser.t) : nat :=
  String.length (Lexer.text (Parser.lexer p)) +
  (if TokenType.eqb (Token.type (Parser.current_token p)) TokenType.EOF then 0 else 1).

Definition bounded {A : Type} (p : Parser.t) (r : outcome (A * Parser.t)) : Prop :=
  match r with
  | Ok (_, p') => (remaining p' <= remaining p)%nat
  | Raise _ => True
  | OutOfFuel => False
  end.

(** With [rank] units of fuel and five more for each unit of the measure,
    [f] does not run out of fuel and does not increase the measure. *)
Definition total {A : Type} (rank : nat)
    (f : nat -> Parser.t -> outcome (A * Parser.t)) (n : nat) : Prop :=
  forall p, (rank + 5 * remaining p <= n)%nat -> bounded p (f n p).

(** ** Texts *)

(** [s] is what is left of [t] after some of its first characters. *)
Definition is_suffix (s t : string) : Prop := exists pre, t = pre ++ s.

Fixpoint all_chars (P : ascii -> bool) (s : string) : bool :=
  match s with
  | EmptyString => true
  | String c s' => P c && all_chars P s'
  end.

(** The first character of [s] satisfies [P]. *)
Definition begins (P : ascii -> bool) (s : string) : bool :=
  match s with
  | String a _ => P a
  | EmptyString => false
  end.

Fixpoint occurs (c : ascii) (s : string) : bool :=
  match s with
  | EmptyString => false
  | String a s' => Ascii.eqb a c || occurs c s'
  end.

(** The texts on which the character classes of the model are Python's. *)
Definition is_ascii (c : ascii) : bool := (nat_of_ascii c <? 128)%nat.
Definition ascii_text (s : string) : bool := all_chars is_ascii s.

(** A bound of the calls the productions nest while they read [s]: a [(]
    takes the text down from [atom] through [expression], [term], [factor]
    and [exponentiation] to the next [atom], a sign from [factor] to
    [factor], and a [^] from [exponentiation] through [factor] to
    [exponentiation]. *)
Fixpoint nesting (s : string) : nat :=
  match s with
  | EmptyString => O
  | String c s' =>
      (if Ascii.eqb c "(" then 5
       else if Ascii.eqb c "+" || Ascii.eqb c "-" then 1
       else if Ascii.eqb c "^" then 2
       else 0) + nesting s'
  end.

(** The calls the productions may nest under Python's limit on the depth
    of recursion, 1000 frames unless it is set otherwise: 800 leave room
    for the caller of [evaluate], for [evaluate], [parse], [if_expr],
    [logical_expr] and [comparison] above the productions, and for [eat]
    and the lexer below them.  (The model itself has no such limit.) *)
Definition frames_left : nat := 800.

(** The characters the loops of [number] and [_id] go on at. *)
Definition numeral_char (c : ascii) : bool := Float.isdigit c || Ascii.eqb c ".".
Definition id_char (c : ascii) : bool := isalnum c || Ascii.eqb c "_".

Fixpoint dots (s : string) : nat :=
  match s with
  | EmptyString => O
  | String c s' => (if Ascii.eqb c "." then 1 else 0) + dots s'
  end.

Fixpoint has_digit (s : string) : bool :=
  match s with
  | EmptyString => false
  | String c s' => Float.isdigit c || has_digit s'
  end.

(** A run of digits, read as "0" when it is empty: what [number] makes of
    the missing side of a decimal point. *)
Definition or_zero (digits : string) : string :=
  match digits with
  | EmptyString => "0"
  | _ => digits
  end.

(** The line and column after [advance] has gone over [s]. *)
Fixpoint position_after (s : string) (line column : Z) : Z * Z :=
  match s with
  | EmptyString => (line, column)
  | String c s' =>
      let '(l, k) := Lexer.advance_position c line column in
      position_after s' l k
  end.

(** The ASCII characters [get_next_token] has a branch for. *)
Definition known_char (a : ascii) : bool :=
  isspace a || Ascii.eqb a "#" || Float.isdigit a || Ascii.eqb a "." || isalpha a ||
  occurs a "+-*/^%&|()=!<>".

Definition is_equals (a : ascii) : bool := Ascii.eqb a "=".

(** ** What the lexer returns *)

(** The character behind the token of an operator whose evaluation can
    fail. *)
Definition operator_char (ty : TokenType.t) : option ascii :=
  match ty with
  | TokenType.EXPONENTIATION => Some "^"%char
  | TokenType.DIVIDE => Some "/"%char
  | TokenType.MODULUS => Some "%"%char
  | _ => None
  end.

(** [tok] may have been read from [text]: a NUMBER carries a float, and the
    character of a failing operator occurs in [text]. *)
Definition token_from (text : string) (tok : Token.t) : Prop :=
  (Token.type tok = TokenType.NUMBER -> exists f, Token.value tok = PyFloat f) /\
  (forall c, operator_char (Token.type tok) = Some c -> occurs c text = true).

(** What a call of the lexer from [lx] ends in: a token read from the text
    of [lx], with a suffix of that text left, and all of it read at EOF; or
    the exception of [Lexer.error]. *)
Definition lexed (lx : Lexer.t) (r : outcome (Token.t * Lexer.t)) : Prop :=
  match r with
  | Ok (tok, lx') =>
      is_suffix (Lexer.text lx') (Lexer.text lx) /\
      (Token.type tok = TokenType.EOF ->
       Lexer.text lx' = EmptyString /\
       tok = Token.mk TokenType.EOF PyNone (Lexer.line lx') (Lexer.column lx')) /\
      token_from (Lexer.text lx) tok
  | Raise e => exists l c, e = Exception_InvalidCharacter l c
  | OutOfFuel => True
  end.

(** ** What the parser keeps while it reads [text] *)

Definition reads (text : string) (p : Parser.t) : Prop :=
  is_suffix (Lexer.text (Parser.lexer p)) text /\
  token_from text (Parser.current_token p).

(** The exceptions an evaluation of [text] can end in: those of the lexer
    and of the parser, and those of an arithmetic operator that occurs in
    [text]. *)
Definition raised_on (text : string) (e : exn) : Prop :=
  match e with
  | Exception_InvalidCharacter _ _ | Exception_InvalidSyntax => True
  | Exception_DivisionByZero => occurs "/" text = true
  | ZeroDivisionError => occurs "%" text = true
  | ValueError | OverflowError => occurs "^" text = true
  | TypeError => False
  end.

Definition keeps (text : string) {A : Type} (r : outcome (A * Parser.t)) : Prop :=
  match r with
  | Ok (_, p') => reads text p'
  | Raise e => raised_on text e
  | OutOfFuel => True
  end.

(** ** The text in upper case *)

Definition outcome_map {A B : Type} (f : A -> B) (r : outcome A) : outcome B :=
  match r with
  | Ok x => Ok (f x)
  | Raise e => Raise e
  | OutOfFuel => OutOfFuel
  end.

Definition upper_lexer (lx : Lexer.t) : Lexer.t :=
  Lexer.mk (upper (Lexer.text lx)) (Lexer.line lx) (Lexer.column lx).

Definition upper_parser (p : Parser.t) : Parser.t :=
  Parser.mk (upper_lexer (Parser.lexer p)) (Parser.current_token p).

Definition over_upper_lexer {A : Type} (x : A * Lexer.t) : A * Lexer.t :=
  (fst x, upper_lexer (snd x)).

Definition over_upper_parser {A : Type} (x : A * Parser.t) : A * Parser.t :=
  (fst x, upper_parser (snd x)).

(** ** Results up to positions *)

(** The line and column of an 'Invalid character' set aside. *)
Definition unplaced_exn (e : exn) : exn :=
  match e with
  | Exception_InvalidCharacter _ _ => Exception_InvalidCharacter 0 0
  | _ => e
  end.

Definition unplaced {A : Type} (r : outcome A) : outcome A :=
  match r with
  | Raise e => Raise (unplaced_exn e)
  | _ => r
  end.

(** [r2] is, up to [R] and to positions, what [r1] is, unless [r1] ran out
    of fuel. *)
Definition agrees {A B : Type} (R : A -> B -> Prop)
    (r1 : outcome A) (r2 : outcome B) : Prop :=
  match r1, r2 with
  | Ok x, Ok y => R x y
  | Raise e, Raise e' => unplaced_exn e = unplaced_exn e'
  | OutOfFuel, _ => True
  | _, _ => False
  end.

Definition same_text (lx lx' : Lexer.t) : Prop := Lexer.text lx = Lexer.text lx'.

Definition same_token (tok tok' : Token.t) : Prop :=
  Token.type tok = Token.type tok' /\ Token.value tok = Token.value tok'.

Definition same_lexed (x y : Token.t * Lexer.t) : Prop :=
  same_token (fst x) (fst y) /\ same_text (snd x) (snd y).

Definition alike (p q : Parser.t) : Prop :=
  same_token (Parser.current_token p) (Parser.current_token q) /\
  same_text (Parser.lexer p) (Parser.lexer q).

Definition same_result {A : Type} (x y : A * Parser.t) : Prop :=
  fst x = fst y /\ alike (snd x) (snd y).

(** A production [f] returns the same value, or fails alike, from two parser
    states that differ in positions only, given at least as much fuel on the
    right. *)
Definition position_free {A : Type}
    (f : nat -> Parser.t -> outcome (A * Parser.t)) (n : nat) : Prop :=
  forall m p q, (n <= m)%nat -> alike p q -> agrees same_result (f n p) (f m q).

(** ** The grammar of the docstring *)

Module Grammar.

Inductive expression : Type :=
| E_term (t : term)
| E_plus (e : expression) (t : term)
| E_minus (e : expression) (t : term)
with term : Type :=
| T_factor (f : factor)
| T_multiply (t : term) (f : factor)
| T_divide (t : term) (f : factor)
| T_modulus (t : term) (f : factor)
with factor : Type :=
| F_plus (f : factor)
| F_minus (f : factor)
| F_exponentiation (x : exponentiation)
with exponentiation : Type :=
| X_atom (a : atom)
| X_power (a : atom) (f : factor)
with atom : Type :=
| A_number (digits : string)
| A_decimal (digits fraction : string)
| A_parenthesis (e : expression).

Scheme expression_mut := Induction for expression Sort Prop
  with term_mut := Induction for term Sort Prop
  with factor_mut := Induction for factor Sort Prop
  with exponentiation_mut := Induction for exponentiation Sort Prop
  with atom_mut := Induction for atom Sort Prop.

Combined Scheme mutual_ind
  from expression_mut, term_mut, factor_mut, exponentiation_mut, atom_mut.

(** The text of a tree, with nothing between its tokens. *)
Fixpoint print_expression (e : expression) : string :=
  match e with
  | E_term t => print_term t
  | E_plus e t => print_expression e ++ String "+" (print_term t)
  | E_minus e t => print_expression e ++ String "-" (print_term t)
  end
with print_term (t : term) : string :=
  match t with
  | T_factor f => print_factor f
  | T_multiply t f => print_term t ++ String "*" (print_factor f)
  | T_divide t f => print_term t ++ String "/" (print_factor f)
  | T_modulus t f => print_term t ++ String "%" (print_factor f)
  end
with print_factor (f : factor) : string :=
  match f with
  | F_plus f => String "+" (print_factor f)
  | F_minus f => String "-" (print_factor f)
  | F_exponentiation x => print_exponentiation x
  end
with print_exponentiation (x : exponentiation) : string :=
  match x with
  | X_atom a => print_atom a
  | X_power a f => print_atom a ++ String "^" (print_factor f)
  end
with print_atom (a : atom) : string :=
  match a with
  | A_number digits => digits
  | A_decimal digits fraction => digits ++ String "." fraction
  | A_parenthesis e => String "(" (print_expression e ++ ")")
  end.

(** A numeral is digits, one at least. *)
Definition numeral (digits : string) : bool :=
  all_chars Float.isdigit digits && negb (String.eqb digits "").

Fixpoint wf_expression (e : expression) : bool :=
  match e with
  | E_term t => wf_term t
  | E_plus e t | E_minus e t => wf_expression e && wf_term t
  end
with wf_term (t : term) : bool :=
  match t with
  | T_factor f => wf_factor f
  | T_multiply t f | T_divide t f | T_modulus t f => wf_term t && wf_factor f
  end
with wf_factor (f : factor) : bool :=
  match f with
  | F_plus f | F_minus f => wf_factor f
  | F_exponentiation x => wf_exponentiation x
  end
with wf_exponentiation (x : exponentiation) : bool :=
  match x with
  | X_atom a => wf_atom a
  | X_power a f => wf_atom a && wf_factor f
  end
with wf_atom (a : atom) : bool :=
  match a with
  | A_number digits => numeral digits
  | A_decimal digits fraction => numeral digits && numeral fraction
  | A_parenthesis e => wf_expression e
  end.

(** The productions on the stack at the deepest point of reading a tree:
    one for every call entered and not yet left. *)
Fixpoint frames_expression (e : expression) : nat :=
  match e with
  | E_term t => S (frames_term t)
  | E_plus e t | E_minus e t => Nat.max (frames_expression e) (S (frames_term t))
  end
with frames_term (t : term) : nat :=
  match t with
  | T_factor f => S (frames_factor f)
  | T_multiply t f | T_divide t f | T_modulus t f =>
      Nat.max (frames_term t) (S (frames_factor f))
  end
with frames_factor (f : factor) : nat :=
  match f with
  | F_plus f | F_minus f => S (frames_factor f)
  | F_exponentiation x => S (frames_exponentiation x)
  end
with frames_exponentiation (x : exponentiation) : nat :=
  match x with
  | X_atom a => S (frames_atom a)
  | X_power a f => S (Nat.max (frames_atom a) (frames_factor f))
  end
with frames_atom (a : atom) : nat :=
  match a with
  | A_number _ | A_decimal _ _ => 1%nat
  | A_parenthesis e => S (frames_expression e)
  end.

(** The operators at the top of an expression, and of a term. *)
Fixpoint operators_expression (e : expression) : nat :=
  match e with
  | E_term _ => O
  | E_plus e _ | E_minus e _ => S (operators_expression e)
  end.

Fixpoint operators_term (t : term) : nat :=
  match t with
  | T_factor _ => O
  | T_multiply t _ | T_divide t _ | T_modulus t _ => S (operators_term t)
  end.

Section Value.

Variable libm_pow : Float.float -> Float.float -> Float.float.

(** The value of a tree: operands from left to right, then the operator. *)
Fixpoint eval_expression (e : expression) : outcome Float.float :=
  match e with
  | E_term t => eval_term t
  | E_plus e t =>
      x <- eval_expression e ;; y <- eval_term t ;; Ok (Float.add x y)
  | E_minus e t =>
      x <- eval_expression e ;; y <- eval_term t ;; Ok (Float.sub x y)
  end
with eval_term (t : term) : outcome Float.float :=
  match t with
  | T_factor f => eval_factor f
  | T_multiply t f =>
      x <- eval_term t ;; y <- eval_factor f ;; Ok (Float.mul x y)
  | T_divide t f =>
      x <- eval_term t ;; y <- eval_factor f ;;
      if Float.eqb y Float.zero then Raise Exception_DivisionByZero
      else Ok (Float.div x y)
  | T_modulus t f =>
      x <- eval_term t ;; y <- eval_factor f ;; Float.rem x y
  end
with eval_factor (f : factor) : outcome Float.float :=
  match f with
  | F_plus f => eval_factor f
  | F_minus f => x <- eval_factor f ;; Ok (Float.neg x)
  | F_exponentiation x => eval_exponentiation x
  end
with eval_exponentiation (x : exponentiation) : outcome Float.float :=
  match x with
  | X_atom a => eval_atom a
  | X_power a f =>
      b <- eval_atom a ;; e <- eval_factor f ;; Float.math_pow libm_pow b e
  end
with eval_atom (a : atom) : outcome Float.float :=
  match a with
  | A_number digits => Float.of_string digits
  | A_decimal digits fraction => Float.of_string (digits ++ String "." fraction)
  | A_parenthesis e => eval_expression e
  end.

End Value.

End Grammar.

(** The parser [p] has just read the first token of [text]. *)
Definition stands (p : Parser.t) (text : string) : Prop :=
  exists l c,
    Lexer.get_next_token (Lexer.mk text l c) =
    Ok (Parser.current_token p, Parser.lexer p).

(** [rest] can follow a numeral, and begins, wherever the lexer stands,
    with a token of a kind that is [allowed]. *)
Definition follows (allowed : TokenType.t -> bool) (rest : string) : Prop :=
  begins numeral_char rest = false /\
  forall l c, exists tok lx,
    Lexer.get_next_token (Lexer.mk rest l c) = Ok (tok, lx) /\
    allowed (Token.type tok) = true.

Definition after_factor (ty : TokenType.t) : bool :=
  negb (TokenType.eqb ty TokenType.EXPONENTIATION).

Definition after_term (ty : TokenType.t) : bool :=
  negb (TokenType.is_in ty
          [TokenType.EXPONENTIATION; TokenType.MULTIPLY; TokenType.DIVIDE;
           TokenType.MODULUS]).

Definition after_expression (ty : TokenType.t) : bool :=
  negb (TokenType.is_in ty
          [TokenType.EXPONENTIATION; TokenType.MULTIPLY; TokenType.DIVIDE;
           TokenType.MODULUS; TokenType.PLUS; TokenType.MINUS]).

Definition starts_atom (ty : TokenType.t) : bool :=
  TokenType.is_in ty [TokenType.NUMBER; TokenType.LPAREN].

(** The run [run] of a production over a text with the value [value] goes
    on as [k] does with that value from the first token of [rest], and
    fails where the value does. *)
Definition goes_on {B : Type} (run : outcome B) (value : outcome Float.float)
    (rest : string) (k : Float.float -> Parser.t -> outcome B) : Prop :=
  match value with
  | Ok v => exists p', stands p' rest /\ run = k v p'
  | Raise x => run = Raise x
  | OutOfFuel => False
  end.

(** A production [f] of rank [rank] reads [text]: from the first token of
    [text], a token of a kind in [first], with enough fuel it goes on as [k]
    with the value [value] of the text. *)
Definition reads_text (first follow : TokenType.t -> bool) (rank : nat)
    (f : nat -> Parser.t -> outcome (Float.float * Parser.t))
    (k : nat -> Float.float -> Parser.t -> outcome (Float.float * Parser.t))
    (text : string) (value : outcome Float.float) : Prop :=
  forall rest, follows follow rest ->
  forall l c, exists tok lx,
    Lexer.get_next_token (Lexer.mk (text ++ rest) l c) = Ok (tok, lx) /\
    first (Token.type tok) = true /\
    forall n, (rank + 5 * String.length text <= n)%nat ->
      goes_on (f n (Parser.mk lx tok)) value rest (k n).

Definition returned (_ : nat) (v : Float.float) (p : Parser.t)
    : outcome (Float.float * Parser.t) := Ok (v, p).

(** The character [ch] by itself is the token of kind [ty]. *)
Definition single (ch : ascii) (ty : TokenType.t) : Prop :=
  forall s l c,
    Lexer.get_next_token (Lexer.mk (String ch s) l c) =
    Ok (Token.mk ty (PyStr (String ch "")) l (c + 1 - 1), Lexer.mk s l (c + 1)).

(** * Properties *)

Import TokenType.

(** ** Unfolding the productions *)

Section Unfold.

Variable libm_pow : Float.float -> Float.float -> Float.float.

Lemma factor_S fuel p :
  Parser.factor libm_pow (S fuel) p =
  if eqb (Token.type (Parser.current_token p)) PLUS then
    p <- Parser.eat PLUS p ;; Parser.factor libm_pow fuel p
  else if eqb (Token.type (Parser.current_token p)) MINUS then
    p <- Parser.eat MINUS p ;;
    '(v, p) <- Parser.factor libm_pow fuel p ;;
    Ok (Float.neg v, p)
  else Parser.exponentiation libm_pow fuel p.
Proof. reflexivity. Qed.

Lemma exponentiation_loop_S fuel result p :
  Parser.exponentiation_loop libm_pow (S fuel) result p =
  if eqb (Token.type (Parser.current_token p)) EXPONENTIATION then
    p <- Parser.eat EXPONENTIATION p ;;
    '(e, p) <- Parser.factor libm_pow fuel p ;;
    result <- Float.math_pow libm_pow result e ;;
    Parser.exponentiation_loop libm_pow fuel result p
  else Ok (result, p).
Proof. reflexivity. Qed.

Lemma atom_S fuel p :
  Parser.atom libm_pow (S fuel) p =
  if eqb (Token.type (Parser.current_token p)) NUMBER then
    p' <- Parser.eat NUMBER p ;;
    v <- Parser.number_value (Token.value (Parser.current_token p)) ;;
    Ok (v, p')
  else if eqb (Token.type (Parser.current_token p)) LPAREN then
    p <- Parser.eat LPAREN p ;;
    '(result, p) <- Parser.expression libm_pow fuel p ;;
    p <- Parser.eat RPAREN p ;;
    Ok (result, p)
  else Parser.error.
Proof. reflexivity. Qed.

Lemma exponentiation_S fuel p :
  Parser.exponentiation libm_pow (S fuel) p =
  ('(result, p) <- Parser.atom libm_pow fuel p ;;
   Parser.exponentiation_loop libm_pow fuel result p).
Proof. reflexivity. Qed.

Lemma term_S fuel p :
  Parser.term libm_pow (S fuel) p =
  ('(result, p) <- Parser.factor libm_pow fuel p ;;
   Parser.term_loop libm_pow fuel result p).
Proof. reflexivity. Qed.

Lemma term_loop_S fuel result p :
  Parser.term_loop libm_pow (S fuel) result p =
  if is_in (Token.type (Parser.current_token p)) [MULTIPLY; DIVIDE; MODULUS] then
    if eqb (Token.type (Parser.current_token p)) MULTIPLY then
      p <- Parser.eat MULTIPLY p ;;
      '(v, p) <- Parser.factor libm_pow fuel p ;;
      Parser.term_loop libm_pow fuel (Float.mul result v) p
    else if eqb (Token.type (Parser.current_token p)) DIVIDE then
      p <- Parser.eat DIVIDE p ;;
      '(divisor, p) <- Parser.factor libm_pow fuel p ;;
      if Float.eqb divisor Float.zero
      then Raise Exception_DivisionByZero
      else Parser.term_loop libm_pow fuel (Float.div result divisor) p
    else if eqb (Token.type (Parser.current_token p)) MODULUS then
      p <- Parser.eat MODULUS p ;;
      '(v, p) <- Parser.factor libm_pow fuel p ;;
      result <- Float.rem result v ;;
      Parser.term_loop libm_pow fuel result p
    else Parser.term_loop libm_pow fuel result p
  else Ok (result, p).
Proof. reflexivity. Qed.

Lemma expression_S fuel p :
  Parser.expression libm_pow (S fuel) p =
  ('(result, p) <- Parser.term libm_pow fuel p ;;
   Parser.expression_loop libm_pow fuel result p).
Proof. reflexivity. Qed.

Lemma expression_loop_S fuel result p :
  Parser.expression_loop libm_pow (S fuel) result p =
  if is_in (Token.type (Parser.current_token p)) [PLUS; MINUS] then
    if eqb (Token.type (Parser.current_token p)) PLUS then
      p <- Parser.eat PLUS p ;;
      '(v, p) <- Parser.term libm_pow fuel p ;;
      Parser.expression_loop libm_pow fuel (Float.add result v) p
    else if eqb (Token.type (Parser.current_token p)) MINUS then
      p <- Parser.eat MINUS p ;;
      '(v, p) <- Parser.term libm_pow fuel p ;;
      Parser.expression_loop libm_pow fuel (Float.sub result v) p
    else Parser.expression_loop libm_pow fuel result p
  else Ok (result, p).
Proof. reflexivity. Qed.

Lemma comparison_loop_S fuel result p :
  Parser.comparison_loop libm_pow (S fuel) result p =
  if is_in (Token.type (Parser.current_token p))
           [EQUAL; NOT_EQUAL; LESS; GREATER; LESS_EQUAL; GREATER_EQUAL] then
    if eqb (Token.type (Parser.current_token p)) EQUAL then
      p <- Parser.eat EQUAL p ;;
      '(v, p) <- Parser.expression libm_pow fuel p ;;
      Parser.comparison_loop libm_pow fuel (VBool (py_eq result v)) p
    else if eqb (Token.type (Parser.current_token p)) NOT_EQUAL then
      p <- Parser.eat NOT_EQUAL p ;;
      '(v, p) <- Parser.expression libm_pow fuel p ;;
      Parser.comparison_loop libm_pow fuel (VBool (py_ne result v)) p
    else if eqb (Token.type (Parser.current_token p)) LESS then
      p <- Parser.eat LESS p ;;
      '(v, p) <- Parser.expression libm_pow fuel p ;;
      Parser.comparison_loop libm_pow fuel (VBool (py_lt result v)) p
    else if eqb (Token.type (Parser.current_token p)) GREATER then
      p <- Parser.eat GREATER p ;;
      '(v, p) <- Parser.expression libm_pow fuel p ;;
      Parser.comparison_loop libm_pow fuel (VBool (py_gt result v)) p
    else if eqb (Token.type (Parser.current_token p)) LESS_EQUAL then
      p <- Parser.eat LESS_EQUAL p ;;
      '(v, p) <- Parser.expression libm_pow fuel p ;;
      Parser.comparison_loop libm_pow fuel (VBool (py_le result v)) p
    else if eqb (Token.type (Parser.current_token p)) GREATER_EQUAL then
      p <- Parser.eat GREATER_EQUAL p ;;
      '(v, p) <- Parser.expression libm_pow fuel p ;;
      Parser.comparison_loop libm_pow fuel (VBool (py_ge result v)) p
    else Parser.comparison_loop libm_pow fuel result p
  else Ok (result, p).
Proof. reflexivity. Qed.

Lemma logical_expr_loop_S fuel result p :
  Parser.logical_expr_loop libm_pow (S fuel) result p =
  if is_in (Token.type (Parser.current_token p)) [AND; OR] then
    if eqb (Token.type (Parser.current_token p)) AND then
      p <- Parser.eat AND p ;;
      if truthy result
      then '(v, p) <- Parser.comparison libm_pow fuel p ;;
           Parser.logical_expr_loop libm_pow fuel v p
      else Parser.logical_expr_loop libm_pow fuel result p
    else if eqb (Token.type (Parser.current_token p)) OR then
      p <- Parser.eat OR p ;;
      if truthy result
      then Parser.logical_expr_loop libm_pow fuel result p
      else '(v, p) <- Parser.comparison libm_pow fuel p ;;
           Parser.logical_expr_loop libm_pow fuel v p
    else Parser.logical_expr_loop libm_pow fuel result p
  else Ok (result, p).
Proof. reflexivity. Qed.

Lemma eat_Ok_type ty p p' :
  Parser.eat ty p = Ok p' -> Token.type (Parser.current_token p) = ty.
Proof.
  unfold Parser.eat, eqb.
  destruct (eq_dec (Token.type (Parser.current_token p)) ty); [auto | discriminate].
Qed.

Lemma TokenType_eqb_refl ty : eqb ty ty = true.
Proof. unfold eqb. destruct (eq_dec ty ty); congruence. Qed.

End Unfold.

(** ** The lexer: what a token consumes *)

Lemma skip_whitespace_from_length s : forall l k,
  (String.length (Lexer.text (Lexer.skip_whitespace_from s l k)) <= String.length s)%nat.
Proof.
  induction s as [|a s IH]; intros; cbn [Lexer.skip_whitespace_from].
  - cbn. lia.
  - destruct (isspace a); [| cbn; lia].
    destruct (Lexer.advance_position a l k) as [l' k'].
    specialize (IH l' k'). cbn [String.length]. lia.
Qed.

Lemma skip_comment_from_length s : forall l k,
  (String.length (Lexer.text (Lexer.skip_comment_from s l k)) <= String.length s)%nat.
Proof.
  induction s as [|a s IH]; intros; cbn [Lexer.skip_comment_from].
  - cbn. lia.
  - destruct (negb (Ascii.eqb a newline)); [| cbn; lia].
    destruct (Lexer.advance_position a l k) as [l' k'].
    specialize (IH l' k'). cbn [String.length]. lia.
Qed.

Lemma advance_length lx :
  String.length (Lexer.text (Lexer.advance lx)) = pred (String.length (Lexer.text lx)).
Proof.
  unfold Lexer.advance. destruct (Lexer.text lx) as [|a s]; [reflexivity |].
  destruct (Lexer.advance_position a _ _). reflexivity.
Qed.

Lemma number_from_length s : forall l k result n r lx,
  Lexer.number_from s l k result n = Ok (r, lx) ->
  (String.length (Lexer.text lx) <= String.length s)%nat.
Proof.
  induction s as [|a s IH]; intros l k result n r lx H; cbn [Lexer.number_from] in H.
  - injection H as _ <-. cbn. lia.
  - destruct (Float.isdigit a || Ascii.eqb a ".")%bool.
    + destruct (Ascii.eqb a "." && _)%bool; [discriminate |].
      destruct (Lexer.advance_position a l k) as [l' k'].
      apply IH in H. cbn [String.length]. lia.
    + injection H as _ <-. cbn. lia.
Qed.

Lemma id_from_length s : forall l k result,
  (String.length (Lexer.text (snd (Lexer.id_from s l k result))) <= String.length s)%nat.
Proof.
  induction s as [|a s IH]; intros; cbn [Lexer.id_from].
  - cbn. lia.
  - destruct (isalnum a || Ascii.eqb a "_")%bool; [| cbn; lia].
    destruct (Lexer.advance_position a l k) as [l' k'].
    specialize (IH l' k' (result ++ String a "")%string). cbn [String.length]. lia.
Qed.

Lemma number_from_fuel s : forall l k result n,
  Lexer.number_from s l k result n <> OutOfFuel.
Proof.
  induction s as [|a s IH]; intros; cbn [Lexer.number_from]; [discriminate |].
  destruct (Float.isdigit a || Ascii.eqb a ".")%bool; [| discriminate].
  destruct (Ascii.eqb a "." && _)%bool; [discriminate |].
  destruct (Lexer.advance_position a l k). apply IH.
Qed.

Lemma of_string_fuel s : Float.of_string s <> OutOfFuel.
Proof. unfold Float.of_string. destruct (Float.scan_decimal _ _ _ _) as [[]|]; discriminate. Qed.

Lemma number_consumes lx a s :
  Lexer.text lx = String a s ->
  (Float.isdigit a || Ascii.eqb a ".")%bool = true ->
  consumes lx (Lexer.number lx).
Proof.
  intros Ht Ha. unfold Lexer.number. rewrite Ht. cbn [Lexer.number_from]. rewrite Ha.
  destruct (Ascii.eqb a "." && _)%bool; [exact I |].
  destruct (Lexer.advance_position a _ _) as [l' k'].
  destruct (Lexer.number_from s l' k' _ _) as [[r lx']| |] eqn:E; cbn [bind]; try exact I.
  - destruct (Float.of_string _) eqn:E'; cbn [bind consumes]; try exact I.
    + apply number_from_length in E. rewrite Ht. cbn [String.length]. split; intros; lia.
    + now apply of_string_fuel in E'.
  - now apply number_from_fuel in E.
Qed.

Lemma id_consumes lx a s :
  Lexer.text lx = String a s ->
  isalpha a = true ->
  consumes lx (Lexer._id lx).
Proof.
  intros Ht Ha. unfold Lexer._id. rewrite Ht. cbn [Lexer.id_from].
  replace (isalnum a || Ascii.eqb a "_")%bool with true
    by (unfold isalnum; now rewrite Ha).
  destruct (Lexer.advance_position a _ _) as [l' k'].
  pose proof (id_from_length s l' k' (EmptyString ++ String a "")%string) as Hlen.
  destruct (Lexer.id_from s l' k' _) as [r lx']. cbn [snd] in Hlen.
  destruct (Lexer.get _ _); cbn [consumes Lexer.error]; [| exact I].
  rewrite Ht. cbn [String.length]. split; intros; lia.
Qed.

Lemma advance_consumes lx a s tok :
  Lexer.text lx = String a s ->
  consumes lx (Ok (tok, Lexer.advance lx)).
Proof.
  intros Ht. cbn [consumes]. rewrite advance_length, Ht. cbn. split; intros; lia.
Qed.

Lemma advance2_consumes lx a s tok :
  Lexer.text lx = String a s ->
  consumes lx (Ok (tok, Lexer.advance (Lexer.advance lx))).
Proof.
  intros Ht. cbn [consumes]. rewrite !advance_length, Ht. cbn. split; intros; lia.
Qed.

Lemma current_char_Some lx a :
  Lexer.current_char lx = Some a -> exists s, Lexer.text lx = String a s.
Proof.
  unfold Lexer.current_char. destruct (Lexer.text lx) as [|b s]; [discriminate |].
  intros [= ->]. now exists s.
Qed.

Lemma consumes_mono lx1 lx r :
  consumes lx1 r ->
  (String.length (Lexer.text lx1) <= String.length (Lexer.text lx))%nat ->
  consumes lx r.
Proof.
  destruct r as [[tok lx']| |]; cbn [consumes]; auto.
  intros [H1 H2] Hle. split; [lia |]. intros Hne. specialize (H2 Hne). lia.
Qed.

Lemma skip_whitespace_length lx a s :
  Lexer.text lx = String a s -> isspace a = true ->
  (String.length (Lexer.text (Lexer.skip_whitespace lx)) <= String.length s)%nat.
Proof.
  intros Ht Ha. unfold Lexer.skip_whitespace. rewrite Ht.
  cbn [Lexer.skip_whitespace_from]. rewrite Ha.
  destruct (Lexer.advance_position a _ _). apply skip_whitespace_from_length.
Qed.

Lemma skip_comment_length lx a s :
  Lexer.text lx = String a s -> Ascii.eqb a "#" = true ->
  (String.length (Lexer.text (Lexer.skip_comment lx)) <= String.length s)%nat.
Proof.
  intros Ht Ha. apply Ascii.eqb_eq in Ha. subst a.
  unfold Lexer.skip_comment. rewrite Ht, advance_length.
  cbn [Lexer.skip_comment_from]. change (negb (Ascii.eqb "#" newline)) with true.
  cbv iota. destruct (Lexer.advance_position "#" _ _) as [l' k'].
  pose proof (skip_comment_from_length s l' k'). lia.
Qed.

Lemma get_next_token_loop_consumes n : forall lx,
  (String.length (Lexer.text lx) < n)%nat ->
  consumes lx (Lexer.get_next_token_loop n lx).
Proof.
  induction n as [|n IH]; intros lx Hn; [lia |].
  cbn [Lexer.get_next_token_loop].
  destruct (Lexer.current_char lx) as [a|] eqn:Hc.
  2: { cbn [consumes Token.type]. split; [lia | intros H; now elim H]. }
  - destruct (current_char_Some _ _ Hc) as [s Ht].
    rewrite Ht in Hn. cbn [String.length] in Hn.
    destruct (isspace a) eqn:Hsp.
    { pose proof (skip_whitespace_length lx a s Ht Hsp) as Hl.
      apply consumes_mono with (Lexer.skip_whitespace lx);
        [apply IH | rewrite Ht; cbn [String.length]]; lia. }
    destruct (Ascii.eqb a "#") eqn:Hhash.
    { pose proof (skip_comment_length lx a s Ht Hhash) as Hl.
      apply consumes_mono with (Lexer.skip_comment lx);
        [apply IH | rewrite Ht; cbn [String.length]]; lia. }
    destruct (Float.isdigit a || Ascii.eqb a ".")%bool eqn:Hnum.
    { now apply number_consumes with a s. }
    destruct (isalpha a) eqn:Halpha.
    { now apply id_consumes with a s. }
    repeat match goal with
    | |- consumes _ (if Ascii.eqb a ?k then _ else _) =>
        destruct (Ascii.eqb a k) eqn:?
    | |- consumes _ (Ok (_, Lexer.advance lx)) => now apply advance_consumes with a s
    | |- consumes _ (match Lexer.current_char ?l with _ => _ end) =>
        destruct (Lexer.current_char l) as [[[] [] [] [] [] [] [] []]|]
    | |- consumes _ (Ok (_, Lexer.advance (Lexer.advance lx))) =>
        now apply advance2_consumes with a s
    | |- consumes _ (Lexer.error _) => exact I
    end.
Qed.

Lemma get_next_token_consumes lx : consumes lx (Lexer.get_next_token lx).
Proof. apply get_next_token_loop_consumes. lia. Qed.

(** ** Productions at a token that starts no operand *)

Lemma bind_fails {A B} (c : outcome A) (k : A -> outcome B) :
  fails c -> fails (bind c k).
Proof. destruct c; cbn; [intros [] | auto | auto]. Qed.

Lemma fails_not_Ok {A} (r : outcome A) x : fails r -> r = Ok x -> False.
Proof. intros H ->. exact H. Qed.

Section NoOperand.

Variable libm_pow : Float.float -> Float.float -> Float.float.

Lemma atom_no_operand n p :
  starts_operand (Token.type (Parser.current_token p)) = false ->
  fails (Parser.atom libm_pow n p).
Proof.
  intros H. destruct n; [exact I |]. rewrite atom_S.
  destruct (Token.type (Parser.current_token p)); try discriminate H; exact I.
Qed.

Lemma exponentiation_no_operand n p :
  starts_operand (Token.type (Parser.current_token p)) = false ->
  fails (Parser.exponentiation libm_pow n p).
Proof.
  intros H. destruct n; [exact I |]. rewrite exponentiation_S.
  now apply bind_fails, atom_no_operand.
Qed.

Lemma factor_no_operand n p :
  starts_operand (Token.type (Parser.current_token p)) = false ->
  fails (Parser.factor libm_pow n p).
Proof.
  intros H. destruct n; [exact I |]. rewrite factor_S.
  pose proof (exponentiation_no_operand n p H).
  destruct (Token.type (Parser.current_token p)); try discriminate H; assumption.
Qed.

Lemma term_no_operand n p :
  starts_operand (Token.type (Parser.current_token p)) = false ->
  fails (Parser.term libm_pow n p).
Proof.
  intros H. destruct n; [exact I |]. rewrite term_S.
  now apply bind_fails, factor_no_operand.
Qed.

Lemma expression_no_operand n p :
  starts_operand (Token.type (Parser.current_token p)) = false ->
  fails (Parser.expression libm_pow n p).
Proof.
  intros H. destruct n; [exact I |]. rewrite expression_S.
  now apply bind_fails, term_no_operand.
Qed.

End NoOperand.

(** ** Productions carry a relation between parser states *)

Lemma continues_false ty :
  continues ty = false ->
  eqb ty EXPONENTIATION = false /\
  is_in ty [MULTIPLY; DIVIDE; MODULUS] = false /\
  is_in ty [PLUS; MINUS] = false /\
  is_in ty [EQUAL; NOT_EQUAL; LESS; GREATER; LESS_EQUAL; GREATER_EQUAL] = false /\
  is_in ty [AND; OR] = false.
Proof. destruct ty; intros H; try discriminate H; repeat split. Qed.

Lemma EOF_starts_no_operand ty : ty = EOF -> starts_operand ty = false.
Proof. now intros ->. Qed.

Section Simulation.

Variable libm_pow : Float.float -> Float.float -> Float.float.
Variable R : Parser.t -> Parser.t -> Prop.

Hypothesis R_token : forall p q, R p q ->
  Parser.current_token q = Parser.current_token p \/
  Token.type (Parser.current_token p) = EOF /\
  continues (Token.type (Parser.current_token q)) = false.

Hypothesis R_eat : forall ty p q p', ty <> EOF -> R p q ->
  Parser.eat ty p = Ok p' -> exists q', Parser.eat ty q = Ok q' /\ R p' q'.

Ltac sim_eat :=
  match goal with
  | H : bind (Parser.eat ?ty ?p) _ = Ok _, HR : R ?p ?q |- _ =>
      let p1 := fresh "p" in
      let E := fresh "E" in
      destruct (Parser.eat ty p) as [p1| |] eqn:E; cbn [bind] in H; try discriminate H;
      let q1 := fresh "q" in
      let Eq := fresh "Eq" in
      let HR1 := fresh "HR" in
      destruct (R_eat ty p q p1 ltac:(discriminate) HR E) as (q1 & Eq & HR1);
      rewrite Eq; cbn [bind]; clear HR
  end.

Ltac sim_call IH m :=
  match goal with
  | H : bind ?c _ = Ok _, HR : R ?p ?q |- _ =>
      let v1 := fresh "v" in
      let p1 := fresh "p" in
      let E := fresh "E" in
      destruct c as [[v1 p1]| |] eqn:E; cbn [bind] in H; try discriminate H;
      let q1 := fresh "q" in
      let Eq := fresh "Eq" in
      let HR1 := fresh "HR" in
      destruct (IH m _ _ _ _ ltac:(lia) HR E) as (q1 & Eq & HR1);
      rewrite Eq; cbn [bind]; clear HR
  end.

Ltac sim_done :=
  match goal with
  | H : Ok _ = Ok _ |- _ => injection H as <- <-; eexists; split; [reflexivity | assumption]
  end.

Ltac sim_tail IH m :=
  match goal with
  | H : ?c = Ok _, HR : R ?p ?q |- _ => exact (IH m _ _ _ _ ltac:(lia) HR H)
  end.

Ltac sim_test X :=
  match goal with
  | |- context [eqb (Token.type (Parser.current_token ?p)) X] =>
      destruct (eqb (Token.type (Parser.current_token p)) X) eqn:?
  end.

Lemma productions_simulated n :
  simulated R (Parser.atom libm_pow) n /\
  simulated R (Parser.factor libm_pow) n /\
  simulated R (Parser.exponentiation libm_pow) n /\
  (forall r, simulated R (fun k => Parser.exponentiation_loop libm_pow k r) n) /\
  simulated R (Parser.term libm_pow) n /\
  (forall r, simulated R (fun k => Parser.term_loop libm_pow k r) n) /\
  simulated R (Parser.expression libm_pow) n /\
  (forall r, simulated R (fun k => Parser.expression_loop libm_pow k r) n).
Proof.
  induction n as [|n (IHatom & IHfactor & IHexp & IHexpl & IHterm & IHterml & IHexpr & IHexprl)].
  { repeat split; intros; intros m p q v p' _ _ H; discriminate H. }
  repeat split; [| | | intros r | | intros r | | intros r];
    intros [|m] p q v p' Hle HR H; try lia.
  - (* atom *)
    rewrite atom_S in H |- *.
    destruct (R_token p q HR) as [Htok | [Heof Hcont]].
    2: { rewrite Heof in H. discriminate H. }
    rewrite Htok.
    sim_test NUMBER.
    { sim_eat. destruct (Parser.number_value _); cbn [bind] in H |- *; try discriminate H.
      sim_done. }
    sim_test LPAREN; [| discriminate H].
    sim_eat. sim_call IHexpr m. sim_eat. sim_done.
  - (* factor *)
    rewrite factor_S in H |- *.
    destruct (R_token p q HR) as [Htok | [Heof Hcont]].
    2: { rewrite Heof in H. cbn in H.
         now apply fails_not_Ok in H;
           [| apply exponentiation_no_operand, EOF_starts_no_operand]. }
    rewrite Htok.
    sim_test PLUS. { sim_eat. sim_tail IHfactor m. }
    sim_test MINUS. { sim_eat. sim_call IHfactor m. sim_done. }
    sim_tail IHexp m.
  - (* exponentiation *)
    rewrite exponentiation_S in H |- *.
    sim_call IHatom m. sim_tail (IHexpl v0) m.
  - (* exponentiation_loop *)
    cbv beta in H |- *. rewrite exponentiation_loop_S in H |- *.
    destruct (R_token p q HR) as [Htok | [Heof Hcont]].
    2: { rewrite Heof in H. cbn in H. apply continues_false in Hcont.
         destruct Hcont as (-> & _). sim_done. }
    rewrite Htok.
    sim_test EXPONENTIATION; [| sim_done].
    sim_eat. sim_call IHfactor m.
    destruct (Float.math_pow _ _ _); cbn [bind] in H |- *; try discriminate H.
    sim_tail (IHexpl a) m.
  - (* term *)
    rewrite term_S in H |- *.
    sim_call IHfactor m. sim_tail (IHterml v0) m.
  - (* term_loop *)
    cbv beta in H |- *. rewrite term_loop_S in H |- *.
    destruct (R_token p q HR) as [Htok | [Heof Hcont]].
    2: { rewrite Heof in H. cbn in H. apply continues_false in Hcont.
         destruct Hcont as (_ & -> & _). sim_done. }
    rewrite Htok.
    destruct (is_in _ [MULTIPLY; DIVIDE; MODULUS]); [| sim_done].
    sim_test MULTIPLY. { sim_eat. sim_call IHfactor m. sim_tail (IHterml (Float.mul r v0)) m. }
    sim_test DIVIDE.
    { sim_eat. sim_call IHfactor m.
      destruct (Float.eqb v0 Float.zero); [discriminate H |].
      sim_tail (IHterml (Float.div r v0)) m. }
    sim_test MODULUS; [| sim_tail (IHterml r) m].
    sim_eat. sim_call IHfactor m.
    destruct (Float.rem _ _); cbn [bind] in H |- *; try discriminate H.
    sim_tail (IHterml a) m.
  - (* expression *)
    rewrite expression_S in H |- *.
    sim_call IHterm m. sim_tail (IHexprl v0) m.
  - (* expression_loop *)
    cbv beta in H |- *. rewrite expression_loop_S in H |- *.
    destruct (R_token p q HR) as [Htok | [Heof Hcont]].
    2: { rewrite Heof in H. cbn in H. apply continues_false in Hcont.
         destruct Hcont as (_ & _ & -> & _). sim_done. }
    rewrite Htok.
    destruct (is_in _ [PLUS; MINUS]); [| sim_done].
    sim_test PLUS. { sim_eat. sim_call IHterm m. sim_tail (IHexprl (Float.add r v0)) m. }
    sim_test MINUS; [| sim_tail (IHexprl r) m].
    sim_eat. sim_call IHterm m. sim_tail (IHexprl (Float.sub r v0)) m.
Qed.

Lemma expression_simulated n : simulated R (Parser.expression libm_pow) n.
Proof. apply productions_simulated. Qed.

Lemma comparison_loop_simulated n :
  forall r, simulated R (fun k => Parser.comparison_loop libm_pow k r) n.
Proof.
  induction n as [|n IH]; intros r m p q v p' Hle HR H; [discriminate H |].
  destruct m as [|m]; [lia |].
  pose proof (expression_simulated n) as IHexpr.
  cbv beta in H |- *. rewrite comparison_loop_S in H |- *.
  destruct (R_token p q HR) as [Htok | [Heof Hcont]].
  2: { rewrite Heof in H. cbn in H. apply continues_false in Hcont.
       destruct Hcont as (_ & _ & _ & -> & _). sim_done. }
  rewrite Htok.
  destruct (is_in _ _); [| sim_done].
  sim_test EQUAL. { sim_eat. sim_call IHexpr m. sim_tail (IH (VBool (py_eq r v0))) m. }
  sim_test NOT_EQUAL. { sim_eat. sim_call IHexpr m. sim_tail (IH (VBool (py_ne r v0))) m. }
  sim_test LESS. { sim_eat. sim_call IHexpr m. sim_tail (IH (VBool (py_lt r v0))) m. }
  sim_test GREATER. { sim_eat. sim_call IHexpr m. sim_tail (IH (VBool (py_gt r v0))) m. }
  sim_test LESS_EQUAL. { sim_eat. sim_call IHexpr m. sim_tail (IH (VBool (py_le r v0))) m. }
  sim_test GREATER_EQUAL; [| sim_tail (IH r) m].
  sim_eat. sim_call IHexpr m. sim_tail (IH (VBool (py_ge r v0))) m.
Qed.

Lemma comparison_simulated n : simulated R (Parser.comparison libm_pow) n.
Proof.
  intros m p q v p' Hle HR H. unfold Parser.comparison in H |- *.
  pose proof (expression_simulated n) as IHexpr.
  sim_call IHexpr m. sim_tail (comparison_loop_simulated n (VFloat v0)) m.
Qed.

Lemma logical_expr_loop_simulated n :
  forall r, simulated R (fun k => Parser.logical_expr_loop libm_pow k r) n.
Proof.
  induction n as [|n IH]; intros r m p q v p' Hle HR H; [discriminate H |].
  destruct m as [|m]; [lia |].
  pose proof (comparison_simulated n) as IHcmp.
  cbv beta in H |- *. rewrite logical_expr_loop_S in H |- *.
  destruct (R_token p q HR) as [Htok | [Heof Hcont]].
  2: { rewrite Heof in H. cbn in H. apply continues_false in Hcont.
       destruct Hcont as (_ & _ & _ & _ & ->). sim_done. }
  rewrite Htok.
  destruct (is_in _ _); [| sim_done].
  sim_test AND.
  { sim_eat. destruct (truthy r); [| sim_tail (IH r) m].
    sim_call IHcmp m. sim_tail (IH v0) m. }
  sim_test OR; [| sim_tail (IH r) m].
  sim_eat. destruct (truthy r); [sim_tail (IH r) m |].
  sim_call IHcmp m. sim_tail (IH v0) m.
Qed.

Lemma logical_expr_simulated n : simulated R (Parser.logical_expr libm_pow) n.
Proof.
  intros m p q v p' Hle HR H. unfold Parser.logical_expr in H |- *.
  pose proof (comparison_simulated n) as IHcmp.
  sim_call IHcmp m. sim_tail (logical_expr_loop_simulated n v0) m.
Qed.

Lemma if_expr_simulated n : simulated R (Parser.if_expr libm_pow) n.
Proof.
  intros m p q v p' Hle HR H. unfold Parser.if_expr in H |- *.
  pose proof (expression_simulated n) as IHexpr.
  pose proof (logical_expr_simulated n) as IHlog.
  sim_eat. sim_call IHlog m. sim_eat. sim_call IHexpr m. sim_eat. sim_call IHexpr m.
  sim_done.
Qed.

Lemma parse_simulated n : simulated R (Parser.parse libm_pow) n.
Proof.
  intros m p q v p' Hle HR H. unfold Parser.parse in H |- *.
  destruct (R_token p q HR) as [Htok | [Heof Hcont]].
  2: { rewrite Heof in H. cbn in H. unfold Parser.logical_expr, Parser.comparison in H.
       apply fails_not_Ok in H; [destruct H |].
       now apply bind_fails, bind_fails, expression_no_operand, EOF_starts_no_operand. }
  rewrite Htok.
  sim_test IF; [| sim_tail (logical_expr_simulated n) m].
  pose proof (if_expr_simulated n) as IHif. sim_call IHif m. sim_done.
Qed.

End Simulation.

(** ** The lexer over a text and over the text with more behind it *)

Lemma get_next_token_loop_fuel n : forall m lx,
  (String.length (Lexer.text lx) < n)%nat ->
  (String.length (Lexer.text lx) < m)%nat ->
  Lexer.get_next_token_loop n lx = Lexer.get_next_token_loop m lx.
Proof.
  induction n as [|n IH]; intros [|m] lx Hn Hm; try lia.
  cbn [Lexer.get_next_token_loop].
  destruct (Lexer.current_char lx) as [a|] eqn:Hc; [| reflexivity].
  destruct (current_char_Some _ _ Hc) as [s Ht].
  rewrite Ht in Hn, Hm. cbn [String.length] in Hn, Hm.
  destruct (isspace a) eqn:Hsp.
  { pose proof (skip_whitespace_length lx a s Ht Hsp). apply IH; lia. }
  destruct (Ascii.eqb a "#") eqn:Hhash; [| reflexivity].
  pose proof (skip_comment_length lx a s Ht Hhash). apply IH; lia.
Qed.

Lemma get_next_token_loop_enough n lx :
  (String.length (Lexer.text lx) < n)%nat ->
  Lexer.get_next_token_loop n lx = Lexer.get_next_token lx.
Proof. intros. apply get_next_token_loop_fuel; lia. Qed.

Lemma get_next_token_loop_space n lx a :
  Lexer.current_char lx = Some a -> isspace a = true ->
  Lexer.get_next_token_loop (S n) lx =
  Lexer.get_next_token_loop n (Lexer.skip_whitespace lx).
Proof. intros Hc Hsp. cbn [Lexer.get_next_token_loop]. now rewrite Hc, Hsp. Qed.

Lemma skip_whitespace_loop n lx :
  (String.length (Lexer.text lx) < n)%nat ->
  Lexer.get_next_token_loop n (Lexer.skip_whitespace lx) = Lexer.get_next_token_loop n lx.
Proof.
  intros Hn. destruct n as [|n]; [lia |].
  destruct (Lexer.current_char lx) as [a|] eqn:Hc.
  - destruct (current_char_Some _ _ Hc) as [s Ht].
    destruct (isspace a) eqn:Hsp.
    + rewrite (get_next_token_loop_space n lx a Hc Hsp).
      pose proof (skip_whitespace_length lx a s Ht Hsp).
      rewrite Ht in Hn. cbn [String.length] in Hn.
      apply get_next_token_loop_fuel; lia.
    + unfold Lexer.skip_whitespace. rewrite Ht. cbn [Lexer.skip_whitespace_from].
      rewrite Hsp, <- Ht. now destruct lx.
  - unfold Lexer.current_char in Hc. unfold Lexer.skip_whitespace.
    destruct (Lexer.text lx) eqn:Ht; [| discriminate].
    cbn [Lexer.skip_whitespace_from]. rewrite <- Ht. now destruct lx.
Qed.

Section LexerFrame.

Variable rest : string.

Lemma skip_whitespace_from_extend s : forall l k,
  Lexer.skip_whitespace_from (s ++ String newline rest) l k =
  Lexer.skip_whitespace (extend rest (Lexer.skip_whitespace_from s l k)).
Proof.
  induction s as [|a s IH]; intros l k.
  - reflexivity.
  - cbn [append Lexer.skip_whitespace_from]. destruct (isspace a) eqn:Hsp.
    + destruct (Lexer.advance_position a l k). apply IH.
    + unfold Lexer.skip_whitespace, extend.
      cbn [Lexer.text Lexer.line Lexer.column append Lexer.skip_whitespace_from].
      now rewrite Hsp.
Qed.

Lemma skip_comment_from_extend s : forall l k,
  Lexer.skip_comment_from (s ++ String newline rest) l k =
  extend rest (Lexer.skip_comment_from s l k).
Proof.
  induction s as [|a s IH]; intros l k.
  - reflexivity.
  - cbn [append Lexer.skip_comment_from]. destruct (negb (Ascii.eqb a newline)).
    + destruct (Lexer.advance_position a l k). apply IH.
    + reflexivity.
Qed.

Lemma number_from_extend s : forall l k result n r lx,
  Lexer.number_from s l k result n = Ok (r, lx) ->
  Lexer.number_from (s ++ String newline rest) l k result n = Ok (r, extend rest lx).
Proof.
  induction s as [|a s IH]; intros l k result n r lx H.
  - cbn in H. injection H as <- <-. reflexivity.
  - cbn [append Lexer.number_from] in H |- *.
    destruct (Float.isdigit a || Ascii.eqb a ".")%bool.
    + destruct (Ascii.eqb a "." && _)%bool; [discriminate H |].
      destruct (Lexer.advance_position a l k). now apply IH.
    + injection H as <- <-. reflexivity.
Qed.

Lemma id_from_extend s : forall l k result,
  Lexer.id_from (s ++ String newline rest) l k result =
  (fst (Lexer.id_from s l k result), extend rest (snd (Lexer.id_from s l k result))).
Proof.
  induction s as [|a s IH]; intros l k result.
  - reflexivity.
  - cbn [append Lexer.id_from].
    destruct (isalnum a || Ascii.eqb a "_")%bool.
    + destruct (Lexer.advance_position a l k). apply IH.
    + reflexivity.
Qed.

Lemma advance_extend lx a s :
  Lexer.text lx = String a s ->
  Lexer.advance (extend rest lx) = extend rest (Lexer.advance lx).
Proof.
  intros Ht. unfold Lexer.advance, extend. cbn [Lexer.text Lexer.line Lexer.column].
  rewrite Ht. cbn [append]. now destruct (Lexer.advance_position a _ _).
Qed.

Lemma extend_length lx :
  String.length (Lexer.text (extend rest lx)) =
  (String.length (Lexer.text lx) + S (String.length rest))%nat.
Proof.
  unfold extend. cbn [Lexer.text]. induction (Lexer.text lx); cbn; [reflexivity | lia].
Qed.

Lemma frames_error e long : frames rest (Raise e) long.
Proof. intros tok lx' H. discriminate H. Qed.

Lemma frames_single lx a s ty v d :
  Lexer.text lx = String a s -> ty <> EOF ->
  frames rest
    (Ok (Token.mk ty v (Lexer.line (Lexer.advance lx))
                  (Lexer.column (Lexer.advance lx) - d), Lexer.advance lx))
    (Ok (Token.mk ty v (Lexer.line (Lexer.advance (extend rest lx)))
                  (Lexer.column (Lexer.advance (extend rest lx)) - d),
         Lexer.advance (extend rest lx))).
Proof.
  intros Ht Hty tok lx' [= <- <-]. split; [intros H; now elim Hty |].
  intros _. now rewrite (advance_extend lx a s Ht).
Qed.

Lemma current_char_extend lx a s :
  Lexer.text lx = String a s ->
  Lexer.current_char (extend rest lx) = Some a.
Proof. intros Ht. unfold Lexer.current_char, extend. cbn [Lexer.text]. now rewrite Ht. Qed.

Lemma current_char_extend_end lx :
  Lexer.text lx = EmptyString ->
  Lexer.current_char (extend rest lx) = Some newline.
Proof. intros Ht. unfold Lexer.current_char, extend. cbn [Lexer.text]. now rewrite Ht. Qed.

(** The second character of a two-character operator. *)
Lemma frames_double lx a s ty2 v2 (r1 : Lexer.t -> outcome (Token.t * Lexer.t)) :
  Lexer.text lx = String a s -> ty2 <> EOF ->
  (forall l, frames rest (r1 l) (r1 (extend rest l))) ->
  frames rest
    (match Lexer.current_char (Lexer.advance lx) with
     | Some "="%char =>
         Ok (Token.mk ty2 v2 (Lexer.line (Lexer.advance (Lexer.advance lx)))
                      (Lexer.column (Lexer.advance (Lexer.advance lx)) - 2),
             Lexer.advance (Lexer.advance lx))
     | _ => r1 (Lexer.advance lx)
     end)
    (match Lexer.current_char (Lexer.advance (extend rest lx)) with
     | Some "="%char =>
         Ok (Token.mk ty2 v2
               (Lexer.line (Lexer.advance (Lexer.advance (extend rest lx))))
               (Lexer.column (Lexer.advance (Lexer.advance (extend rest lx))) - 2),
             Lexer.advance (Lexer.advance (extend rest lx)))
     | _ => r1 (Lexer.advance (extend rest lx))
     end).
Proof.
  intros Ht Hty Hr1. rewrite (advance_extend lx a s Ht).
  destruct (Lexer.current_char (Lexer.advance lx)) as [b|] eqn:Hc.
  - destruct (current_char_Some _ _ Hc) as [s' Ht'].
    rewrite (current_char_extend _ b s' Ht').
    destruct (Ascii.eqb b "=") eqn:Hb.
    + apply Ascii.eqb_eq in Hb. subst b.
      now apply frames_single with "="%char s'.
    + replace (match b with "="%char => _ | _ => r1 (Lexer.advance lx) end)
        with (r1 (Lexer.advance lx)).
      2: { destruct b as [[] [] [] [] [] [] [] []]; try reflexivity. discriminate Hb. }
      replace (match b with "="%char => _ | _ => r1 (extend rest (Lexer.advance lx)) end)
        with (r1 (extend rest (Lexer.advance lx))).
      2: { destruct b as [[] [] [] [] [] [] [] []]; try reflexivity. discriminate Hb. }
      apply Hr1.
  - unfold Lexer.current_char in Hc.
    destruct (Lexer.text (Lexer.advance lx)) eqn:Ht'; [| discriminate Hc].
    rewrite (current_char_extend_end _ Ht'). apply Hr1.
Qed.

Lemma skip_whitespace_extend lx :
  Lexer.skip_whitespace (extend rest lx) =
  Lexer.skip_whitespace (extend rest (Lexer.skip_whitespace lx)).
Proof. unfold Lexer.skip_whitespace at 1 3. apply skip_whitespace_from_extend. Qed.

Lemma skip_comment_extend lx :
  Lexer.skip_comment (extend rest lx) =
  Lexer.advance (extend rest (Lexer.skip_comment_from
                                (Lexer.text lx) (Lexer.line lx) (Lexer.column lx))).
Proof. unfold Lexer.skip_comment. f_equal. apply skip_comment_from_extend. Qed.

Lemma number_frames lx : frames rest (Lexer.number lx) (Lexer.number (extend rest lx)).
Proof.
  intros tok lx' H. unfold Lexer.number in H |- *.
  destruct (Lexer.number_from (Lexer.text lx) _ _ _ _) as [[r lx1]| |] eqn:E;
    cbn [bind] in H; try discriminate H.
  apply number_from_extend in E.
  change (Lexer.text (extend rest lx)) with (Lexer.text lx ++ String newline rest).
  change (Lexer.line (extend rest lx)) with (Lexer.line lx).
  change (Lexer.column (extend rest lx)) with (Lexer.column lx).
  rewrite E. cbn [bind].
  destruct (Float.of_string _); cbn [bind] in H |- *; try discriminate H.
  injection H as <- <-. split; [intros H; discriminate H | reflexivity].
Qed.

Lemma id_frames lx : frames rest (Lexer._id lx) (Lexer._id (extend rest lx)).
Proof.
  intros tok lx' H. unfold Lexer._id in H |- *.
  change (Lexer.text (extend rest lx)) with (Lexer.text lx ++ String newline rest).
  change (Lexer.line (extend rest lx)) with (Lexer.line lx).
  change (Lexer.column (extend rest lx)) with (Lexer.column lx).
  rewrite id_from_extend.
  destruct (Lexer.id_from (Lexer.text lx) _ _ _) as [r lx1]. cbn [fst snd].
  destruct (Lexer.get Lexer.keywords (upper r)) as [ty|] eqn:Hk;
    [| unfold Lexer.error in H; discriminate H].
  injection H as <- <-. split; [| reflexivity].
  cbn [Token.type]. intros ->. revert Hk. clear.
  unfold Lexer.keywords. cbn [Lexer.get].
  repeat (destruct (String.eqb _ _); [discriminate |]). discriminate.
Qed.

Lemma get_next_token_loop_frames n : forall lx,
  (String.length (Lexer.text lx) < n)%nat ->
  frames rest (Lexer.get_next_token_loop n lx) (Lexer.get_next_token (extend rest lx)).
Proof.
  induction n as [|n IH]; intros lx Hn; [lia |].
  unfold Lexer.get_next_token. cbn [Lexer.get_next_token_loop].
  rewrite (extend_length lx).
  destruct (Lexer.current_char lx) as [a|] eqn:Hc.
  - destruct (current_char_Some _ _ Hc) as [s Ht].
    rewrite (current_char_extend lx a s Ht).
    rewrite Ht in Hn. cbn [String.length] in Hn.
    destruct (isspace a) eqn:Hsp.
    { pose proof (skip_whitespace_length lx a s Ht Hsp) as Hl.
      pose proof (extend_length (Lexer.skip_whitespace lx)) as Hlen'.
      rewrite skip_whitespace_extend,
        (skip_whitespace_loop _ (extend rest (Lexer.skip_whitespace lx))),
        (get_next_token_loop_enough _ (extend rest (Lexer.skip_whitespace lx))).
      - apply IH. lia.
      - rewrite Hlen', Ht. cbn [String.length]. lia.
      - rewrite Hlen', Ht. cbn [String.length]. lia. }
    destruct (Ascii.eqb a "#") eqn:Hhash.
    { pose proof (skip_comment_length lx a s Ht Hhash) as Hl.
      rewrite skip_comment_extend.
      remember (Lexer.skip_comment_from (Lexer.text lx) (Lexer.line lx) (Lexer.column lx))
        as lx1 eqn:Hlx1.
      assert (Hsc : Lexer.skip_comment lx = Lexer.advance lx1)
        by (unfold Lexer.skip_comment; now rewrite Hlx1).
      rewrite Hsc in Hl |- *.
      destruct (Lexer.text lx1) as [|b s1] eqn:Ht1.
      - (* the comment runs to the end of the text *)
        intros tok lx' H. destruct n as [|n]; [lia |].
        cbn [Lexer.get_next_token_loop] in H. unfold Lexer.current_char in H.
        unfold Lexer.advance at 1 in H. rewrite Ht1 in H. cbn [Lexer.text] in H.
        injection H as <- <-. split; [intros _ | intros H; now elim H].
        unfold Lexer.advance, extend. rewrite Ht1. cbn [Lexer.text append].
        change (Lexer.advance_position newline _ _)
          with (Lexer.line lx1 + 1, 0 + 1).
        cbv iota. exists (Lexer.line lx1 + 1), (0 + 1).
        apply get_next_token_loop_enough. cbn [Lexer.text]. lia.
      - rewrite (advance_extend lx1 b s1 Ht1).
        pose proof (extend_length (Lexer.advance lx1)) as Hlen'.
        rewrite (get_next_token_loop_enough _ (extend rest (Lexer.advance lx1)))
          by (rewrite Hlen', Ht; cbn [String.length]; lia).
        apply IH. lia. }
    destruct (Float.isdigit a || Ascii.eqb a ".")%bool; [apply number_frames |].
    destruct (isalpha a); [apply id_frames |].
    repeat match goal with
    | |- frames rest (if Ascii.eqb a ?k then _ else _) _ => destruct (Ascii.eqb a k)
    | |- frames rest (Ok (_, Lexer.advance lx)) _ =>
        apply frames_single with a s; [exact Ht | discriminate]
    | |- frames rest (Lexer.error _) _ => apply frames_error
    end.
    + apply (frames_double lx a s EQUAL (PyStr "==") (fun l => Lexer.error l));
        [exact Ht | discriminate | intros; apply frames_error].
    + apply (frames_double lx a s NOT_EQUAL (PyStr "!=") (fun l => Lexer.error l));
        [exact Ht | discriminate | intros; apply frames_error].
    + apply (frames_double lx a s LESS_EQUAL (PyStr "<=")
               (fun l => Ok (Token.mk LESS (PyStr "<") (Lexer.line l) (Lexer.column l - 1), l)));
        [exact Ht | discriminate |].
      intros l tok lx' [= <- <-]. split; [intros H; discriminate H | reflexivity].
    + apply (frames_double lx a s GREATER_EQUAL (PyStr ">=")
               (fun l => Ok (Token.mk GREATER (PyStr ">") (Lexer.line l) (Lexer.column l - 1), l)));
        [exact Ht | discriminate |].
      intros l tok lx' [= <- <-]. split; [intros H; discriminate H | reflexivity].
  - (* the end of the text: the lexer goes on into [rest] *)
    unfold Lexer.current_char in Hc.
    destruct (Lexer.text lx) eqn:Ht; [| discriminate Hc].
    intros tok lx' [= <- <-]. split; [intros _ | intros H; now elim H].
    rewrite (current_char_extend_end lx Ht).
    change (isspace newline) with true. cbv iota.
    exists (Lexer.line lx + 1), (0 + 1).
    assert (Hsw : Lexer.skip_whitespace (extend rest lx) =
                  Lexer.skip_whitespace (Lexer.mk rest (Lexer.line lx + 1) (0 + 1))).
    { unfold Lexer.skip_whitespace, extend. cbn [Lexer.text Lexer.line Lexer.column].
      rewrite Ht. reflexivity. }
    rewrite Hsw, skip_whitespace_loop, get_next_token_loop_enough;
      cbn [Lexer.text]; try reflexivity; lia.
Qed.

Lemma get_next_token_frames lx :
  frames rest (Lexer.get_next_token lx) (Lexer.get_next_token (extend rest lx)).
Proof. apply get_next_token_loop_frames. lia. Qed.

End LexerFrame.

(** ** The fuel of [evaluate] is enough *)

Lemma eat_fuel ty p : Parser.eat ty p <> OutOfFuel.
Proof.
  unfold Parser.eat. destruct (eqb _ _); [| discriminate].
  pose proof (get_next_token_consumes (Parser.lexer p)) as H.
  destruct (Lexer.get_next_token (Parser.lexer p)) as [[tok lx]| |];
    cbn [bind]; try discriminate. destruct H.
Qed.

Lemma eat_remaining ty p p' :
  ty <> EOF -> Parser.eat ty p = Ok p' -> (remaining p' < remaining p)%nat.
Proof.
  intros Hty H. pose proof (eat_Ok_type _ _ _ H) as Hp.
  unfold Parser.eat in H. rewrite Hp, TokenType_eqb_refl in H.
  pose proof (get_next_token_consumes (Parser.lexer p)) as Hc.
  destruct (Lexer.get_next_token (Parser.lexer p)) as [[tok lx]| |];
    cbn [bind] in H; try discriminate H.
  injection H as <-. destruct Hc as [Hle Hlt].
  unfold remaining. cbn [Parser.lexer Parser.current_token]. rewrite Hp.
  replace (eqb ty EOF) with false by (destruct ty; try reflexivity; now elim Hty).
  unfold eqb. destruct (eq_dec (Token.type tok) EOF) as [He | Hne]; [lia |].
  specialize (Hlt Hne). lia.
Qed.

Lemma bounded_mono {A : Type} p1 p (r : outcome (A * Parser.t)) :
  bounded p1 r -> (remaining p1 <= remaining p)%nat -> bounded p r.
Proof. destruct r as [[v p']| |]; cbn [bounded]; auto. lia. Qed.

Lemma math_pow_fuel libm_pow x y : Float.math_pow libm_pow x y <> OutOfFuel.
Proof.
  unfold Float.math_pow.
  repeat match goal with |- context [if ?b then _ else _] => destruct b end;
    discriminate.
Qed.

Lemma rem_fuel x y : Float.rem x y <> OutOfFuel.
Proof.
  unfold Float.rem.
  repeat match goal with |- context [if ?b then _ else _] => destruct b end;
    discriminate.
Qed.

Section Total.

Variable libm_pow : Float.float -> Float.float -> Float.float.

Ltac tot_eat :=
  match goal with
  | |- bounded _ (bind (Parser.eat ?ty ?p) _) =>
      let p1 := fresh "p" in
      let E := fresh "E" in
      destruct (Parser.eat ty p) as [p1| |] eqn:E; cbn [bind];
      [ apply eat_remaining in E; [| discriminate]
      | exact I
      | now apply eat_fuel in E ]
  end.

Ltac tot_call IH :=
  match goal with
  | |- bounded _ (bind (?g ?p1) _) =>
      let Hb := fresh "Hb" in
      let v := fresh "v" in
      let p2 := fresh "p" in
      pose proof (IH p1 ltac:(lia)) as Hb;
      destruct (g p1) as [[v p2]| |]; cbn [bind bounded] in Hb |- *;
      [ | exact I | exact Hb ]
  end.

Ltac tot_tail IH :=
  match goal with
  | |- bounded _ (?g ?p1) =>
      apply bounded_mono with p1; [apply IH |]; lia
  end.

Ltac tot_test X :=
  match goal with
  | |- context [eqb (Token.type (Parser.current_token ?p)) X] =>
      destruct (eqb (Token.type (Parser.current_token p)) X) eqn:?
  end.

Lemma productions_total n :
  total 1 (Parser.atom libm_pow) n /\
  total 3 (Parser.factor libm_pow) n /\
  total 2 (Parser.exponentiation libm_pow) n /\
  (forall r, total 1 (fun k => Parser.exponentiation_loop libm_pow k r) n) /\
  total 4 (Parser.term libm_pow) n /\
  (forall r, total 1 (fun k => Parser.term_loop libm_pow k r) n) /\
  total 5 (Parser.expression libm_pow) n /\
  (forall r, total 1 (fun k => Parser.expression_loop libm_pow k r) n).
Proof.
  induction n as [|n (IHatom & IHfactor & IHexp & IHexpl & IHterm & IHterml & IHexpr & IHexprl)].
  { repeat split; intros; intros p Hn; lia. }
  repeat split; [| | | intros r | | intros r | | intros r]; intros p Hn.
  - rewrite atom_S. tot_test NUMBER.
    { tot_eat. unfold Parser.number_value.
      destruct (Token.value _); cbn [bind bounded]; try exact I. lia. }
    tot_test LPAREN; [| exact I].
    tot_eat. tot_call IHexpr. tot_eat. cbn [bounded]. lia.
  - rewrite factor_S. tot_test PLUS. { tot_eat. tot_tail IHfactor. }
    tot_test MINUS; [| tot_tail IHexp].
    tot_eat. tot_call IHfactor. cbn [bounded]. lia.
  - rewrite exponentiation_S. tot_call IHatom. tot_tail (IHexpl v).
  - cbv beta. rewrite exponentiation_loop_S.
    tot_test EXPONENTIATION; [| cbn [bounded]; lia].
    tot_eat. tot_call IHfactor.
    destruct (Float.math_pow _ _ _) eqn:Epow; cbn [bind]; try exact I.
    + tot_tail (IHexpl a).
    + now apply math_pow_fuel in Epow.
  - rewrite term_S. tot_call IHfactor. tot_tail (IHterml v).
  - cbv beta. rewrite term_loop_S.
    destruct (is_in _ _) eqn:Hin; [| cbn [bounded]; lia].
    tot_test MULTIPLY. { tot_eat. tot_call IHfactor. tot_tail (IHterml (Float.mul r v)). }
    tot_test DIVIDE.
    { tot_eat. tot_call IHfactor. destruct (Float.eqb v Float.zero); [exact I |].
      tot_tail (IHterml (Float.div r v)). }
    tot_test MODULUS.
    2: { destruct (Token.type (Parser.current_token p)); discriminate. }
    tot_eat. tot_call IHfactor.
    destruct (Float.rem _ _) eqn:Erem; cbn [bind]; try exact I.
    + tot_tail (IHterml a).
    + now apply rem_fuel in Erem.
  - rewrite expression_S. tot_call IHterm. tot_tail (IHexprl v).
  - cbv beta. rewrite expression_loop_S.
    destruct (is_in _ _) eqn:Hin; [| cbn [bounded]; lia].
    tot_test PLUS. { tot_eat. tot_call IHterm. tot_tail (IHexprl (Float.add r v)). }
    tot_test MINUS.
    2: { destruct (Token.type (Parser.current_token p)); discriminate. }
    tot_eat. tot_call IHterm. tot_tail (IHexprl (Float.sub r v)).
Qed.

Lemma expression_total n : total 5 (Parser.expression libm_pow) n.
Proof. apply productions_total. Qed.

Lemma comparison_loop_total n :
  forall r, total 1 (fun k => Parser.comparison_loop libm_pow k r) n.
Proof.
  induction n as [|n IH]; intros r p Hn; [lia |].
  pose proof (expression_total n) as IHexpr.
  cbv beta. rewrite comparison_loop_S.
  destruct (is_in _ _) eqn:Hin; [| cbn [bounded]; lia].
  tot_test EQUAL. { tot_eat. tot_call IHexpr. tot_tail (IH (VBool (py_eq r v))). }
  tot_test NOT_EQUAL. { tot_eat. tot_call IHexpr. tot_tail (IH (VBool (py_ne r v))). }
  tot_test LESS. { tot_eat. tot_call IHexpr. tot_tail (IH (VBool (py_lt r v))). }
  tot_test GREATER. { tot_eat. tot_call IHexpr. tot_tail (IH (VBool (py_gt r v))). }
  tot_test LESS_EQUAL. { tot_eat. tot_call IHexpr. tot_tail (IH (VBool (py_le r v))). }
  tot_test GREATER_EQUAL.
  2: { destruct (Token.type (Parser.current_token p)); discriminate. }
  tot_eat. tot_call IHexpr. tot_tail (IH (VBool (py_ge r v))).
Qed.

Lemma comparison_total n : total 5 (Parser.comparison libm_pow) n.
Proof.
  intros p Hn. unfold Parser.comparison.
  pose proof (expression_total n) as IHexpr.
  tot_call IHexpr. tot_tail (comparison_loop_total n (VFloat v)).
Qed.

Lemma logical_expr_loop_total n :
  forall r, total 1 (fun k => Parser.logical_expr_loop libm_pow k r) n.
Proof.
  induction n as [|n IH]; intros r p Hn; [lia |].
  pose proof (comparison_total n) as IHcmp.
  cbv beta. rewrite logical_expr_loop_S.
  destruct (is_in _ _) eqn:Hin; [| cbn [bounded]; lia].
  tot_test AND.
  { tot_eat. destruct (truthy r); [| tot_tail (IH r)].
    tot_call IHcmp. tot_tail (IH v). }
  tot_test OR.
  2: { destruct (Token.type (Parser.current_token p)); discriminate. }
  tot_eat. destruct (truthy r); [tot_tail (IH r) |].
  tot_call IHcmp. tot_tail (IH v).
Qed.

Lemma logical_expr_total n : total 5 (Parser.logical_expr libm_pow) n.
Proof.
  intros p Hn. unfold Parser.logical_expr.
  pose proof (comparison_total n) as IHcmp.
  tot_call IHcmp. tot_tail (logical_expr_loop_total n v).
Qed.

Lemma if_expr_total n : total 5 (Parser.if_expr libm_pow) n.
Proof.
  intros p Hn. unfold Parser.if_expr.
  pose proof (expression_total n) as IHexpr.
  pose proof (logical_expr_total n) as IHlog.
  tot_eat. tot_call IHlog. tot_eat. tot_call IHexpr. tot_eat. tot_call IHexpr.
  cbn [bounded]. lia.
Qed.

Lemma parse_total n : total 5 (Parser.parse libm_pow) n.
Proof.
  intros p Hn. unfold Parser.parse.
  tot_test IF; [| now apply logical_expr_total].
  pose proof (if_expr_total n) as IHif. tot_call IHif. cbn [bounded]. lia.
Qed.

Lemma evaluate_never_out_of_fuel text : evaluate libm_pow text <> OutOfFuel.
Proof.
  unfold evaluate, Parser.init.
  pose proof (get_next_token_consumes (Lexer.init text)) as Hc.
  destruct (Lexer.get_next_token (Lexer.init text)) as [[tok lx]| |];
    cbn [bind]; try discriminate; [| destruct Hc].
  destruct Hc as [Hle Hlt]. cbn [Lexer.init Lexer.text] in Hle, Hlt.
  assert (Hfuel : (5 + 5 * remaining (Parser.mk lx tok) <= fuel_for text)%nat).
  { unfold remaining, fuel_for. cbn [Parser.lexer Parser.current_token].
    unfold eqb. destruct (eq_dec (Token.type tok) EOF) as [He | Hne]; [lia |].
    specialize (Hlt Hne). lia. }
  pose proof (parse_total _ _ Hfuel) as Hb.
  destruct (Parser.parse libm_pow _ _) as [[v p]| |]; cbn [bind]; try discriminate.
  destruct Hb.
Qed.

(** X1.  [evaluate] ends on every input: it returns a value or raises an
    exception.  The fuel it hands to [parse] is never used up. *)
Theorem evaluate_returns_or_raises text :
  (exists v, evaluate libm_pow text = Ok v) \/
  (exists e, evaluate libm_pow text = Raise e).
Proof.
  pose proof (evaluate_never_out_of_fuel text) as H.
  destruct (evaluate libm_pow text) as [v | e |]; eauto. now elim H.
Qed.

End Total.

(** ** Input after a complete program *)

Section Trailing.

Variable libm_pow : Float.float -> Float.float -> Float.float.
Variable rest : string.
Hypothesis rest_stops : begins_with_no_operator rest.

Lemma ahead_token p q : ahead rest p q ->
  Parser.current_token q = Parser.current_token p \/
  Token.type (Parser.current_token p) = EOF /\
  continues (Token.type (Parser.current_token q)) = false.
Proof. intros [(_ & H & _) | H]; auto. Qed.

Lemma ahead_next lx tok lx' :
  Lexer.get_next_token lx = Ok (tok, lx') ->
  exists tok' lx'',
    Lexer.get_next_token (extend rest lx) = Ok (tok', lx'') /\
    ahead rest (Parser.mk lx' tok) (Parser.mk lx'' tok').
Proof.
  intros H. destruct (get_next_token_frames rest lx tok lx' H) as [Heof Hne].
  destruct (eq_dec (Token.type tok) EOF) as [He | Hn].
  - destruct (Heof He) as (l & k & ->).
    destruct (rest_stops l k) as (tok' & lx'' & -> & Hc).
    exists tok', lx''. split; [reflexivity |]. right. now split.
  - rewrite (Hne Hn). exists tok, (extend rest lx'). split; [reflexivity |].
    left. now repeat split.
Qed.

Lemma ahead_eat ty p q p' : ty <> EOF -> ahead rest p q ->
  Parser.eat ty p = Ok p' -> exists q', Parser.eat ty q = Ok q' /\ ahead rest p' q'.
Proof.
  intros Hty HR H. pose proof (eat_Ok_type _ _ _ H) as Hp.
  destruct HR as [(_ & Htok & Hlex) | (Heof & _)]; [| congruence].
  unfold Parser.eat in H |- *. rewrite Htok, Hlex, Hp, TokenType_eqb_refl in *.
  destruct (Lexer.get_next_token (Parser.lexer p)) as [[tok lx']| |] eqn:E;
    cbn [bind] in H; try discriminate H.
  injection H as <-.
  destruct (ahead_next _ _ _ E) as (tok' & lx'' & -> & HR).
  cbn [bind]. eauto.
Qed.

Lemma append_length s1 s2 :
  String.length (s1 ++ s2) = (String.length s1 + String.length s2)%nat.
Proof. induction s1; cbn; [reflexivity | lia]. Qed.

Lemma evaluate_extend program v :
  evaluate libm_pow program = Ok v ->
  evaluate libm_pow (program ++ String newline rest) = Ok v.
Proof.
  unfold evaluate, Parser.init. intros H.
  destruct (Lexer.get_next_token (Lexer.init program)) as [[tok lx]| |] eqn:E;
    cbn [bind] in H; try discriminate H.
  destruct (Parser.parse libm_pow _ _) as [[v' p']| |] eqn:Ep;
    cbn [bind] in H; try discriminate H.
  injection H as ->.
  destruct (ahead_next _ _ _ E) as (tok' & lx'' & E' & HR).
  change (Lexer.init (program ++ String newline rest))
    with (extend rest (Lexer.init program)).
  rewrite E'. cbn [bind].
  assert (Hfuel : (fuel_for program <= fuel_for (program ++ String newline rest))%nat).
  { unfold fuel_for. rewrite append_length. lia. }
  destruct (parse_simulated libm_pow (ahead rest) ahead_token ahead_eat _ _ _ _ _ _ Hfuel HR Ep)
    as (q' & -> & _).
  reflexivity.
Qed.

End Trailing.

(** The result of a production does not depend on the fuel it had left. *)
Lemma parse_fuel_monotone libm_pow n m p v p' :
  (n <= m)%nat ->
  Parser.parse libm_pow n p = Ok (v, p') ->
  Parser.parse libm_pow m p = Ok (v, p').
Proof.
  intros Hle H.
  assert (Htok : forall p q : Parser.t, p = q ->
            Parser.current_token q = Parser.current_token p \/
            Token.type (Parser.current_token p) = EOF /\
            continues (Token.type (Parser.current_token q)) = false)
    by (intros p0 q <-; now left).
  assert (Heat : forall ty (p q p1 : Parser.t), ty <> EOF -> p = q ->
            Parser.eat ty p = Ok p1 -> exists q', Parser.eat ty q = Ok q' /\ p1 = q')
    by (intros ty p0 q p1 _ <- E; eauto).
  destruct (parse_simulated libm_pow eq Htok Heat n m p p v p' Hle eq_refl H)
    as (q' & Hq & <-).
  exact Hq.
Qed.

(** * More of the lexer and of [evaluate] *)

(** ** Texts and characters *)

Lemma is_suffix_refl s : is_suffix s s.
Proof. now exists EmptyString. Qed.

Lemma append_assoc (a b c : string) : (a ++ b) ++ c = a ++ (b ++ c).
Proof. induction a; cbn; [reflexivity | now rewrite IHa]. Qed.

Lemma append_nil_r (a : string) : a ++ "" = a.
Proof. induction a; cbn; [reflexivity | now rewrite IHa]. Qed.

Lemma is_suffix_trans a b c : is_suffix a b -> is_suffix b c -> is_suffix a c.
Proof. intros [p ->] [q ->]. exists (q ++ p). now rewrite append_assoc. Qed.

Lemma is_suffix_cons a s t : is_suffix s t -> is_suffix s (String a t).
Proof. intros [p ->]. now exists (String a p). Qed.

Lemma occurs_suffix c s t : is_suffix s t -> occurs c s = true -> occurs c t = true.
Proof.
  intros [p ->] H. induction p as [|a p IH]; cbn [append occurs]; [exact H |].
  rewrite IH. apply orb_true_r.
Qed.

Lemma token_from_suffix s t tok : is_suffix s t -> token_from s tok -> token_from t tok.
Proof.
  intros Hs [Hn Ho]. split; [exact Hn |].
  intros c Hc. apply occurs_suffix with s; auto.
Qed.

Lemma all_chars_app P a b : all_chars P (a ++ b) = all_chars P a && all_chars P b.
Proof. induction a; cbn; [reflexivity | now rewrite IHa, andb_assoc]. Qed.

Lemma dots_app a b : dots (a ++ b) = (dots a + dots b)%nat.
Proof. induction a; cbn [append dots]; [reflexivity | rewrite IHa; lia]. Qed.

Lemma has_digit_app a b : has_digit (a ++ b) = has_digit a || has_digit b.
Proof. induction a; cbn; [reflexivity | now rewrite IHa, orb_assoc]. Qed.

Lemma len_cons a s : len (String a s) = len s + 1.
Proof. unfold len. cbn [String.length]. lia. Qed.

Lemma len_app a b : len (a ++ b) = len a + len b.
Proof. unfold len. rewrite append_length. lia. Qed.

Lemma advance_position_same a l k :
  Ascii.eqb a newline = false -> Lexer.advance_position a l k = (l, k + 1).
Proof. unfold Lexer.advance_position. now intros ->. Qed.

Lemma id_char_not_newline a : id_char a = true -> Ascii.eqb a newline = false.
Proof. destruct (Ascii.eqb_spec a newline) as [-> |]; [discriminate | reflexivity]. Qed.

(** A letter is no blank, no [#], no digit and no point. *)
Lemma isalpha_class a :
  isalpha a = true ->
  isspace a = false /\ Ascii.eqb a "#" = false /\
  (Float.isdigit a || Ascii.eqb a ".")%bool = false /\ id_char a = true.
Proof.
  destruct a as [[] [] [] [] [] [] [] []]; intros H; try discriminate H;
    repeat split.
Qed.

Lemma isdigit_class a :
  Float.isdigit a = true ->
  isspace a = false /\ Ascii.eqb a "#" = false /\ Ascii.eqb a "." = false /\
  Ascii.eqb a newline = false.
Proof.
  destruct a as [[] [] [] [] [] [] [] []]; intros H; try discriminate H;
    repeat split.
Qed.

Lemma eqb_true ty ty' : eqb ty ty' = true -> ty = ty'.
Proof. unfold eqb. now destruct (eq_dec ty ty'). Qed.

(** ** What a call of the lexer ends in *)

Lemma skip_whitespace_from_suffix s : forall l k,
  is_suffix (Lexer.text (Lexer.skip_whitespace_from s l k)) s.
Proof.
  induction s as [|a s IH]; intros; cbn [Lexer.skip_whitespace_from].
  - apply is_suffix_refl.
  - destruct (isspace a); [| apply is_suffix_refl].
    destruct (Lexer.advance_position a l k). apply is_suffix_cons, IH.
Qed.

Lemma skip_comment_from_suffix s : forall l k,
  is_suffix (Lexer.text (Lexer.skip_comment_from s l k)) s.
Proof.
  induction s as [|a s IH]; intros; cbn [Lexer.skip_comment_from].
  - apply is_suffix_refl.
  - destruct (negb _); [| apply is_suffix_refl].
    destruct (Lexer.advance_position a l k). apply is_suffix_cons, IH.
Qed.

Lemma advance_suffix lx : is_suffix (Lexer.text (Lexer.advance lx)) (Lexer.text lx).
Proof.
  unfold Lexer.advance. destruct (Lexer.text lx) as [|a s]; [apply is_suffix_refl |].
  destruct (Lexer.advance_position a _ _). apply is_suffix_cons, is_suffix_refl.
Qed.

Lemma id_from_suffix s : forall l k result,
  is_suffix (Lexer.text (snd (Lexer.id_from s l k result))) s.
Proof.
  induction s as [|a s IH]; intros; cbn [Lexer.id_from].
  - apply is_suffix_refl.
  - destruct (isalnum a || Ascii.eqb a "_")%bool; [| apply is_suffix_refl].
    destruct (Lexer.advance_position a l k). apply is_suffix_cons, IH.
Qed.

(** What the loop of [number] returns: the digits and points it appended,
    with one point at most. *)
Lemma number_from_result s : forall l k result n r lx,
  Lexer.number_from s l k result n = Ok (r, lx) ->
  dots result = n -> (n <= 1)%nat ->
  exists tail, r = result ++ tail /\ all_chars numeral_char tail = true /\
               (dots r <= 1)%nat /\ is_suffix (Lexer.text lx) s.
Proof.
  induction s as [|a s IH]; intros l k result n r lx H Hn Hle;
    cbn [Lexer.number_from] in H.
  - injection H as <- <-. exists EmptyString. rewrite append_nil_r.
    split; [reflexivity |]. split; [reflexivity |].
    split; [lia | apply is_suffix_refl].
  - destruct (Float.isdigit a || Ascii.eqb a ".")%bool eqn:Ha.
    + assert (Hnum : numeral_char a = true) by exact Ha.
      destruct (Ascii.eqb a ".") eqn:Hdot; cbn [andb] in H.
      * destruct (1 <? S n)%nat eqn:Hlt; [discriminate H |].
        apply Nat.ltb_ge in Hlt.
        destruct (Lexer.advance_position a l k) as [l' k'].
        apply IH in H; [| rewrite dots_app; cbn [dots]; rewrite Hdot; lia | lia].
        destruct H as (tail & -> & Htail & Hd & Hs).
        rewrite append_assoc in Hd |- *. cbn [append] in Hd |- *.
        exists (String a tail). cbn [all_chars]. rewrite Hnum.
        split; [reflexivity |]. split; [exact Htail |].
        split; [exact Hd | now apply is_suffix_cons].
      * destruct (Lexer.advance_position a l k) as [l' k'].
        apply IH in H; [| rewrite dots_app; cbn [dots]; rewrite Hdot; lia | lia].
        destruct H as (tail & -> & Htail & Hd & Hs).
        rewrite append_assoc in Hd |- *. cbn [append] in Hd |- *.
        exists (String a tail). cbn [all_chars]. rewrite Hnum.
        split; [reflexivity |]. split; [exact Htail |].
        split; [exact Hd | now apply is_suffix_cons].
    + injection H as <- <-. exists EmptyString. rewrite append_nil_r.
      split; [reflexivity |]. split; [reflexivity |].
      split; [lia | apply is_suffix_refl].
Qed.

Lemma scan_decimal_Some s : forall acc (frac : option nat) seen,
  all_chars numeral_char s = true ->
  (dots s + match frac with Some _ => 1 | None => 0 end <= 1)%nat ->
  seen || has_digit s = true ->
  exists d k, Float.scan_decimal s acc frac seen = Some (d, k).
Proof.
  induction s as [|a s IH]; intros acc frac seen Hall Hd Hseen;
    cbn [Float.scan_decimal].
  - cbn in Hseen. rewrite orb_false_r in Hseen. subst seen. eauto.
  - cbn [all_chars dots has_digit] in Hall, Hd, Hseen.
    apply andb_prop in Hall as [Ha Hall].
    destruct (Float.isdigit a) eqn:Hdig.
    + apply IH; auto. destruct frac; cbn [option_map]; lia.
    + unfold numeral_char in Ha. rewrite Hdig in Ha. cbn [orb] in Ha, Hseen.
      rewrite Ha in Hd |- *. destruct frac as [k|]; [lia |].
      apply IH; auto. lia.
Qed.

(** [float] accepts what [number] hands to it. *)
Lemma number_of_string r :
  r <> EmptyString -> all_chars numeral_char r = true -> (dots r <= 1)%nat ->
  let r1 := if startswith "." r then "0" ++ r else r in
  let r2 := if endswith "." r1 then r1 ++ "0" else r1 in
  exists v, Float.of_string r2 = Ok v.
Proof.
  intros Hne Hall Hd r1 r2.
  assert (H1 : all_chars numeral_char r1 = true /\ dots r1 = dots r /\ has_digit r1 = true).
  { subst r1. destruct r as [|a r']; [now elim Hne |]. cbn [startswith].
    destruct (Ascii.eqb a ".") eqn:Ha.
    - change ("0" ++ String a r') with (String "0" (String a r')).
      cbn [all_chars dots has_digit] in Hall |- *.
      change (numeral_char "0") with true. change (Float.isdigit "0") with true.
      change (Ascii.eqb "0" ".") with false. auto.
    - pose proof Hall as Hall'.
      cbn [all_chars has_digit] in Hall |- *. apply andb_prop in Hall as [Hn _].
      unfold numeral_char in Hn. rewrite Ha, orb_false_r in Hn. rewrite Hn.
      split; [exact Hall' | split; reflexivity]. }
  destruct H1 as (Hall1 & Hd1 & Hdig1).
  assert (H2 : all_chars numeral_char r2 = true /\ dots r2 = dots r /\ has_digit r2 = true).
  { subst r2. destruct (endswith "." r1); [| auto].
    rewrite all_chars_app, dots_app, has_digit_app, Hall1, Hd1, Hdig1.
    repeat split; cbn; lia. }
  destruct H2 as (Hall2 & Hd2 & Hdig2).
  unfold Float.of_string.
  destruct (scan_decimal_Some r2 0 None false Hall2) as (d & k & ->); [lia | auto |].
  eauto.
Qed.

Lemma lexed_mono lx1 lx r :
  lexed lx1 r -> is_suffix (Lexer.text lx1) (Lexer.text lx) -> lexed lx r.
Proof.
  destruct r as [[tok lx']| |]; cbn [lexed]; auto.
  intros (Hs & He & Hn) Hsuf.
  split; [now apply is_suffix_trans with (Lexer.text lx1) |].
  split; [exact He | now apply token_from_suffix with (Lexer.text lx1)].
Qed.

Lemma keywords_get k ty :
  Lexer.get Lexer.keywords k = Some ty -> In ty [IF; THEN; ELSE; AND; OR; NOT].
Proof.
  unfold Lexer.keywords. cbn [Lexer.get].
  repeat (destruct (String.eqb _ k); [intros [= <-]; cbn; tauto |]). discriminate.
Qed.

Lemma number_lexed lx a s :
  Lexer.text lx = String a s ->
  (Float.isdigit a || Ascii.eqb a ".")%bool = true ->
  lexed lx (Lexer.number lx).
Proof.
  intros Ht Ha. unfold Lexer.number.
  destruct (Lexer.number_from _ _ _ _ _) as [[r lx']| e |] eqn:E; cbn [bind lexed]; auto.
  - destruct (number_from_result _ _ _ _ _ _ _ E eq_refl) as (tail & -> & Hall & Hd & Hs);
      [lia |].
    cbn [append] in Hd |- *. cbv zeta.
    assert (Hne : tail <> EmptyString).
    { rewrite Ht in E. cbn [Lexer.number_from] in E. rewrite Ha in E.
      destruct (Ascii.eqb a "." && _)%bool; [discriminate E |].
      destruct (Lexer.advance_position a _ _) as [l' k'].
      apply number_from_result in E;
        [| cbn; now destruct (Ascii.eqb a ".") | destruct (Ascii.eqb a "."); lia].
      destruct E as (t' & Heq & _).
      intros ->. destruct t'; discriminate Heq. }
    destruct (number_of_string tail Hne Hall Hd) as (v & Hv). cbv zeta in Hv.
    cbn [append] in Hv. rewrite Hv. cbn [bind lexed Token.type Token.value].
    split; [exact Hs |]. split; [discriminate |].
    split; [intros _; eexists; reflexivity | intros c Hc; discriminate Hc].
  - rewrite Ht in E. revert E.
    generalize (String a s) (Lexer.line lx) (Lexer.column lx) EmptyString O.
    intros t. induction t as [|b t IH]; intros l k res n E; cbn [Lexer.number_from] in E;
      [discriminate E |].
    destruct (Float.isdigit b || Ascii.eqb b ".")%bool; [| discriminate E].
    destruct (Ascii.eqb b "." && _)%bool.
    + unfold Lexer.error in E. injection E as <-. eauto.
    + destruct (Lexer.advance_position b l k). eapply IH, E.
Qed.

Lemma id_lexed lx : lexed lx (Lexer._id lx).
Proof.
  unfold Lexer._id.
  pose proof (id_from_suffix (Lexer.text lx) (Lexer.line lx) (Lexer.column lx) EmptyString) as Hs.
  destruct (Lexer.id_from _ _ _ _) as [r lx']. cbn [snd] in Hs.
  destruct (Lexer.get Lexer.keywords (upper r)) as [ty|] eqn:Hk;
    [| unfold Lexer.error; cbn [lexed]; eauto].
  apply keywords_get in Hk. cbn [lexed]. unfold token_from. cbn [Token.type Token.value].
  split; [exact Hs |]. cbn [In] in Hk.
  destruct Hk as [<- | [<- | [<- | [<- | [<- | [<- | []]]]]]];
    (split; [discriminate | split; [discriminate | intros c Hc; discriminate Hc]]).
Qed.

Lemma single_lexed lx a s ty v d :
  Lexer.text lx = String a s ->
  ty <> EOF -> ty <> NUMBER ->
  (forall c, operator_char ty = Some c -> Ascii.eqb a c = true) ->
  lexed lx (Ok (Token.mk ty v (Lexer.line (Lexer.advance lx))
                         (Lexer.column (Lexer.advance lx) - d), Lexer.advance lx)).
Proof.
  intros Ht H1 H2 H3. cbn [lexed]. unfold token_from. cbn [Token.type].
  split; [apply advance_suffix |].
  split; [intros H; congruence |].
  split; [intros H; congruence |].
  intros c Hc. rewrite Ht. cbn [occurs]. now rewrite (H3 c Hc).
Qed.

Lemma double_lexed lx ty v d :
  ty <> EOF -> ty <> NUMBER -> operator_char ty = None ->
  lexed lx (Ok (Token.mk ty v (Lexer.line (Lexer.advance (Lexer.advance lx)))
                         (Lexer.column (Lexer.advance (Lexer.advance lx)) - d),
                Lexer.advance (Lexer.advance lx))).
Proof.
  intros H1 H2 H3. cbn [lexed]. unfold token_from. cbn [Token.type].
  split; [eapply is_suffix_trans; apply advance_suffix |].
  split; [intros H; congruence |].
  split; [intros H; congruence |].
  rewrite H3. discriminate.
Qed.

Lemma get_next_token_loop_lexed n : forall lx, lexed lx (Lexer.get_next_token_loop n lx).
Proof.
  induction n as [|n IH]; intros lx; [exact I |].
  cbn [Lexer.get_next_token_loop].
  destruct (Lexer.current_char lx) as [a|] eqn:Hc.
  2: { cbn [lexed]. unfold token_from. cbn [Token.type Token.value].
       split; [apply is_suffix_refl |].
       split; [| split; discriminate]. intros _. split; [| reflexivity].
       unfold Lexer.current_char in Hc. now destruct (Lexer.text lx). }
  destruct (current_char_Some _ _ Hc) as [s Ht].
  destruct (isspace a).
  { apply lexed_mono with (Lexer.skip_whitespace lx); [apply IH |].
    apply skip_whitespace_from_suffix. }
  destruct (Ascii.eqb a "#").
  { apply lexed_mono with (Lexer.skip_comment lx); [apply IH |].
    unfold Lexer.skip_comment.
    eapply is_suffix_trans; [apply advance_suffix | apply skip_comment_from_suffix]. }
  destruct (Float.isdigit a || Ascii.eqb a ".")%bool eqn:Hnum.
  { now apply number_lexed with a s. }
  destruct (isalpha a); [apply id_lexed |].
  repeat match goal with
  | |- lexed _ (if Ascii.eqb a ?k then _ else _) => destruct (Ascii.eqb a k) eqn:?
  | |- lexed _ (Ok (_, Lexer.advance lx)) =>
      apply single_lexed with a s;
        [exact Ht | discriminate | discriminate
        | intros c0 Hop; cbn in Hop;
          first [discriminate Hop | injection Hop as <-; assumption]]
  | |- lexed _ (match Lexer.current_char ?l with _ => _ end) =>
      destruct (Lexer.current_char l) as [[[] [] [] [] [] [] [] []]|]
  | |- lexed _ (Ok (_, Lexer.advance (Lexer.advance lx))) =>
      apply double_lexed; [discriminate | discriminate | reflexivity]
  | |- lexed _ (Lexer.error _) => unfold Lexer.error; cbn [lexed]; eauto
  end.
Qed.

Lemma get_next_token_lexed lx : lexed lx (Lexer.get_next_token lx).
Proof. apply get_next_token_loop_lexed. Qed.

(** X2.  The lexer only moves forward.  What [get_next_token] leaves unread
    is a suffix of what was unread before the call; at EOF nothing is left,
    and every other token has taken at least one character. *)
Theorem get_next_token_progress lx tok lx' :
  Lexer.get_next_token lx = Ok (tok, lx') ->
  is_suffix (Lexer.text lx') (Lexer.text lx) /\
  (Token.type tok = EOF /\ Lexer.text lx' = EmptyString \/
   Token.type tok <> EOF /\
   (String.length (Lexer.text lx') < String.length (Lexer.text lx))%nat).
Proof.
  intros H.
  pose proof (get_next_token_lexed lx) as Hl.
  pose proof (get_next_token_consumes lx) as Hc.
  rewrite H in Hl, Hc. destruct Hl as (Hs & He & _). destruct Hc as [_ Hlt].
  split; [exact Hs |].
  destruct (eq_dec (Token.type tok) EOF) as [Heof | Hne].
  - left. split; [exact Heof | apply He, Heof].
  - right. split; [exact Hne | apply Hlt, Hne].
Qed.

Lemma get_next_token_progress_witness :
  is_suffix " + 3" "12 + 3" /\
  (NUMBER = EOF /\ " + 3" = EmptyString \/
   NUMBER <> EOF /\ (String.length " + 3" < String.length "12 + 3")%nat).
Proof.
  exact (get_next_token_progress (Lexer.mk "12 + 3" 1 1)
           (Token.mk NUMBER (PyFloat (Float.of_Z 12)) 1 1) (Lexer.mk " + 3" 1 3) eq_refl).
Defined.

(** X3.  The end of the input is read again and again: once
    [get_next_token] has returned EOF, every later call returns the same EOF
    token and leaves the lexer as it is.  (The parser relies on it: its
    loops test the current token after the last one was eaten.) *)
Theorem get_next_token_EOF_again lx tok lx' :
  Lexer.get_next_token lx = Ok (tok, lx') ->
  Token.type tok = EOF ->
  Lexer.get_next_token lx' = Ok (tok, lx').
Proof.
  intros H Heof. pose proof (get_next_token_lexed lx) as Hl.
  rewrite H in Hl. destruct Hl as (_ & He & _).
  destruct (He Heof) as [Ht ->].
  unfold Lexer.get_next_token. rewrite Ht. cbn [String.length Lexer.get_next_token_loop].
  unfold Lexer.current_char. rewrite Ht. reflexivity.
Qed.

Lemma get_next_token_EOF_again_witness :
  Lexer.get_next_token (Lexer.mk "" 2 1) =
  Ok (Token.mk EOF PyNone 2 1, Lexer.mk "" 2 1).
Proof.
  apply (get_next_token_EOF_again (Lexer.mk (String "#" (String newline "")) 1 5));
    reflexivity.
Defined.

(** X4.  On ASCII text the one exception of the lexer is its own 'Invalid
    character': [float] never fails on the text [number] hands to it, which
    holds ASCII digits, one of them at least, and one point at most by the
    time it is converted.  (A digit outside ASCII, which [str.isdigit]
    accepts and [float] does not, is outside the statement.) *)
Theorem get_next_token_raises_invalid_character lx e :
  ascii_text (Lexer.text lx) = true ->
  Lexer.get_next_token lx = Raise e ->
  exists l c, e = Exception_InvalidCharacter l c.
Proof.
  intros _ H. pose proof (get_next_token_lexed lx) as Hl. rewrite H in Hl. exact Hl.
Qed.

Lemma get_next_token_raises_invalid_character_witness :
  exists l c, Exception_InvalidCharacter 1 6 = Exception_InvalidCharacter l c.
Proof.
  apply (get_next_token_raises_invalid_character (Lexer.mk "  1.5.2" 1 1));
    reflexivity.
Defined.

(** ** The exceptions of [evaluate] *)

Lemma math_pow_raises libm_pow x y e :
  Float.math_pow libm_pow x y = Raise e -> e = ValueError \/ e = OverflowError.
Proof.
  unfold Float.math_pow.
  repeat match goal with |- context [if ?b then _ else _] => destruct b end;
    intros [= <-]; auto.
Qed.

Lemma rem_raises x y e : Float.rem x y = Raise e -> e = ZeroDivisionError.
Proof.
  unfold Float.rem.
  repeat match goal with |- context [if ?b then _ else _] => destruct b end;
    intros [= <-]; auto.
Qed.

Section Raised.

Variable libm_pow : Float.float -> Float.float -> Float.float.
Variable text : string.

Lemma next_reads lx tok lx' :
  is_suffix (Lexer.text lx) text ->
  Lexer.get_next_token lx = Ok (tok, lx') -> reads text (Parser.mk lx' tok).
Proof.
  intros Hs H. pose proof (get_next_token_lexed lx) as Hl. rewrite H in Hl.
  destruct Hl as (Hs' & _ & Hfrom). split; cbn [Parser.lexer Parser.current_token].
  - now apply is_suffix_trans with (Lexer.text lx).
  - now apply token_from_suffix with (Lexer.text lx).
Qed.

Lemma eat_reads ty p :
  reads text p ->
  match Parser.eat ty p with
  | Ok p' => reads text p'
  | Raise e => raised_on text e
  | OutOfFuel => True
  end.
Proof.
  intros [Hs _]. unfold Parser.eat. destruct (eqb _ _); [| exact I].
  pose proof (get_next_token_lexed (Parser.lexer p)) as Hl.
  destruct (Lexer.get_next_token (Parser.lexer p)) as [[tok lx']| e |] eqn:E;
    cbn [bind]; [| | exact I].
  - now apply next_reads with (Parser.lexer p).
  - destruct Hl as (l & c & ->). exact I.
Qed.

Lemma reads_operator p ty c :
  reads text p -> eqb (Token.type (Parser.current_token p)) ty = true ->
  operator_char ty = Some c -> occurs c text = true.
Proof.
  intros [_ [_ Ho]] Hty Hc. apply eqb_true in Hty. apply Ho. now rewrite Hty.
Qed.

Ltac inv_eat :=
  match goal with
  | HR : reads text ?p |- keeps text (bind (Parser.eat ?ty ?p) _) =>
      let p1 := fresh "p" in
      let Hb := fresh "HR" in
      pose proof (eat_reads ty p HR) as Hb;
      destruct (Parser.eat ty p) as [p1| |]; cbn [bind keeps];
      [ clear HR | exact Hb | exact I ]
  end.

Ltac inv_call IH :=
  match goal with
  | HR : reads text ?p1 |- keeps text (bind (?g ?p1) _) =>
      let Hb := fresh "HR" in
      let v := fresh "v" in
      let p2 := fresh "p" in
      pose proof (IH p1 HR) as Hb;
      destruct (g p1) as [[v p2]| |]; cbn [bind keeps] in Hb |- *;
      [ clear HR | exact Hb | exact I ]
  end.

Ltac inv_tail IH := apply IH; assumption.

Ltac inv_test X :=
  match goal with
  | |- context [eqb (Token.type (Parser.current_token ?p)) X] =>
      destruct (eqb (Token.type (Parser.current_token p)) X) eqn:?
  end.

Lemma productions_keep n :
  (forall p, reads text p -> keeps text (Parser.atom libm_pow n p)) /\
  (forall p, reads text p -> keeps text (Parser.factor libm_pow n p)) /\
  (forall p, reads text p -> keeps text (Parser.exponentiation libm_pow n p)) /\
  (forall r p, reads text p -> keeps text (Parser.exponentiation_loop libm_pow n r p)) /\
  (forall p, reads text p -> keeps text (Parser.term libm_pow n p)) /\
  (forall r p, reads text p -> keeps text (Parser.term_loop libm_pow n r p)) /\
  (forall p, reads text p -> keeps text (Parser.expression libm_pow n p)) /\
  (forall r p, reads text p -> keeps text (Parser.expression_loop libm_pow n r p)).
Proof.
  induction n as [|n (IHatom & IHfactor & IHexp & IHexpl & IHterm & IHterml & IHexpr & IHexprl)].
  { repeat split; intros; exact I. }
  repeat split; [| | | intros r | | intros r | | intros r]; intros p HR.
  - rewrite atom_S. inv_test NUMBER.
    { destruct HR as [Hs [Hnum Hop]].
      destruct (Hnum (eqb_true _ _ Heqb)) as [f ->].
      pose proof (eat_reads NUMBER p (conj Hs (conj Hnum Hop))) as Hb.
      destruct (Parser.eat NUMBER p); cbn [bind keeps Parser.number_value]; auto. }
    inv_test LPAREN; [| exact I].
    inv_eat. inv_call IHexpr. inv_eat. assumption.
  - rewrite factor_S. inv_test PLUS. { inv_eat. inv_tail IHfactor. }
    inv_test MINUS; [| inv_tail IHexp].
    inv_eat. inv_call IHfactor. assumption.
  - rewrite exponentiation_S. inv_call IHatom. inv_tail IHexpl.
  - rewrite exponentiation_loop_S.
    inv_test EXPONENTIATION; [| exact HR].
    pose proof (reads_operator p EXPONENTIATION _ HR Heqb eq_refl) as Hop.
    inv_eat. inv_call IHfactor.
    destruct (Float.math_pow _ _ _) eqn:Epow; cbn [bind keeps]; [| | exact I].
    + inv_tail IHexpl.
    + apply math_pow_raises in Epow as [-> | ->]; exact Hop.
  - rewrite term_S. inv_call IHfactor. inv_tail IHterml.
  - rewrite term_loop_S.
    destruct (is_in _ _) eqn:Hin; [| exact HR].
    inv_test MULTIPLY. { inv_eat. inv_call IHfactor. inv_tail IHterml. }
    inv_test DIVIDE.
    { pose proof (reads_operator p DIVIDE _ HR Heqb0 eq_refl) as Hop.
      inv_eat. inv_call IHfactor. destruct (Float.eqb v Float.zero); [exact Hop |].
      inv_tail IHterml. }
    inv_test MODULUS; [| inv_tail IHterml].
    pose proof (reads_operator p MODULUS _ HR Heqb1 eq_refl) as Hop.
    inv_eat. inv_call IHfactor.
    destruct (Float.rem _ _) eqn:Erem; cbn [bind keeps]; [| | exact I].
    + inv_tail IHterml.
    + apply rem_raises in Erem as ->. exact Hop.
  - rewrite expression_S. inv_call IHterm. inv_tail IHexprl.
  - rewrite expression_loop_S.
    destruct (is_in _ _) eqn:Hin; [| exact HR].
    inv_test PLUS. { inv_eat. inv_call IHterm. inv_tail IHexprl. }
    inv_test MINUS; [| inv_tail IHexprl].
    inv_eat. inv_call IHterm. inv_tail IHexprl.
Qed.

Lemma expression_keeps n p :
  reads text p -> keeps text (Parser.expression libm_pow n p).
Proof. apply productions_keep. Qed.

Lemma comparison_loop_keeps n : forall r p,
  reads text p -> keeps text (Parser.comparison_loop libm_pow n r p).
Proof.
  induction n as [|n IH]; intros r p HR; [exact I |].
  pose proof (expression_keeps n) as IHexpr.
  rewrite comparison_loop_S.
  destruct (is_in _ _) eqn:Hin; [| exact HR].
  inv_test EQUAL. { inv_eat. inv_call IHexpr. inv_tail IH. }
  inv_test NOT_EQUAL. { inv_eat. inv_call IHexpr. inv_tail IH. }
  inv_test LESS. { inv_eat. inv_call IHexpr. inv_tail IH. }
  inv_test GREATER. { inv_eat. inv_call IHexpr. inv_tail IH. }
  inv_test LESS_EQUAL. { inv_eat. inv_call IHexpr. inv_tail IH. }
  inv_test GREATER_EQUAL; [| inv_tail IH].
  inv_eat. inv_call IHexpr. inv_tail IH.
Qed.

Lemma comparison_keeps n p :
  reads text p -> keeps text (Parser.comparison libm_pow n p).
Proof.
  intros HR. unfold Parser.comparison.
  pose proof (expression_keeps n) as IHexpr.
  inv_call IHexpr. now apply comparison_loop_keeps.
Qed.

Lemma logical_expr_loop_keeps n : forall r p,
  reads text p -> keeps text (Parser.logical_expr_loop libm_pow n r p).
Proof.
  induction n as [|n IH]; intros r p HR; [exact I |].
  pose proof (comparison_keeps n) as IHcmp.
  rewrite logical_expr_loop_S.
  destruct (is_in _ _) eqn:Hin; [| exact HR].
  inv_test AND.
  { inv_eat. destruct (truthy r); [| inv_tail IH]. inv_call IHcmp. inv_tail IH. }
  inv_test OR; [| inv_tail IH].
  inv_eat. destruct (truthy r); [inv_tail IH |]. inv_call IHcmp. inv_tail IH.
Qed.

Lemma logical_expr_keeps n p :
  reads text p -> keeps text (Parser.logical_expr libm_pow n p).
Proof.
  intros HR. unfold Parser.logical_expr.
  pose proof (comparison_keeps n) as IHcmp.
  inv_call IHcmp. now apply logical_expr_loop_keeps.
Qed.

Lemma if_expr_keeps n p :
  reads text p -> keeps text (Parser.if_expr libm_pow n p).
Proof.
  intros HR. unfold Parser.if_expr.
  pose proof (expression_keeps n) as IHexpr.
  pose proof (logical_expr_keeps n) as IHlog.
  inv_eat. inv_call IHlog. inv_eat. inv_call IHexpr. inv_eat. inv_call IHexpr.
  assumption.
Qed.

Lemma parse_keeps n p :
  reads text p -> keeps text (Parser.parse libm_pow n p).
Proof.
  intros HR. unfold Parser.parse.
  inv_test IF; [| now apply logical_expr_keeps].
  pose proof (if_expr_keeps n) as IHif. inv_call IHif. assumption.
Qed.

End Raised.

(** X5.  The exceptions [evaluate] can end in, on an ASCII text that nests
    the productions within Python's limit on recursion.  An evaluation of
    such a [text] that fails raises the lexer's 'Invalid character', the
    parser's 'Invalid syntax', or the error of an arithmetic operator that is
    written in [text]: 'Division by zero' only where [text] has a [/],
    [ZeroDivisionError] only where it has a [%], and the [ValueError] or
    [OverflowError] of [math.pow] only where it has a [^].  No [float] of a
    numeral fails, and [atom] never returns a token value that is no
    number. *)
Theorem evaluate_raises libm_pow text e :
  ascii_text text = true -> (nesting text <= frames_left)%nat ->
  evaluate libm_pow text = Raise e -> raised_on text e.
Proof.
  unfold evaluate, Parser.init. intros _ _ H.
  pose proof (get_next_token_lexed (Lexer.init text)) as Hl.
  destruct (Lexer.get_next_token (Lexer.init text)) as [[tok lx]| e' |] eqn:E;
    cbn [bind] in H; try discriminate H.
  - pose proof (parse_keeps libm_pow text (fuel_for text) (Parser.mk lx tok)
                  (next_reads text (Lexer.init text) _ _ (is_suffix_refl _) E)) as Hk.
    destruct (Parser.parse libm_pow _ _) as [[v p]| e' |];
      cbn [bind] in H; try discriminate H.
    injection H as <-. exact Hk.
  - injection H as <-. destruct Hl as (l & c & ->). exact I.
Qed.

Lemma evaluate_raises_witness : raised_on "(-2) ^ 0.5" ValueError.
Proof.
  apply (evaluate_raises libm_pow_nan);
    [reflexivity | vm_compute; lia | vm_compute; reflexivity].
Defined.

(** ** The C library and [evaluate] *)

Section WithoutPow.

Variables libm_pow libm_pow' : Float.float -> Float.float -> Float.float.
Variable text : string.
Hypothesis no_pow : occurs "^" text = false.

Ltac same_eat :=
  match goal with
  | HR : reads text ?p |- bind (Parser.eat ?ty ?p) _ = bind (Parser.eat ?ty ?p) _ =>
      let Hb := fresh "HR" in
      pose proof (eat_reads text ty p HR) as Hb;
      destruct (Parser.eat ty p); cbn [bind]; [clear HR | reflexivity | reflexivity]
  end.

Ltac same_call IH K :=
  match goal with
  | HR : reads text ?p |- bind (?g ?p) _ = _ =>
      let Hb := fresh "HR" in
      rewrite <- (IH p HR);
      pose proof (K p HR) as Hb;
      destruct (g p) as [[? ?]| |]; cbn [bind keeps] in Hb |- *;
      [clear HR | reflexivity | reflexivity]
  end.

Ltac same_test X :=
  match goal with
  | |- context [eqb (Token.type (Parser.current_token ?p)) X] =>
      destruct (eqb (Token.type (Parser.current_token p)) X) eqn:?
  end.

Lemma productions_without_pow n :
  (forall p, reads text p ->
     Parser.atom libm_pow n p = Parser.atom libm_pow' n p) /\
  (forall p, reads text p ->
     Parser.factor libm_pow n p = Parser.factor libm_pow' n p) /\
  (forall p, reads text p ->
     Parser.exponentiation libm_pow n p = Parser.exponentiation libm_pow' n p) /\
  (forall r p, reads text p ->
     Parser.exponentiation_loop libm_pow n r p = Parser.exponentiation_loop libm_pow' n r p) /\
  (forall p, reads text p ->
     Parser.term libm_pow n p = Parser.term libm_pow' n p) /\
  (forall r p, reads text p ->
     Parser.term_loop libm_pow n r p = Parser.term_loop libm_pow' n r p) /\
  (forall p, reads text p ->
     Parser.expression libm_pow n p = Parser.expression libm_pow' n p) /\
  (forall r p, reads text p ->
     Parser.expression_loop libm_pow n r p = Parser.expression_loop libm_pow' n r p).
Proof.
  induction n as [|n (IHatom & IHfactor & IHexp & IHexpl & IHterm & IHterml & IHexpr & IHexprl)].
  { repeat split; intros; reflexivity. }
  destruct (productions_keep libm_pow text n)
    as (Katom & Kfactor & Kexp & Kexpl & Kterm & Kterml & Kexpr & Kexprl).
  repeat split; [| | | intros r | | intros r | | intros r]; intros p HR.
  - rewrite !atom_S. same_test NUMBER; [reflexivity |].
    same_test LPAREN; [| reflexivity].
    same_eat. same_call IHexpr Kexpr. reflexivity.
  - rewrite !factor_S. same_test PLUS. { same_eat. now apply IHfactor. }
    same_test MINUS; [| now apply IHexp].
    same_eat. same_call IHfactor Kfactor. reflexivity.
  - rewrite !exponentiation_S. same_call IHatom Katom. now apply IHexpl.
  - rewrite !exponentiation_loop_S. same_test EXPONENTIATION; [| reflexivity].
    pose proof (reads_operator text p EXPONENTIATION _ HR Heqb eq_refl) as Hop.
    congruence.
  - rewrite !term_S. same_call IHfactor Kfactor. now apply IHterml.
  - rewrite !term_loop_S. destruct (is_in _ _); [| reflexivity].
    same_test MULTIPLY. { same_eat. same_call IHfactor Kfactor. now apply IHterml. }
    same_test DIVIDE.
    { same_eat. same_call IHfactor Kfactor.
      destruct (Float.eqb _ _); [reflexivity | now apply IHterml]. }
    same_test MODULUS; [| now apply IHterml].
    same_eat. same_call IHfactor Kfactor.
    destruct (Float.rem _ _); cbn [bind]; [now apply IHterml | reflexivity | reflexivity].
  - rewrite !expression_S. same_call IHterm Kterm. now apply IHexprl.
  - rewrite !expression_loop_S. destruct (is_in _ _); [| reflexivity].
    same_test PLUS. { same_eat. same_call IHterm Kterm. now apply IHexprl. }
    same_test MINUS; [| now apply IHexprl].
    same_eat. same_call IHterm Kterm. now apply IHexprl.
Qed.

Lemma expression_without_pow n p :
  reads text p -> Parser.expression libm_pow n p = Parser.expression libm_pow' n p.
Proof. apply productions_without_pow. Qed.

Lemma comparison_loop_without_pow n : forall r p,
  reads text p ->
  Parser.comparison_loop libm_pow n r p = Parser.comparison_loop libm_pow' n r p.
Proof.
  induction n as [|n IH]; intros r p HR; [reflexivity |].
  pose proof (expression_without_pow n) as IHexpr.
  pose proof (expression_keeps libm_pow text n) as Kexpr.
  rewrite !comparison_loop_S. destruct (is_in _ _); [| reflexivity].
  same_test EQUAL. { same_eat. same_call IHexpr Kexpr. now apply IH. }
  same_test NOT_EQUAL. { same_eat. same_call IHexpr Kexpr. now apply IH. }
  same_test LESS. { same_eat. same_call IHexpr Kexpr. now apply IH. }
  same_test GREATER. { same_eat. same_call IHexpr Kexpr. now apply IH. }
  same_test LESS_EQUAL. { same_eat. same_call IHexpr Kexpr. now apply IH. }
  same_test GREATER_EQUAL; [| now apply IH].
  same_eat. same_call IHexpr Kexpr. now apply IH.
Qed.

Lemma comparison_without_pow n p :
  reads text p -> Parser.comparison libm_pow n p = Parser.comparison libm_pow' n p.
Proof.
  intros HR. unfold Parser.comparison.
  pose proof (expression_without_pow n) as IHexpr.
  pose proof (expression_keeps libm_pow text n) as Kexpr.
  same_call IHexpr Kexpr. now apply comparison_loop_without_pow.
Qed.

Lemma logical_expr_loop_without_pow n : forall r p,
  reads text p ->
  Parser.logical_expr_loop libm_pow n r p = Parser.logical_expr_loop libm_pow' n r p.
Proof.
  induction n as [|n IH]; intros r p HR; [reflexivity |].
  pose proof (comparison_without_pow n) as IHcmp.
  pose proof (comparison_keeps libm_pow text n) as Kcmp.
  rewrite !logical_expr_loop_S. destruct (is_in _ _); [| reflexivity].
  same_test AND.
  { same_eat. destruct (truthy r); [| now apply IH]. same_call IHcmp Kcmp. now apply IH. }
  same_test OR; [| now apply IH].
  same_eat. destruct (truthy r); [now apply IH |]. same_call IHcmp Kcmp. now apply IH.
Qed.

Lemma logical_expr_without_pow n p :
  reads text p -> Parser.logical_expr libm_pow n p = Parser.logical_expr libm_pow' n p.
Proof.
  intros HR. unfold Parser.logical_expr.
  pose proof (comparison_without_pow n) as IHcmp.
  pose proof (comparison_keeps libm_pow text n) as Kcmp.
  same_call IHcmp Kcmp. now apply logical_expr_loop_without_pow.
Qed.

Lemma if_expr_without_pow n p :
  reads text p -> Parser.if_expr libm_pow n p = Parser.if_expr libm_pow' n p.
Proof.
  intros HR. unfold Parser.if_expr.
  pose proof (expression_without_pow n) as IHexpr.
  pose proof (expression_keeps libm_pow text n) as Kexpr.
  pose proof (logical_expr_without_pow n) as IHlog.
  pose proof (logical_expr_keeps libm_pow text n) as Klog.
  same_eat. same_call IHlog Klog. same_eat. same_call IHexpr Kexpr. same_eat.
  same_call IHexpr Kexpr. reflexivity.
Qed.

Lemma parse_without_pow n p :
  reads text p -> Parser.parse libm_pow n p = Parser.parse libm_pow' n p.
Proof.
  intros HR. unfold Parser.parse.
  same_test IF; [| now apply logical_expr_without_pow].
  now rewrite if_expr_without_pow.
Qed.

End WithoutPow.

(** X6.  The C library matters through [^] alone: a text in which no [^]
    is written evaluates to the same result, value or exception, with every
    C library's [pow].  [math.pow] is called in the loop of
    [exponentiation] and nowhere else, and that loop goes on at the token of
    a [^] only. *)
Theorem evaluate_without_pow libm_pow libm_pow' text :
  occurs "^" text = false ->
  evaluate libm_pow text = evaluate libm_pow' text.
Proof.
  intros H. unfold evaluate, Parser.init.
  destruct (Lexer.get_next_token (Lexer.init text)) as [[tok lx]| |] eqn:E;
    cbn [bind]; [| reflexivity | reflexivity].
  rewrite (parse_without_pow libm_pow libm_pow' text H); [reflexivity |].
  now apply next_reads with (Lexer.init text); [apply is_suffix_refl |].
Qed.

Lemma evaluate_without_pow_witness :
  evaluate libm_pow_nan "7 % 3 / 2" = evaluate (fun x _ => x) "7 % 3 / 2".
Proof. apply evaluate_without_pow. reflexivity. Defined.

(** ** The first token of a program *)

Lemma parse_no_operand libm_pow n p :
  is_in (Token.type (Parser.current_token p)) [NUMBER; LPAREN; PLUS; MINUS; IF] = false ->
  Parser.parse libm_pow (5 + n) p = Raise Exception_InvalidSyntax.
Proof.
  intros H. unfold Parser.parse, Parser.logical_expr, Parser.comparison.
  change (5 + n)%nat with (S (S (S (S (S n))))).
  rewrite expression_S, term_S, factor_S, exponentiation_S, atom_S.
  destruct (Token.type (Parser.current_token p)); try discriminate H; reflexivity.
Qed.

Lemma fuel_for_5 text : fuel_for text = (5 + 5 * String.length text)%nat.
Proof. unfold fuel_for. lia. Qed.

(** X7.  A program begins with a number, [(], [+], [-] or IF.  With any
    other first token, be it an operator, [)], a keyword such as NOT or
    THEN, or the end of the input, [evaluate] raises 'Invalid syntax':
    [parse] goes down to [atom], and no production on the way accepts the
    token. *)
Theorem program_starts_with_operand_or_IF libm_pow text p :
  Parser.init (Lexer.init text) = Ok p ->
  is_in (Token.type (Parser.current_token p)) [NUMBER; LPAREN; PLUS; MINUS; IF] = false ->
  evaluate libm_pow text = Raise Exception_InvalidSyntax.
Proof.
  intros Hinit H. unfold evaluate. rewrite Hinit. cbn [bind].
  rewrite fuel_for_5, parse_no_operand by exact H. reflexivity.
Qed.

Lemma program_starts_with_operand_or_IF_witness :
  evaluate libm_pow_nan "NOT 1" = Raise Exception_InvalidSyntax.
Proof.
  apply (program_starts_with_operand_or_IF libm_pow_nan "NOT 1"
           (Parser.mk (Lexer.mk " 1" 1 4) (Token.mk NOT (PyStr "NOT") 1 1)));
    reflexivity.
Defined.

Lemma skip_whitespace_from_blank s : forall l k,
  all_chars isspace s = true ->
  Lexer.text (Lexer.skip_whitespace_from s l k) = EmptyString.
Proof.
  induction s as [|a s IH]; intros l k H; cbn [Lexer.skip_whitespace_from]; [reflexivity |].
  cbn [all_chars] in H. apply andb_prop in H as [-> H].
  destruct (Lexer.advance_position a l k). now apply IH.
Qed.

Lemma get_next_token_blank s l k :
  all_chars isspace s = true ->
  exists l' k', Lexer.get_next_token (Lexer.mk s l k) =
                Ok (Token.mk EOF PyNone l' k', Lexer.mk EmptyString l' k').
Proof.
  intros H. unfold Lexer.get_next_token. cbn [Lexer.text].
  rewrite <- (skip_whitespace_loop (S (String.length s)) (Lexer.mk s l k)) by (cbn; lia).
  pose proof (skip_whitespace_from_blank s l k H) as Ht.
  unfold Lexer.skip_whitespace. cbn [Lexer.text Lexer.line Lexer.column].
  destruct (Lexer.skip_whitespace_from s l k) as [t l' k']. cbn [Lexer.text] in Ht. subst t.
  exists l', k'. reflexivity.
Qed.

(** X8.  The empty program is an error: on a text of blanks alone, the
    empty text among them, [evaluate] raises 'Invalid syntax'. *)
Theorem blank_program_is_syntax_error libm_pow text :
  all_chars isspace text = true ->
  evaluate libm_pow text = Raise Exception_InvalidSyntax.
Proof.
  intros H. unfold evaluate, Parser.init, Lexer.init.
  destruct (get_next_token_blank text 1 1 H) as (l & k & ->). cbn [bind].
  rewrite fuel_for_5, parse_no_operand by reflexivity. reflexivity.
Qed.

Lemma blank_program_is_syntax_error_witness :
  evaluate libm_pow_nan (String " " (String newline " ")) = Raise Exception_InvalidSyntax.
Proof. apply (blank_program_is_syntax_error libm_pow_nan). reflexivity. Defined.

(** ** The scanning loops over a whole word *)

Lemma id_from_app w : forall rest l k result,
  all_chars id_char w = true -> begins id_char rest = false ->
  Lexer.id_from (w ++ rest) l k result = (result ++ w, Lexer.mk rest l (k + len w)).
Proof.
  induction w as [|a w IH]; intros rest l k result Hw Hrest.
  - cbn [append]. rewrite append_nil_r. replace (k + len "") with k by (cbn; lia).
    destruct rest as [|b rest]; [reflexivity |].
    cbn [begins] in Hrest. cbn [Lexer.id_from].
    change (isalnum b || Ascii.eqb b "_")%bool with (id_char b). now rewrite Hrest.
  - cbn [all_chars] in Hw. apply andb_prop in Hw as [Ha Hw].
    cbn [append Lexer.id_from].
    change (isalnum a || Ascii.eqb a "_")%bool with (id_char a). rewrite Ha.
    rewrite advance_position_same by now apply id_char_not_newline.
    rewrite IH by assumption. rewrite append_assoc, len_cons. cbn [append].
    do 2 f_equal. lia.
Qed.

(** X9.  Identifiers.  A letter followed by letters, digits and
    underscores is read to its end and looked up in upper case: in whatever
    case it is written, a keyword gives its token, placed at the column
    where the word begins and valued with the word in upper case; any other
    word is an 'Invalid character', reported at the column after the
    word.  The word is of ASCII letters, digits and underscores, and the
    text behind it is ASCII. *)
Theorem identifier_token a w rest l c :
  isalpha a = true -> all_chars id_char w = true -> begins id_char rest = false ->
  ascii_text rest = true ->
  Lexer.get_next_token (Lexer.mk (String a w ++ rest) l c) =
  match Lexer.get Lexer.keywords (upper (String a w)) with
  | Some ty =>
      Ok (Token.mk ty (PyStr (upper (String a w))) l c,
          Lexer.mk rest l (c + len (String a w)))
  | None => Raise (Exception_InvalidCharacter l (c + len (String a w)))
  end.
Proof.
  intros Ha Hw Hrest _.
  destruct (isalpha_class a Ha) as (Hsp & Hhash & Hnum & Hid).
  unfold Lexer.get_next_token.
  cbn [Lexer.get_next_token_loop Lexer.current_char Lexer.text append].
  rewrite Hsp, Hhash, Hnum, Ha. unfold Lexer._id. cbn [Lexer.text Lexer.line Lexer.column].
  change (String a (w ++ rest)) with (String a w ++ rest).
  rewrite id_from_app; [| cbn [all_chars]; now rewrite Hid, Hw | exact Hrest].
  cbn [append]. destruct (Lexer.get _ _); unfold Lexer.error;
    cbn [Lexer.line Lexer.column]; [| reflexivity].
  do 3 f_equal. lia.
Qed.

Lemma identifier_token_witness :
  Lexer.get_next_token (Lexer.mk "Then 1" 1 8) =
  Ok (Token.mk THEN (PyStr "THEN") 1 8, Lexer.mk " 1" 1 12).
Proof.
  apply (identifier_token "T" "hen" " 1" 1 8); reflexivity.
Defined.

Lemma skip_comment_from_app cmt : forall rest l k,
  occurs newline cmt = false ->
  Lexer.skip_comment_from (cmt ++ String newline rest) l k =
  Lexer.mk (String newline rest) l (k + len cmt).
Proof.
  induction cmt as [|a cmt IH]; intros rest l k H.
  - cbn [append Lexer.skip_comment_from]. rewrite Ascii.eqb_refl. cbn [negb].
    f_equal. cbn. lia.
  - cbn [occurs] in H. apply orb_false_elim in H as [Ha H].
    cbn [append Lexer.skip_comment_from]. rewrite Ha. cbn [negb].
    rewrite advance_position_same by exact Ha.
    rewrite IH by exact H. rewrite len_cons. f_equal. lia.
Qed.

Lemma skip_comment_from_end cmt : forall l k,
  occurs newline cmt = false ->
  Lexer.skip_comment_from cmt l k = Lexer.mk EmptyString l (k + len cmt).
Proof.
  induction cmt as [|a cmt IH]; intros l k H.
  - cbn [Lexer.skip_comment_from]. f_equal. cbn. lia.
  - cbn [occurs] in H. apply orb_false_elim in H as [Ha H].
    cbn [Lexer.skip_comment_from]. rewrite Ha. cbn [negb].
    rewrite advance_position_same by exact Ha.
    rewrite IH by exact H. rewrite len_cons. f_equal. lia.
Qed.

Lemma get_next_token_comment cmt rest l c :
  occurs newline cmt = false ->
  Lexer.get_next_token (Lexer.mk (String "#" (cmt ++ String newline rest)) l c) =
  Lexer.get_next_token (Lexer.mk rest (l + 1) 1).
Proof.
  intros H. unfold Lexer.get_next_token at 1.
  cbn [Lexer.get_next_token_loop Lexer.current_char Lexer.text].
  change (isspace "#") with false. change (Ascii.eqb "#" "#") with true. cbv iota.
  unfold Lexer.skip_comment. cbn [Lexer.text Lexer.line Lexer.column Lexer.skip_comment_from].
  change (negb (Ascii.eqb "#" newline)) with true. cbv iota.
  rewrite advance_position_same by reflexivity.
  rewrite skip_comment_from_app by exact H.
  unfold Lexer.advance. cbn [Lexer.text Lexer.line Lexer.column].
  unfold Lexer.advance_position. rewrite Ascii.eqb_refl.
  change (0 + 1) with 1.
  apply get_next_token_loop_enough. cbn [Lexer.text String.length].
  rewrite append_length. cbn [String.length]. lia.
Qed.

Lemma get_next_token_comment_end cmt l c :
  occurs newline cmt = false ->
  Lexer.get_next_token (Lexer.mk (String "#" cmt) l c) =
  Ok (Token.mk EOF PyNone l (c + len cmt + 2), Lexer.mk EmptyString l (c + len cmt + 2)).
Proof.
  intros H. unfold Lexer.get_next_token.
  cbn [Lexer.get_next_token_loop Lexer.current_char Lexer.text String.length].
  change (isspace "#") with false. change (Ascii.eqb "#" "#") with true. cbv iota.
  unfold Lexer.skip_comment. cbn [Lexer.text Lexer.line Lexer.column Lexer.skip_comment_from].
  change (negb (Ascii.eqb "#" newline)) with true. cbv iota.
  rewrite advance_position_same by reflexivity.
  rewrite skip_comment_from_end by exact H.
  unfold Lexer.advance. cbn [Lexer.text Lexer.line Lexer.column].
  replace (c + 1 + len cmt + 1) with (c + len cmt + 2) by lia.
  reflexivity.
Qed.

(** X10.  Comments.  A [#] and what follows it up to the end of the line
    are skipped, the newline with them: the next token is the one read at
    column 1 of the next line.  A comment that ends the text gives EOF; the
    [advance] that [skip_comment] makes for the newline then counts a
    column for a character that is not there, so that EOF is placed two
    columns, not one, after the last character of the comment. *)
Theorem comment_runs_to_end_of_line cmt l c :
  occurs newline cmt = false ->
  (forall rest,
     Lexer.get_next_token (Lexer.mk (String "#" (cmt ++ String newline rest)) l c) =
     Lexer.get_next_token (Lexer.mk rest (l + 1) 1)) /\
  Lexer.get_next_token (Lexer.mk (String "#" cmt) l c) =
  Ok (Token.mk EOF PyNone l (c + len cmt + 2), Lexer.mk EmptyString l (c + len cmt + 2)).
Proof.
  intros H. split.
  - intros rest. now apply get_next_token_comment.
  - now apply get_next_token_comment_end.
Qed.

Lemma comment_runs_to_end_of_line_witness :
  Lexer.get_next_token (Lexer.mk (String "#" (" two" ++ String newline "2")) 1 3) =
  Lexer.get_next_token (Lexer.mk "2" (1 + 1) 1).
Proof.
  apply (proj1 (comment_runs_to_end_of_line " two" 1 3 eq_refl)).
Defined.

Lemma skip_whitespace_from_app ws : forall rest l k,
  all_chars isspace ws = true ->
  Lexer.skip_whitespace_from (ws ++ rest) l k =
  Lexer.skip_whitespace_from rest (fst (position_after ws l k)) (snd (position_after ws l k)).
Proof.
  induction ws as [|a ws IH]; intros rest l k H; [reflexivity |].
  cbn [all_chars] in H. apply andb_prop in H as [Ha H].
  cbn [append Lexer.skip_whitespace_from position_after]. rewrite Ha.
  destruct (Lexer.advance_position a l k) as [l' k']. now apply IH.
Qed.

Lemma position_after_line ws : forall l k,
  occurs newline ws = false -> position_after ws l k = (l, k + len ws).
Proof.
  induction ws as [|a ws IH]; intros l k H; cbn [position_after].
  - f_equal. cbn. lia.
  - cbn [occurs] in H. apply orb_false_elim in H as [Ha H].
    rewrite advance_position_same by exact Ha.
    rewrite IH by exact H. rewrite len_cons. f_equal. lia.
Qed.

Lemma get_next_token_whitespace ws rest l c :
  all_chars isspace ws = true ->
  Lexer.get_next_token (Lexer.mk (ws ++ rest) l c) =
  Lexer.get_next_token
    (Lexer.mk rest (fst (position_after ws l c)) (snd (position_after ws l c))).
Proof.
  intros H. unfold Lexer.get_next_token at 1. cbn [Lexer.text].
  rewrite <- skip_whitespace_loop by (cbn [Lexer.text]; lia).
  unfold Lexer.skip_whitespace. cbn [Lexer.text Lexer.line Lexer.column].
  rewrite skip_whitespace_from_app by exact H.
  set (l' := fst (position_after ws l c)). set (k' := snd (position_after ws l c)).
  change (Lexer.skip_whitespace_from rest l' k')
    with (Lexer.skip_whitespace (Lexer.mk rest l' k')).
  assert (Hlen : (String.length rest < S (String.length (ws ++ rest)))%nat)
    by (rewrite append_length; lia).
  rewrite skip_whitespace_loop by exact Hlen.
  now apply get_next_token_loop_enough.
Qed.

(** X11.  Blanks.  The blanks before a token are skipped, and move the
    position alone: the token is the one read from the text behind them, at
    the line and column [advance] has reached over them, which is the same
    line, one column on for every blank, when no newline is among them. *)
Theorem leading_whitespace_skipped ws l c :
  all_chars isspace ws = true ->
  (forall rest,
     Lexer.get_next_token (Lexer.mk (ws ++ rest) l c) =
     Lexer.get_next_token
       (Lexer.mk rest (fst (position_after ws l c)) (snd (position_after ws l c)))) /\
  (occurs newline ws = false -> position_after ws l c = (l, c + len ws)).
Proof.
  intros H. split.
  - intros rest. now apply get_next_token_whitespace.
  - now apply position_after_line.
Qed.

Lemma leading_whitespace_skipped_witness :
  Lexer.get_next_token (Lexer.mk (String " " (String newline "  ") ++ "7") 1 1) =
  Lexer.get_next_token (Lexer.mk "7" 2 3).
Proof.
  apply (proj1 (leading_whitespace_skipped (String " " (String newline "  ")) 1 1 eq_refl)).
Defined.

(** The loop of [number] over a run of digits. *)
Lemma number_from_digits ds : forall s l k result n,
  all_chars Float.isdigit ds = true ->
  Lexer.number_from (ds ++ s) l k result n =
  Lexer.number_from s l (k + len ds) (result ++ ds) n.
Proof.
  induction ds as [|a ds IH]; intros s l k result n H.
  - cbn [append]. rewrite append_nil_r. replace (k + len "") with k by (cbn; lia).
    reflexivity.
  - cbn [all_chars] in H. apply andb_prop in H as [Ha H].
    destruct (isdigit_class a Ha) as (_ & _ & Hdot & Hnl).
    cbn [append Lexer.number_from]. rewrite Ha, Hdot. cbn [orb andb].
    rewrite advance_position_same by exact Hnl.
    rewrite IH by exact H. rewrite append_assoc, len_cons. cbn [append].
    f_equal. lia.
Qed.

Lemma number_from_point s l k result :
  Lexer.number_from (String "." s) l k result 0 =
  Lexer.number_from s l (k + 1) (result ++ ".") 1.
Proof. reflexivity. Qed.

Lemma number_from_second_point s l k result :
  Lexer.number_from (String "." s) l k result 1 =
  Raise (Exception_InvalidCharacter l k).
Proof. reflexivity. Qed.

Lemma number_from_stop rest l k result n :
  begins numeral_char rest = false ->
  Lexer.number_from rest l k result n = Ok (result, Lexer.mk rest l k).
Proof.
  destruct rest as [|a rest]; [reflexivity |]. cbn [begins Lexer.number_from].
  change (Float.isdigit a || Ascii.eqb a ".")%bool with (numeral_char a). now intros ->.
Qed.

Lemma get_next_token_numeral a s l k :
  numeral_char a = true ->
  Lexer.get_next_token (Lexer.mk (String a s) l k) = Lexer.number (Lexer.mk (String a s) l k).
Proof.
  intros H. unfold Lexer.get_next_token.
  cbn [Lexer.get_next_token_loop Lexer.current_char Lexer.text].
  change (Float.isdigit a || Ascii.eqb a ".")%bool with (numeral_char a). rewrite H.
  replace (isspace a) with false; [replace (Ascii.eqb a "#") with false; [reflexivity |] |].
  - destruct (Ascii.eqb_spec a "#") as [-> |]; [discriminate H | reflexivity].
  - revert H. destruct a as [[] [] [] [] [] [] [] []]; intros H; try discriminate H; reflexivity.
Qed.

(** X12.  A numeral has one decimal point at most: at a second one, be it
    after digits or right after the first, [number] raises 'Invalid
    character' with the line and column of that second point, and no
    token is returned for the digits before it. *)
Theorem second_decimal_point_rejected n1 n2 rest l c :
  all_chars Float.isdigit n1 = true -> all_chars Float.isdigit n2 = true ->
  Lexer.get_next_token (Lexer.mk (n1 ++ String "." (n2 ++ String "." rest)) l c) =
  Raise (Exception_InvalidCharacter l (c + len n1 + 1 + len n2)).
Proof.
  intros H1 H2.
  assert (Hnum : Lexer.number (Lexer.mk (n1 ++ String "." (n2 ++ String "." rest)) l c) =
                 Raise (Exception_InvalidCharacter l (c + len n1 + 1 + len n2))).
  { unfold Lexer.number. cbn [Lexer.text Lexer.line Lexer.column].
    rewrite number_from_digits, number_from_point, number_from_digits,
      number_from_second_point by assumption.
    reflexivity. }
  rewrite <- Hnum. destruct n1 as [|a n1]; cbn [append].
  - now apply get_next_token_numeral.
  - apply get_next_token_numeral. cbn [all_chars] in H1.
    apply andb_prop in H1 as [Ha _]. unfold numeral_char. now rewrite Ha.
Qed.

Lemma second_decimal_point_rejected_witness :
  Lexer.get_next_token (Lexer.mk "1.25.3" 1 1) = Raise (Exception_InvalidCharacter 1 5).
Proof.
  apply (second_decimal_point_rejected "1" "25" "3" 1 1); reflexivity.
Defined.

Lemma endswith_app c x y :
  y <> EmptyString -> endswith c (x ++ y) = endswith c y.
Proof.
  intros Hy. induction x as [|a x IH]; [reflexivity |].
  cbn [append endswith]. destruct (x ++ y) eqn:E; [| exact IH].
  destruct x; [cbn in E; now elim Hy | discriminate E].
Qed.

Lemma endswith_digits ds : all_chars Float.isdigit ds = true -> endswith "." ds = false.
Proof.
  induction ds as [|a ds IH]; [reflexivity |]. cbn [all_chars endswith].
  intros H. apply andb_prop in H as [Ha H].
  destruct ds; [| now apply IH].
  now destruct (isdigit_class a Ha) as (_ & _ & -> & _).
Qed.

Lemma startswith_digits ds s :
  all_chars Float.isdigit ds = true -> ds <> EmptyString -> startswith "." (ds ++ s) = false.
Proof.
  destruct ds as [|a ds]; [intros _ H; now elim H |]. cbn [all_chars append startswith].
  intros H _. apply andb_prop in H as [Ha _].
  now destruct (isdigit_class a Ha) as (_ & _ & -> & _).
Qed.

(** What [number] makes of the digits around a point before it calls
    [float]. *)
Lemma number_normalised n1 n2 :
  all_chars Float.isdigit n1 = true -> all_chars Float.isdigit n2 = true ->
  (let result := n1 ++ String "." n2 in
   let result := if startswith "." result then "0" ++ result else result in
   if endswith "." result then result ++ "0" else result) =
  or_zero n1 ++ String "." (or_zero n2).
Proof.
  intros H1 H2. cbv zeta.
  assert (E1 : (if startswith "." (n1 ++ String "." n2)
                then "0" ++ n1 ++ String "." n2 else n1 ++ String "." n2) =
               or_zero n1 ++ String "." n2).
  { destruct n1 as [|a n1]; [reflexivity |].
    rewrite startswith_digits by (auto; discriminate). reflexivity. }
  rewrite E1. rewrite endswith_app by discriminate.
  destruct n2 as [|b n2].
  - cbn [endswith]. rewrite Ascii.eqb_refl, append_assoc. reflexivity.
  - change (endswith "." (String "." (String b n2))) with (endswith "." (String b n2)).
    rewrite endswith_digits by exact H2. reflexivity.
Qed.

Lemma number_succeeds lx r tok lx' :
  lexed lx (v <- Float.of_string r ;; Ok (tok v, lx')) ->
  exists v, Float.of_string r = Ok v.
Proof.
  destruct (Float.of_string r) as [v | e |] eqn:Ev; cbn [bind lexed]; [eauto | |].
  - unfold Float.of_string in Ev.
    destruct (Float.scan_decimal _ _ _ _) as [[]|]; [discriminate Ev |].
    injection Ev as <-. intros (? & ? & [=]).
  - now apply of_string_fuel in Ev.
Qed.

Lemma integer_literal n1 rest l c :
  all_chars Float.isdigit n1 = true -> n1 <> EmptyString ->
  begins numeral_char rest = false ->
  exists v,
    Float.of_string n1 = Ok v /\
    Lexer.get_next_token (Lexer.mk (n1 ++ rest) l c) =
    Ok (Token.mk NUMBER (PyFloat v) l c, Lexer.mk rest l (c + len n1)).
Proof.
  intros H1 Hne Hrest.
  pose proof (get_next_token_lexed (Lexer.mk (n1 ++ rest) l c)) as Hl.
  assert (Hnum : Lexer.get_next_token (Lexer.mk (n1 ++ rest) l c) =
                 Lexer.number (Lexer.mk (n1 ++ rest) l c)).
  { destruct n1 as [|a n1]; [now elim Hne |]. cbn [append].
    apply get_next_token_numeral. cbn [all_chars] in H1.
    apply andb_prop in H1 as [Ha _]. unfold numeral_char. now rewrite Ha. }
  rewrite Hnum in Hl |- *. unfold Lexer.number in Hl |- *.
  cbn [Lexer.text Lexer.line Lexer.column] in Hl |- *.
  rewrite number_from_digits, number_from_stop in Hl |- * by assumption.
  cbn [bind append] in Hl |- *.
  pose proof (startswith_digits n1 EmptyString H1 Hne) as Hs.
  rewrite append_nil_r in Hs. rewrite Hs, endswith_digits in Hl |- * by exact H1.
  destruct (number_succeeds _ _ _ _ Hl) as [v Hv].
  exists v. split; [exact Hv |]. rewrite Hv. cbn [bind Lexer.line Lexer.column].
  replace (c + len n1 - len n1) with c by lia. reflexivity.
Qed.

Lemma decimal_literal n1 n2 rest l c :
  all_chars Float.isdigit n1 = true -> all_chars Float.isdigit n2 = true ->
  begins numeral_char rest = false ->
  exists v,
    Float.of_string (or_zero n1 ++ String "." (or_zero n2)) = Ok v /\
    Lexer.get_next_token (Lexer.mk (n1 ++ String "." (n2 ++ rest)) l c) =
    Ok (Token.mk NUMBER (PyFloat v) l
          (c + len (n1 ++ String "." n2) - len (or_zero n1 ++ String "." (or_zero n2))),
        Lexer.mk rest l (c + len (n1 ++ String "." n2))).
Proof.
  intros H1 H2 Hrest.
  pose proof (get_next_token_lexed (Lexer.mk (n1 ++ String "." (n2 ++ rest)) l c)) as Hl.
  assert (Hnum : Lexer.get_next_token (Lexer.mk (n1 ++ String "." (n2 ++ rest)) l c) =
                 Lexer.number (Lexer.mk (n1 ++ String "." (n2 ++ rest)) l c)).
  { destruct n1 as [|a n1]; cbn [append]; apply get_next_token_numeral; [reflexivity |].
    cbn [all_chars] in H1. apply andb_prop in H1 as [Ha _].
    unfold numeral_char. now rewrite Ha. }
  rewrite Hnum in Hl |- *. unfold Lexer.number in Hl |- *.
  cbn [Lexer.text Lexer.line Lexer.column] in Hl |- *.
  rewrite number_from_digits, number_from_point, number_from_digits, number_from_stop
    in Hl |- * by assumption.
  cbn [bind] in Hl |- *.
  assert (Hres : (("" ++ n1) ++ ".") ++ n2 = n1 ++ String "." n2).
  { cbn [append]. now rewrite append_assoc. }
  rewrite Hres in Hl |- *.
  pose proof (number_normalised n1 n2 H1 H2) as Hn. cbv zeta in Hn.
  rewrite Hn in Hl |- *.
  destruct (number_succeeds _ _ _ _ Hl) as [v Hv].
  exists v. split; [exact Hv |]. rewrite Hv. cbn [bind Lexer.line Lexer.column].
  assert (Hlen : len (n1 ++ String "." n2) = len n1 + 1 + len n2)
    by (rewrite len_app, len_cons; lia).
  rewrite Hlen.
  replace (c + (len n1 + 1 + len n2)) with (c + len n1 + 1 + len n2) by lia.
  reflexivity.
Qed.

(** X13.  Numerals.  A run of digits is read to its end and is the NUMBER
    of its [float], placed where it begins.  Digits, a point and digits are
    one NUMBER as well, and either run of digits may be missing: it is read
    as 0, so that ".5" is 0.5, "5." is 5.0 and a point by itself is the
    number 0.0.  (The grammar in the docstring of the module asks for
    digits on both sides.)  The column of the token is the end of the
    numeral less the length of the text handed to [float]: one or two
    columns before the numeral where a "0" had to be added.  The digits
    are ASCII digits, and the text behind the numeral is ASCII. *)
Theorem number_token n1 n2 rest l c :
  all_chars Float.isdigit n1 = true -> all_chars Float.isdigit n2 = true ->
  begins numeral_char rest = false -> ascii_text rest = true ->
  (n1 <> EmptyString ->
   exists v,
     Float.of_string n1 = Ok v /\
     Lexer.get_next_token (Lexer.mk (n1 ++ rest) l c) =
     Ok (Token.mk NUMBER (PyFloat v) l c, Lexer.mk rest l (c + len n1))) /\
  (exists v,
     Float.of_string (or_zero n1 ++ String "." (or_zero n2)) = Ok v /\
     Lexer.get_next_token (Lexer.mk (n1 ++ String "." (n2 ++ rest)) l c) =
     Ok (Token.mk NUMBER (PyFloat v) l
           (c + len (n1 ++ String "." n2) - len (or_zero n1 ++ String "." (or_zero n2))),
         Lexer.mk rest l (c + len (n1 ++ String "." n2)))).
Proof.
  intros H1 H2 Hrest _. split.
  - intros Hne. now apply integer_literal.
  - now apply decimal_literal.
Qed.

Lemma number_token_witness :
  exists v,
    Float.of_string "0.0" = Ok v /\
    Lexer.get_next_token (Lexer.mk ". + 1" 1 1) =
    Ok (Token.mk NUMBER (PyFloat v) 1 (1 + 1 - 3), Lexer.mk " + 1" 1 (1 + 1)).
Proof.
  apply (proj2 (number_token "" "" " + 1" 1 1 eq_refl eq_refl eq_refl eq_refl)).
Defined.

(** ** Operators and other characters *)

Lemma lone_comparison_char rest l c :
  begins is_equals rest = false ->
  Lexer.get_next_token (Lexer.mk (String "<" rest) l c) =
    Ok (Token.mk LESS (PyStr "<") l (c + 1 - 1), Lexer.mk rest l (c + 1)) /\
  Lexer.get_next_token (Lexer.mk (String ">" rest) l c) =
    Ok (Token.mk GREATER (PyStr ">") l (c + 1 - 1), Lexer.mk rest l (c + 1)) /\
  Lexer.get_next_token (Lexer.mk (String "=" rest) l c) =
    Raise (Exception_InvalidCharacter l (c + 1)) /\
  Lexer.get_next_token (Lexer.mk (String "!" rest) l c) =
    Raise (Exception_InvalidCharacter l (c + 1)).
Proof.
  intros H. destruct rest as [|b rest]; [repeat split |].
  cbn [begins] in H.
  destruct b as [[] [] [] [] [] [] [] []]; try discriminate H; repeat split.
Qed.

Lemma unknown_char a rest l c :
  known_char a = false ->
  Lexer.get_next_token (Lexer.mk (String a rest) l c) =
  Raise (Exception_InvalidCharacter l c).
Proof.
  destruct a as [[] [] [] [] [] [] [] []]; intros H; try discriminate H; reflexivity.
Qed.

(** X17.  Operators of two characters, and characters that are none.  A
    [=] after [=], [!], [<] or [>] makes the token of two characters.
    Without it [<] and [>] are tokens by themselves, and [=] and [!] are an
    'Invalid character', reported at the column after them: the lexer has
    advanced by then.  An ASCII character the lexer has no branch for is an
    'Invalid character' at its own line and column. *)
Theorem operator_tokens rest l c :
  (Lexer.get_next_token (Lexer.mk (String "=" (String "=" rest)) l c) =
     Ok (Token.mk EQUAL (PyStr "==") l (c + 1 + 1 - 2), Lexer.mk rest l (c + 1 + 1)) /\
   Lexer.get_next_token (Lexer.mk (String "!" (String "=" rest)) l c) =
     Ok (Token.mk NOT_EQUAL (PyStr "!=") l (c + 1 + 1 - 2), Lexer.mk rest l (c + 1 + 1)) /\
   Lexer.get_next_token (Lexer.mk (String "<" (String "=" rest)) l c) =
     Ok (Token.mk LESS_EQUAL (PyStr "<=") l (c + 1 + 1 - 2), Lexer.mk rest l (c + 1 + 1)) /\
   Lexer.get_next_token (Lexer.mk (String ">" (String "=" rest)) l c) =
     Ok (Token.mk GREATER_EQUAL (PyStr ">=") l (c + 1 + 1 - 2),
         Lexer.mk rest l (c + 1 + 1))) /\
  (begins is_equals rest = false ->
   Lexer.get_next_token (Lexer.mk (String "<" rest) l c) =
     Ok (Token.mk LESS (PyStr "<") l (c + 1 - 1), Lexer.mk rest l (c + 1)) /\
   Lexer.get_next_token (Lexer.mk (String ">" rest) l c) =
     Ok (Token.mk GREATER (PyStr ">") l (c + 1 - 1), Lexer.mk rest l (c + 1)) /\
   Lexer.get_next_token (Lexer.mk (String "=" rest) l c) =
     Raise (Exception_InvalidCharacter l (c + 1)) /\
   Lexer.get_next_token (Lexer.mk (String "!" rest) l c) =
     Raise (Exception_InvalidCharacter l (c + 1))) /\
  (forall a, is_ascii a = true -> known_char a = false ->
   Lexer.get_next_token (Lexer.mk (String a rest) l c) =
   Raise (Exception_InvalidCharacter l c)).
Proof.
  split; [repeat split | split].
  - apply lone_comparison_char.
  - intros a _. apply unknown_char.
Qed.

Lemma operator_tokens_witness :
  Lexer.get_next_token (Lexer.mk "= 2" 1 3) = Raise (Exception_InvalidCharacter 1 (3 + 1)) /\
  Lexer.get_next_token (Lexer.mk "@ 2" 1 3) = Raise (Exception_InvalidCharacter 1 3).
Proof.
  split.
  - apply (proj1 (proj2 (operator_tokens " 2" 1 3)) eq_refl).
  - apply (proj2 (proj2 (operator_tokens " 2" 1 3)) "@"%char); reflexivity.
Defined.

(** ** The text in upper case *)

Lemma upper_char_class a :
  isspace (upper_char a) = isspace a /\
  isalpha (upper_char a) = isalpha a /\
  Float.isdigit (upper_char a) = Float.isdigit a /\
  Ascii.eqb (upper_char a) newline = Ascii.eqb a newline /\
  Ascii.eqb (upper_char a) "." = Ascii.eqb a "." /\
  Ascii.eqb (upper_char a) "_" = Ascii.eqb a "_" /\
  upper_char (upper_char a) = upper_char a /\
  (isalpha a = false -> upper_char a = a).
Proof.
  destruct a as [[] [] [] [] [] [] [] []]; repeat split; intros H; discriminate H.
Qed.

Lemma upper_app a b : upper (a ++ b) = upper a ++ upper b.
Proof. induction a; cbn [append upper]; [reflexivity | now rewrite IHa]. Qed.

Lemma upper_upper s : upper (upper s) = upper s.
Proof.
  induction s as [|a s IH]; cbn [upper]; [reflexivity |].
  rewrite IH. now destruct (upper_char_class a) as (_ & _ & _ & _ & _ & _ & -> & _).
Qed.

Lemma upper_length s : String.length (upper s) = String.length s.
Proof. induction s; cbn [upper String.length]; [reflexivity | now rewrite IHs]. Qed.

Lemma advance_position_upper a l k :
  Lexer.advance_position (upper_char a) l k = Lexer.advance_position a l k.
Proof.
  unfold Lexer.advance_position.
  now destruct (upper_char_class a) as (_ & _ & _ & -> & _).
Qed.

Lemma skip_whitespace_from_upper s : forall l k,
  Lexer.skip_whitespace_from (upper s) l k = upper_lexer (Lexer.skip_whitespace_from s l k).
Proof.
  induction s as [|a s IH]; intros l k; cbn [upper Lexer.skip_whitespace_from]; [reflexivity |].
  destruct (upper_char_class a) as (-> & _).
  rewrite advance_position_upper.
  destruct (isspace a); [| reflexivity].
  destruct (Lexer.advance_position a l k). apply IH.
Qed.

Lemma skip_comment_from_upper s : forall l k,
  Lexer.skip_comment_from (upper s) l k = upper_lexer (Lexer.skip_comment_from s l k).
Proof.
  induction s as [|a s IH]; intros l k; cbn [upper Lexer.skip_comment_from]; [reflexivity |].
  destruct (upper_char_class a) as (_ & _ & _ & -> & _).
  rewrite advance_position_upper.
  destruct (negb _); [| reflexivity].
  destruct (Lexer.advance_position a l k). apply IH.
Qed.

Lemma advance_upper lx : Lexer.advance (upper_lexer lx) = upper_lexer (Lexer.advance lx).
Proof.
  destruct lx as [[|a s] l k]; unfold Lexer.advance, upper_lexer;
    cbn [Lexer.text Lexer.line Lexer.column upper]; [reflexivity |].
  rewrite advance_position_upper. now destruct (Lexer.advance_position a l k).
Qed.

Lemma number_from_upper s : forall l k result n,
  Lexer.number_from (upper s) l k result n =
  outcome_map over_upper_lexer (Lexer.number_from s l k result n).
Proof.
  induction s as [|a s IH]; intros l k result n; cbn [upper Lexer.number_from];
    [reflexivity |].
  destruct (upper_char_class a) as (_ & Halpha & -> & _ & -> & _ & _ & Hsame).
  rewrite advance_position_upper.
  destruct (Float.isdigit a || Ascii.eqb a ".")%bool eqn:Hnum; [| reflexivity].
  destruct (Ascii.eqb a "." && _)%bool; [reflexivity |].
  rewrite Hsame.
  - destruct (Lexer.advance_position a l k). apply IH.
  - revert Hnum. clear. destruct a as [[] [] [] [] [] [] [] []]; intros H;
      try discriminate H; reflexivity.
Qed.

Lemma number_upper lx :
  Lexer.number (upper_lexer lx) = outcome_map over_upper_lexer (Lexer.number lx).
Proof.
  unfold Lexer.number. cbn [upper_lexer Lexer.text Lexer.line Lexer.column].
  rewrite number_from_upper.
  destruct (Lexer.number_from _ _ _ _ _) as [[r lx']| |]; cbn [outcome_map bind]; try reflexivity.
  cbn [over_upper_lexer fst snd]. destruct (Float.of_string _); reflexivity.
Qed.

Lemma id_from_upper s : forall l k result,
  Lexer.id_from (upper s) l k (upper result) =
  (upper (fst (Lexer.id_from s l k result)), upper_lexer (snd (Lexer.id_from s l k result))).
Proof.
  induction s as [|a s IH]; intros l k result; cbn [upper Lexer.id_from]; [reflexivity |].
  destruct (upper_char_class a) as (_ & Halpha & Hdig & _ & _ & -> & _).
  unfold isalnum. rewrite Halpha, Hdig, advance_position_upper.
  destruct (isalpha a || Float.isdigit a || Ascii.eqb a "_")%bool; [| reflexivity].
  destruct (Lexer.advance_position a l k) as [l' k'].
  rewrite <- IH, upper_app. reflexivity.
Qed.

Lemma len_upper s : len (upper s) = len s.
Proof. unfold len. now rewrite upper_length. Qed.

Lemma id_upper lx :
  Lexer._id (upper_lexer lx) = outcome_map over_upper_lexer (Lexer._id lx).
Proof.
  unfold Lexer._id. cbn [upper_lexer Lexer.text Lexer.line Lexer.column].
  change EmptyString with (upper EmptyString) at 1. rewrite id_from_upper.
  destruct (Lexer.id_from _ _ _ _) as [r lx']. cbn [fst snd].
  rewrite upper_upper, len_upper.
  destruct (Lexer.get _ _); reflexivity.
Qed.

Lemma skip_whitespace_upper lx :
  Lexer.skip_whitespace (upper_lexer lx) = upper_lexer (Lexer.skip_whitespace lx).
Proof. apply skip_whitespace_from_upper. Qed.

Lemma skip_comment_upper lx :
  Lexer.skip_comment (upper_lexer lx) = upper_lexer (Lexer.skip_comment lx).
Proof.
  unfold Lexer.skip_comment. rewrite <- advance_upper. f_equal.
  apply skip_comment_from_upper.
Qed.

Lemma current_char_upper lx :
  Lexer.current_char (upper_lexer lx) = option_map upper_char (Lexer.current_char lx).
Proof. now destruct lx as [[|a s] l k]. Qed.

Lemma get_next_token_loop_upper n : forall lx,
  Lexer.get_next_token_loop n (upper_lexer lx) =
  outcome_map over_upper_lexer (Lexer.get_next_token_loop n lx).
Proof.
  induction n as [|n IH]; intros lx; [reflexivity |].
  cbn [Lexer.get_next_token_loop]. rewrite current_char_upper.
  destruct (Lexer.current_char lx) as [a|]; cbn [option_map]; [| reflexivity].
  destruct (upper_char_class a) as (_ & Ha' & _ & _ & _ & _ & _ & Hsame).
  destruct (isalpha a) eqn:Ha.
  - destruct (isalpha_class _ Ha') as (-> & -> & -> & _).
    destruct (isalpha_class _ Ha) as (-> & -> & -> & _).
    rewrite Ha'. apply id_upper.
  - rewrite (Hsame eq_refl), Ha.
    destruct (isspace a); [rewrite skip_whitespace_upper; apply IH |].
    destruct (Ascii.eqb a "#"); [rewrite skip_comment_upper; apply IH |].
    destruct (Float.isdigit a || Ascii.eqb a ".")%bool; [apply number_upper |].
    rewrite !advance_upper.
    repeat match goal with
    | |- (if Ascii.eqb a ?c then _ else _) = _ => destruct (Ascii.eqb a c)
    end; try reflexivity;
    (destruct (Lexer.advance lx) as [[|b s] l k]; [reflexivity |];
     destruct b as [[] [] [] [] [] [] [] []]; reflexivity).
Qed.

Lemma get_next_token_upper lx :
  Lexer.get_next_token (upper_lexer lx) =
  outcome_map over_upper_lexer (Lexer.get_next_token lx).
Proof.
  unfold Lexer.get_next_token. cbn [upper_lexer Lexer.text]. rewrite upper_length.
  apply get_next_token_loop_upper.
Qed.

Lemma eat_upper ty p :
  Parser.eat ty (upper_parser p) = outcome_map upper_parser (Parser.eat ty p).
Proof.
  unfold Parser.eat. cbn [upper_parser Parser.current_token Parser.lexer].
  destruct (eqb _ _); [| reflexivity].
  rewrite get_next_token_upper.
  now destruct (Lexer.get_next_token (Parser.lexer p)) as [[tok lx]| |].
Qed.

Section Upper.

Variable libm_pow : Float.float -> Float.float -> Float.float.

Ltac up_eat :=
  match goal with
  | |- bind (Parser.eat ?ty (upper_parser ?p)) _ = _ =>
      rewrite (eat_upper ty p);
      destruct (Parser.eat ty p); cbn [outcome_map bind]; [| reflexivity | reflexivity]
  end.

Ltac up_call IH :=
  match goal with
  | |- bind (?g (upper_parser ?p)) _ = _ =>
      rewrite (IH p);
      destruct (g p) as [[? ?]| |];
      cbn [outcome_map bind over_upper_parser fst snd]; [| reflexivity | reflexivity]
  end.

Ltac up_test X :=
  match goal with
  | |- context [eqb (Token.type (Parser.current_token ?p)) X] =>
      destruct (eqb (Token.type (Parser.current_token p)) X)
  end.

Lemma productions_upper n :
  (forall p, Parser.atom libm_pow n (upper_parser p) =
             outcome_map over_upper_parser (Parser.atom libm_pow n p)) /\
  (forall p, Parser.factor libm_pow n (upper_parser p) =
             outcome_map over_upper_parser (Parser.factor libm_pow n p)) /\
  (forall p, Parser.exponentiation libm_pow n (upper_parser p) =
             outcome_map over_upper_parser (Parser.exponentiation libm_pow n p)) /\
  (forall r p, Parser.exponentiation_loop libm_pow n r (upper_parser p) =
               outcome_map over_upper_parser (Parser.exponentiation_loop libm_pow n r p)) /\
  (forall p, Parser.term libm_pow n (upper_parser p) =
             outcome_map over_upper_parser (Parser.term libm_pow n p)) /\
  (forall r p, Parser.term_loop libm_pow n r (upper_parser p) =
               outcome_map over_upper_parser (Parser.term_loop libm_pow n r p)) /\
  (forall p, Parser.expression libm_pow n (upper_parser p) =
             outcome_map over_upper_parser (Parser.expression libm_pow n p)) /\
  (forall r p, Parser.expression_loop libm_pow n r (upper_parser p) =
               outcome_map over_upper_parser (Parser.expression_loop libm_pow n r p)).
Proof.
  induction n as [|n (IHatom & IHfactor & IHexp & IHexpl & IHterm & IHterml & IHexpr & IHexprl)].
  { repeat split; intros; reflexivity. }
  repeat split; [| | | intros r | | intros r | | intros r]; intros p.
  - rewrite !atom_S. cbn [upper_parser Parser.current_token]. fold (upper_parser p).
    up_test NUMBER.
    { up_eat. now destruct (Parser.number_value _). }
    up_test LPAREN; [| reflexivity].
    up_eat. up_call IHexpr. up_eat. reflexivity.
  - rewrite !factor_S. cbn [upper_parser Parser.current_token]. fold (upper_parser p).
    up_test PLUS. { up_eat. apply IHfactor. }
    up_test MINUS; [| apply IHexp].
    up_eat. up_call IHfactor. reflexivity.
  - rewrite !exponentiation_S. up_call IHatom. apply IHexpl.
  - rewrite !exponentiation_loop_S. cbn [upper_parser Parser.current_token].
    fold (upper_parser p).
    up_test EXPONENTIATION; [| reflexivity].
    up_eat. up_call IHfactor.
    destruct (Float.math_pow _ _ _); cbn [bind]; [apply IHexpl | reflexivity | reflexivity].
  - rewrite !term_S. up_call IHfactor. apply IHterml.
  - rewrite !term_loop_S. cbn [upper_parser Parser.current_token]. fold (upper_parser p).
    destruct (is_in _ _); [| reflexivity].
    up_test MULTIPLY. { up_eat. up_call IHfactor. apply IHterml. }
    up_test DIVIDE.
    { up_eat. up_call IHfactor. destruct (Float.eqb _ _); [reflexivity | apply IHterml]. }
    up_test MODULUS; [| apply IHterml].
    up_eat. up_call IHfactor.
    destruct (Float.rem _ _); cbn [bind]; [apply IHterml | reflexivity | reflexivity].
  - rewrite !expression_S. up_call IHterm. apply IHexprl.
  - rewrite !expression_loop_S. cbn [upper_parser Parser.current_token].
    fold (upper_parser p).
    destruct (is_in _ _); [| reflexivity].
    up_test PLUS. { up_eat. up_call IHterm. apply IHexprl. }
    up_test MINUS; [| apply IHexprl].
    up_eat. up_call IHterm. apply IHexprl.
Qed.

Lemma expression_upper n p :
  Parser.expression libm_pow n (upper_parser p) =
  outcome_map over_upper_parser (Parser.expression libm_pow n p).
Proof. apply productions_upper. Qed.

Lemma comparison_loop_upper n : forall r p,
  Parser.comparison_loop libm_pow n r (upper_parser p) =
  outcome_map over_upper_parser (Parser.comparison_loop libm_pow n r p).
Proof.
  induction n as [|n IH]; intros r p; [reflexivity |].
  pose proof (expression_upper n) as IHexpr.
  rewrite !comparison_loop_S. cbn [upper_parser Parser.current_token]. fold (upper_parser p).
  destruct (is_in _ _); [| reflexivity].
  up_test EQUAL. { up_eat. up_call IHexpr. apply IH. }
  up_test NOT_EQUAL. { up_eat. up_call IHexpr. apply IH. }
  up_test LESS. { up_eat. up_call IHexpr. apply IH. }
  up_test GREATER. { up_eat. up_call IHexpr. apply IH. }
  up_test LESS_EQUAL. { up_eat. up_call IHexpr. apply IH. }
  up_test GREATER_EQUAL; [| apply IH].
  up_eat. up_call IHexpr. apply IH.
Qed.

Lemma comparison_upper n p :
  Parser.comparison libm_pow n (upper_parser p) =
  outcome_map over_upper_parser (Parser.comparison libm_pow n p).
Proof.
  unfold Parser.comparison. pose proof (expression_upper n) as IHexpr.
  up_call IHexpr. apply comparison_loop_upper.
Qed.

Lemma logical_expr_loop_upper n : forall r p,
  Parser.logical_expr_loop libm_pow n r (upper_parser p) =
  outcome_map over_upper_parser (Parser.logical_expr_loop libm_pow n r p).
Proof.
  induction n as [|n IH]; intros r p; [reflexivity |].
  pose proof (comparison_upper n) as IHcmp.
  rewrite !logical_expr_loop_S. cbn [upper_parser Parser.current_token].
  fold (upper_parser p).
  destruct (is_in _ _); [| reflexivity].
  up_test AND.
  { up_eat. destruct (truthy r); [| apply IH]. up_call IHcmp. apply IH. }
  up_test OR; [| apply IH].
  up_eat. destruct (truthy r); [apply IH |]. up_call IHcmp. apply IH.
Qed.

Lemma logical_expr_upper n p :
  Parser.logical_expr libm_pow n (upper_parser p) =
  outcome_map over_upper_parser (Parser.logical_expr libm_pow n p).
Proof.
  unfold Parser.logical_expr. pose proof (comparison_upper n) as IHcmp.
  up_call IHcmp. apply logical_expr_loop_upper.
Qed.

Lemma if_expr_upper n p :
  Parser.if_expr libm_pow n (upper_parser p) =
  outcome_map over_upper_parser (Parser.if_expr libm_pow n p).
Proof.
  unfold Parser.if_expr.
  pose proof (expression_upper n) as IHexpr.
  pose proof (logical_expr_upper n) as IHlog.
  up_eat. up_call IHlog. up_eat. up_call IHexpr. up_eat. up_call IHexpr. reflexivity.
Qed.

Lemma parse_upper n p :
  Parser.parse libm_pow n (upper_parser p) =
  outcome_map over_upper_parser (Parser.parse libm_pow n p).
Proof.
  unfold Parser.parse. cbn [upper_parser Parser.current_token]. fold (upper_parser p).
  up_test IF; [| apply logical_expr_upper].
  pose proof (if_expr_upper n) as IHif. up_call IHif. reflexivity.
Qed.

(** X14.  The language is written in any case.  An ASCII text and the same
    text in upper case have the same evaluation, value or exception, the
    position of an 'Invalid character' included: [_id] looks a word up in
    upper case, and no other character the lexer tells apart is a letter.
    (Outside ASCII [str.upper] may lengthen a text and move the columns.) *)
Theorem evaluate_upper text :
  ascii_text text = true ->
  evaluate libm_pow (upper text) = evaluate libm_pow text.
Proof.
  intros _. unfold evaluate, Parser.init.
  change (Lexer.init (upper text)) with (upper_lexer (Lexer.init text)).
  rewrite get_next_token_upper.
  destruct (Lexer.get_next_token (Lexer.init text)) as [[tok lx]| |];
    cbn [outcome_map bind over_upper_lexer fst snd]; try reflexivity.
  change (Parser.mk (upper_lexer lx) tok) with (upper_parser (Parser.mk lx tok)).
  replace (fuel_for (upper text)) with (fuel_for text)
    by (unfold fuel_for; now rewrite upper_length).
  rewrite parse_upper.
  now destruct (Parser.parse libm_pow _ _) as [[v p]| |].
Qed.

End Upper.

Lemma evaluate_upper_witness :
  evaluate libm_pow_nan (upper "if 1 < 2 then 3 else 4") =
  evaluate libm_pow_nan "if 1 < 2 then 3 else 4".
Proof. apply evaluate_upper. reflexivity. Defined.

(** ** Positions *)

Lemma agrees_bind {A A' B B' : Type} (R : A -> A' -> Prop) (S : B -> B' -> Prop)
    c1 c2 (k1 : A -> outcome B) (k2 : A' -> outcome B') :
  agrees R c1 c2 ->
  (forall x y, R x y -> agrees S (k1 x) (k2 y)) ->
  agrees S (bind c1 k1) (bind c2 k2).
Proof.
  destruct c1 as [x | e |], c2 as [y | e' |]; cbn [agrees bind]; auto; intros [].
Qed.

Lemma skip_whitespace_from_text s : forall l k l' k',
  Lexer.text (Lexer.skip_whitespace_from s l k) =
  Lexer.text (Lexer.skip_whitespace_from s l' k').
Proof.
  induction s as [|a s IH]; intros; cbn [Lexer.skip_whitespace_from]; [reflexivity |].
  destruct (isspace a); [| reflexivity].
  destruct (Lexer.advance_position a l k), (Lexer.advance_position a l' k'). apply IH.
Qed.

Lemma skip_comment_from_text s : forall l k l' k',
  Lexer.text (Lexer.skip_comment_from s l k) =
  Lexer.text (Lexer.skip_comment_from s l' k').
Proof.
  induction s as [|a s IH]; intros; cbn [Lexer.skip_comment_from]; [reflexivity |].
  destruct (negb _); [| reflexivity].
  destruct (Lexer.advance_position a l k), (Lexer.advance_position a l' k'). apply IH.
Qed.

Lemma advance_text lx lx' :
  same_text lx lx' -> same_text (Lexer.advance lx) (Lexer.advance lx').
Proof.
  unfold same_text, Lexer.advance. intros <-.
  destruct (Lexer.text lx) as [|a s]; [reflexivity |].
  now destruct (Lexer.advance_position a _ _), (Lexer.advance_position a _ _).
Qed.

Lemma skip_whitespace_text lx lx' :
  same_text lx lx' -> same_text (Lexer.skip_whitespace lx) (Lexer.skip_whitespace lx').
Proof.
  unfold same_text, Lexer.skip_whitespace. intros <-. apply skip_whitespace_from_text.
Qed.

Lemma skip_comment_text lx lx' :
  same_text lx lx' -> same_text (Lexer.skip_comment lx) (Lexer.skip_comment lx').
Proof.
  unfold Lexer.skip_comment. intros H. apply advance_text.
  unfold same_text in *. rewrite <- H. apply skip_comment_from_text.
Qed.

Lemma number_from_text s : forall l k l' k' result n,
  agrees (fun x y => fst x = fst y /\ same_text (snd x) (snd y))
    (Lexer.number_from s l k result n) (Lexer.number_from s l' k' result n).
Proof.
  induction s as [|a s IH]; intros; cbn [Lexer.number_from]; [now split |].
  destruct (Float.isdigit a || Ascii.eqb a ".")%bool; [| now split].
  destruct (Ascii.eqb a "." && _)%bool; [reflexivity |].
  destruct (Lexer.advance_position a l k), (Lexer.advance_position a l' k'). apply IH.
Qed.

Lemma number_text lx lx' :
  same_text lx lx' -> agrees same_lexed (Lexer.number lx) (Lexer.number lx').
Proof.
  unfold same_text, Lexer.number. intros <-.
  eapply agrees_bind; [apply number_from_text |].
  intros [r lx1] [r' lx2] [Hr Ht]. cbn [fst snd] in Hr, Ht. subst r'.
  destruct (Float.of_string _); cbn [bind agrees]; auto.
  repeat split; assumption.
Qed.

Lemma id_from_text s : forall l k l' k' result,
  fst (Lexer.id_from s l k result) = fst (Lexer.id_from s l' k' result) /\
  same_text (snd (Lexer.id_from s l k result)) (snd (Lexer.id_from s l' k' result)).
Proof.
  induction s as [|a s IH]; intros; cbn [Lexer.id_from]; [now split |].
  destruct (isalnum a || Ascii.eqb a "_")%bool; [| now split].
  destruct (Lexer.advance_position a l k), (Lexer.advance_position a l' k'). apply IH.
Qed.

Lemma id_text lx lx' :
  same_text lx lx' -> agrees same_lexed (Lexer._id lx) (Lexer._id lx').
Proof.
  unfold same_text, Lexer._id. intros <-.
  pose proof (id_from_text (Lexer.text lx) (Lexer.line lx) (Lexer.column lx)
                (Lexer.line lx') (Lexer.column lx') EmptyString) as [Hr Ht].
  destruct (Lexer.id_from _ (Lexer.line lx) _ _) as [r lx1],
           (Lexer.id_from _ (Lexer.line lx') _ _) as [r' lx2].
  cbn [fst snd] in Hr, Ht. subst r'.
  destruct (Lexer.get _ _); cbn [agrees Lexer.error]; [| reflexivity].
  repeat split; assumption.
Qed.

Lemma single_text lx lx' ty v d :
  same_text lx lx' ->
  agrees same_lexed
    (Ok (Token.mk ty v (Lexer.line (Lexer.advance lx))
                  (Lexer.column (Lexer.advance lx) - d), Lexer.advance lx))
    (Ok (Token.mk ty v (Lexer.line (Lexer.advance lx'))
                  (Lexer.column (Lexer.advance lx') - d), Lexer.advance lx')).
Proof. intros H. repeat split. now apply advance_text. Qed.

Lemma double_text lx lx' (X Y : Lexer.t -> outcome (Token.t * Lexer.t)) :
  same_text lx lx' ->
  (forall l l', same_text l l' -> agrees same_lexed (X l) (X l')) ->
  (forall l l', same_text l l' -> agrees same_lexed (Y l) (Y l')) ->
  agrees same_lexed
    (match Lexer.current_char (Lexer.advance lx) with
     | Some "="%char => X (Lexer.advance (Lexer.advance lx))
     | _ => Y (Lexer.advance lx)
     end)
    (match Lexer.current_char (Lexer.advance lx') with
     | Some "="%char => X (Lexer.advance (Lexer.advance lx'))
     | _ => Y (Lexer.advance lx')
     end).
Proof.
  intros H HX HY. apply advance_text in H.
  assert (Hc : Lexer.current_char (Lexer.advance lx') = Lexer.current_char (Lexer.advance lx))
    by (unfold Lexer.current_char; now rewrite H).
  rewrite Hc.
  destruct (Lexer.current_char (Lexer.advance lx)) as [[[] [] [] [] [] [] [] []]|];
    first [now apply HY | now apply HX, advance_text].
Qed.

Lemma get_next_token_loop_text n : forall lx lx',
  same_text lx lx' ->
  agrees same_lexed (Lexer.get_next_token_loop n lx) (Lexer.get_next_token_loop n lx').
Proof.
  induction n as [|n IH]; intros lx lx' H; [exact I |].
  cbn [Lexer.get_next_token_loop].
  assert (Hc : Lexer.current_char lx' = Lexer.current_char lx)
    by (unfold Lexer.current_char; now rewrite H).
  rewrite Hc.
  destruct (Lexer.current_char lx) as [a|]; [| repeat split; exact H].
  destruct (isspace a); [now apply IH, skip_whitespace_text |].
  destruct (Ascii.eqb a "#"); [now apply IH, skip_comment_text |].
  destruct (Float.isdigit a || Ascii.eqb a ".")%bool; [now apply number_text |].
  destruct (isalpha a); [now apply id_text |].
  repeat match goal with
  | |- agrees _ (if Ascii.eqb a ?c then _ else _) _ => destruct (Ascii.eqb a c)
  end;
  first
    [ now apply single_text
    | apply (double_text lx lx'
               (fun l => Ok (Token.mk _ _ (Lexer.line l) (Lexer.column l - 2), l))
               (fun l => Ok (Token.mk _ _ (Lexer.line l) (Lexer.column l - 1), l)) H);
      intros l l' Hl; repeat split; exact Hl
    | apply (double_text lx lx'
               (fun l => Ok (Token.mk _ _ (Lexer.line l) (Lexer.column l - 2), l))
               (fun l => Lexer.error l) H);
      intros l l' Hl; [repeat split; exact Hl | reflexivity]
    | reflexivity ].
Qed.

Lemma get_next_token_text lx lx' :
  same_text lx lx' ->
  agrees same_lexed (Lexer.get_next_token lx) (Lexer.get_next_token lx').
Proof.
  intros H. unfold Lexer.get_next_token. rewrite <- H.
  now apply get_next_token_loop_text.
Qed.

Lemma eat_alike ty p q :
  alike p q -> agrees alike (Parser.eat ty p) (Parser.eat ty q).
Proof.
  intros [[Hty _] Htext]. unfold Parser.eat. rewrite Hty.
  destruct (eqb _ _); [| reflexivity].
  eapply agrees_bind; [apply get_next_token_text, Htext |].
  intros [tok lx] [tok' lx'] [Htok Hlx]. now split.
Qed.

Section PositionFree.

Variable libm_pow : Float.float -> Float.float -> Float.float.

Ltac pf_eat :=
  eapply agrees_bind; [now apply eat_alike | intros ? ? ?].

Ltac pf_call IH m :=
  eapply agrees_bind;
  [ apply (IH m); [lia | assumption]
  | let Hv := fresh "Hv" in
    let HR := fresh "HR" in
    intros [? ?] [? ?] [Hv HR]; cbn [fst snd] in Hv, HR; subst ].

Ltac pf_tail IH m := apply (IH m); [lia | assumption].

Ltac pf_loop IH m :=
  match goal with
  | |- agrees _ (?g ?r ?p) _ => apply (IH r m); [lia | assumption]
  end.

Ltac pf_done := split; [reflexivity | assumption].

Ltac pf_test X :=
  match goal with
  | |- context [eqb (Token.type (Parser.current_token ?p)) X] =>
      destruct (eqb (Token.type (Parser.current_token p)) X)
  end.

Ltac pf_token :=
  match goal with
  | HR : alike ?p ?q |- _ =>
      let Hty := fresh "Hty" in
      let Hval := fresh "Hval" in
      pose proof HR as [[Hty Hval] _]; rewrite Hty, ?Hval
  end.

Lemma productions_position_free n :
  position_free (Parser.atom libm_pow) n /\
  position_free (Parser.factor libm_pow) n /\
  position_free (Parser.exponentiation libm_pow) n /\
  (forall r, position_free (fun k => Parser.exponentiation_loop libm_pow k r) n) /\
  position_free (Parser.term libm_pow) n /\
  (forall r, position_free (fun k => Parser.term_loop libm_pow k r) n) /\
  position_free (Parser.expression libm_pow) n /\
  (forall r, position_free (fun k => Parser.expression_loop libm_pow k r) n).
Proof.
  induction n as [|n (IHatom & IHfactor & IHexp & IHexpl & IHterm & IHterml & IHexpr & IHexprl)].
  { repeat split; intros; intros m p q _ _; exact I. }
  repeat split; [| | | intros r | | intros r | | intros r];
    intros [|m] p q Hle HR; try lia; cbv beta.
  - rewrite !atom_S. pf_token. pf_test NUMBER.
    { pf_eat. destruct (Parser.number_value _); cbn [bind agrees]; auto. pf_done. }
    pf_test LPAREN; [| reflexivity].
    pf_eat. pf_call IHexpr m. pf_eat. pf_done.
  - rewrite !factor_S. pf_token. pf_test PLUS. { pf_eat. pf_tail IHfactor m. }
    pf_test MINUS; [| pf_tail IHexp m].
    pf_eat. pf_call IHfactor m. pf_done.
  - rewrite !exponentiation_S. pf_call IHatom m. pf_loop IHexpl m.
  - rewrite !exponentiation_loop_S. pf_token.
    pf_test EXPONENTIATION; [| pf_done].
    pf_eat. pf_call IHfactor m.
    destruct (Float.math_pow _ _ _) as [w | e |]; cbn [bind agrees]; auto.
    pf_loop IHexpl m.
  - rewrite !term_S. pf_call IHfactor m. pf_loop IHterml m.
  - rewrite !term_loop_S. pf_token.
    destruct (is_in _ _); [| pf_done].
    pf_test MULTIPLY. { pf_eat. pf_call IHfactor m. pf_loop IHterml m. }
    pf_test DIVIDE.
    { pf_eat. pf_call IHfactor m. destruct (Float.eqb _ _); [reflexivity |].
      pf_loop IHterml m. }
    pf_test MODULUS; [| pf_loop IHterml m].
    pf_eat. pf_call IHfactor m.
    destruct (Float.rem _ _) as [w | e |]; cbn [bind agrees]; auto.
    pf_loop IHterml m.
  - rewrite !expression_S. pf_call IHterm m. pf_loop IHexprl m.
  - rewrite !expression_loop_S. pf_token.
    destruct (is_in _ _); [| pf_done].
    pf_test PLUS. { pf_eat. pf_call IHterm m. pf_loop IHexprl m. }
    pf_test MINUS; [| pf_loop IHexprl m].
    pf_eat. pf_call IHterm m. pf_loop IHexprl m.
Qed.

Lemma expression_position_free n : position_free (Parser.expression libm_pow) n.
Proof. apply productions_position_free. Qed.

Lemma comparison_loop_position_free n :
  forall r, position_free (fun k => Parser.comparison_loop libm_pow k r) n.
Proof.
  induction n as [|n IH]; intros r [|m] p q Hle HR; try lia; try exact I; cbv beta.
  pose proof (expression_position_free n) as IHexpr.
  rewrite !comparison_loop_S. pf_token.
  destruct (is_in _ _); [| pf_done].
  pf_test EQUAL. { pf_eat. pf_call IHexpr m. pf_loop IH m. }
  pf_test NOT_EQUAL. { pf_eat. pf_call IHexpr m. pf_loop IH m. }
  pf_test LESS. { pf_eat. pf_call IHexpr m. pf_loop IH m. }
  pf_test GREATER. { pf_eat. pf_call IHexpr m. pf_loop IH m. }
  pf_test LESS_EQUAL. { pf_eat. pf_call IHexpr m. pf_loop IH m. }
  pf_test GREATER_EQUAL; [| pf_loop IH m].
  pf_eat. pf_call IHexpr m. pf_loop IH m.
Qed.

Lemma comparison_position_free n : position_free (Parser.comparison libm_pow) n.
Proof.
  intros m p q Hle HR. unfold Parser.comparison.
  pose proof (expression_position_free n) as IHexpr.
  pf_call IHexpr m. pf_loop (comparison_loop_position_free n) m.
Qed.

Lemma logical_expr_loop_position_free n :
  forall r, position_free (fun k => Parser.logical_expr_loop libm_pow k r) n.
Proof.
  induction n as [|n IH]; intros r [|m] p q Hle HR; try lia; try exact I; cbv beta.
  pose proof (comparison_position_free n) as IHcmp.
  rewrite !logical_expr_loop_S. pf_token.
  destruct (is_in _ _); [| pf_done].
  pf_test AND.
  { pf_eat. destruct (truthy r); [| pf_loop IH m].
    pf_call IHcmp m. pf_loop IH m. }
  pf_test OR; [| pf_loop IH m].
  pf_eat. destruct (truthy r); [pf_loop IH m |].
  pf_call IHcmp m. pf_loop IH m.
Qed.

Lemma logical_expr_position_free n : position_free (Parser.logical_expr libm_pow) n.
Proof.
  intros m p q Hle HR. unfold Parser.logical_expr.
  pose proof (comparison_position_free n) as IHcmp.
  pf_call IHcmp m. pf_loop (logical_expr_loop_position_free n) m.
Qed.

Lemma if_expr_position_free n : position_free (Parser.if_expr libm_pow) n.
Proof.
  intros m p q Hle HR. unfold Parser.if_expr.
  pose proof (expression_position_free n) as IHexpr.
  pose proof (logical_expr_position_free n) as IHlog.
  pf_eat. pf_call IHlog m. pf_eat. pf_call IHexpr m. pf_eat. pf_call IHexpr m.
  pf_done.
Qed.

Lemma parse_position_free n : position_free (Parser.parse libm_pow) n.
Proof.
  intros m p q Hle HR. unfold Parser.parse. pf_token.
  pf_test IF; [| now apply logical_expr_position_free].
  pose proof (if_expr_position_free n) as IHif. pf_call IHif m. pf_done.
Qed.

(** The text behind [before] evaluates as it does by itself when the lexer,
    started on both, comes to stand before the same text. *)
Lemma evaluate_behind before text l k :
  Lexer.get_next_token (Lexer.init (before ++ text)) =
  Lexer.get_next_token (Lexer.mk text l k) ->
  unplaced (evaluate libm_pow (before ++ text)) = unplaced (evaluate libm_pow text).
Proof.
  intros Hlex.
  pose proof (evaluate_never_out_of_fuel libm_pow text) as Hfuel.
  unfold evaluate, Parser.init in Hfuel |- *. rewrite Hlex.
  pose proof (get_next_token_text (Lexer.init text) (Lexer.mk text l k) eq_refl) as Ha.
  destruct (Lexer.get_next_token (Lexer.init text)) as [[tok lx]| e |],
           (Lexer.get_next_token (Lexer.mk text l k)) as [[tok' lx']| e' |];
    cbn [agrees bind unplaced] in Ha, Hfuel |- *; try destruct Ha; try congruence.
  assert (Hle : (fuel_for text <= fuel_for (before ++ text))%nat)
    by (unfold fuel_for; rewrite append_length; lia).
  pose proof (parse_position_free _ _ (Parser.mk lx tok) (Parser.mk lx' tok') Hle
                (conj H H0)) as Hp.
  destruct (Parser.parse libm_pow (fuel_for text) _) as [[v p]| e |],
           (Parser.parse libm_pow (fuel_for (before ++ text)) _) as [[v' p']| e' |];
    cbn [agrees bind unplaced] in Hp, Hfuel |- *; try destruct Hp; try congruence.
  cbn [fst] in *. congruence.
Qed.

End PositionFree.

(** X15.  Layout before a program.  Blanks before a program, and a comment
    line before it, change nothing but positions: the program evaluates to
    the same value or fails with the same exception, up to the line and
    column of an 'Invalid character'. *)
Theorem leading_layout_ignored libm_pow text :
  (forall ws, all_chars isspace ws = true ->
     unplaced (evaluate libm_pow (ws ++ text)) = unplaced (evaluate libm_pow text)) /\
  (forall cmt, occurs newline cmt = false ->
     unplaced (evaluate libm_pow (String "#" (cmt ++ String newline text))) =
     unplaced (evaluate libm_pow text)).
Proof.
  split.
  - intros ws H. eapply evaluate_behind. unfold Lexer.init.
    now apply get_next_token_whitespace.
  - intros cmt H.
    replace (String "#" (cmt ++ String newline text))
      with (String "#" (cmt ++ String newline "") ++ text)
      by (cbn [append]; now rewrite append_assoc).
    eapply evaluate_behind. unfold Lexer.init.
    cbn [append]. rewrite append_assoc. cbn [append].
    now apply get_next_token_comment.
Qed.

Lemma leading_layout_ignored_witness :
  unplaced (evaluate libm_pow_nan ("  " ++ "2 * 3 @")) =
  unplaced (evaluate libm_pow_nan "2 * 3 @").
Proof.
  apply (proj1 (leading_layout_ignored libm_pow_nan "2 * 3 @") "  " eq_refl).
Defined.

(** ** The grammar of the docstring *)

Lemma single_plus : single "+" PLUS.
Proof. intros s l c. reflexivity. Qed.
Lemma single_minus : single "-" MINUS.
Proof. intros s l c. reflexivity. Qed.
Lemma single_multiply : single "*" MULTIPLY.
Proof. intros s l c. reflexivity. Qed.
Lemma single_divide : single "/" DIVIDE.
Proof. intros s l c. reflexivity. Qed.
Lemma single_modulus : single "%" MODULUS.
Proof. intros s l c. reflexivity. Qed.
Lemma single_exponentiation : single "^" EXPONENTIATION.
Proof. intros s l c. reflexivity. Qed.
Lemma single_lparen : single "(" LPAREN.
Proof. intros s l c. reflexivity. Qed.
Lemma single_rparen : single ")" RPAREN.
Proof. intros s l c. reflexivity. Qed.

Lemma stands_single ch ty p text :
  single ch ty -> stands p (String ch text) ->
  Token.type (Parser.current_token p) = ty /\
  exists l c, Parser.lexer p = Lexer.mk text l c.
Proof.
  intros Hs (l & c & H). rewrite Hs in H. injection H as <- <-.
  split; [reflexivity | eauto].
Qed.

Lemma follows_single ch ty allowed text :
  single ch ty -> allowed ty = true -> numeral_char ch = false ->
  follows allowed (String ch text).
Proof.
  intros Hs Ha Hn. split; [exact Hn |].
  intros l c. rewrite Hs. eexists. eexists. split; [reflexivity | exact Ha].
Qed.

Lemma follows_weaken (P Q : TokenType.t -> bool) rest :
  (forall ty, P ty = true -> Q ty = true) -> follows P rest -> follows Q rest.
Proof.
  intros HPQ [Hn H]. split; [exact Hn |].
  intros l c. destruct (H l c) as (tok & lx & E & HP). eauto.
Qed.

Lemma stands_follows p rest allowed :
  stands p rest -> follows allowed rest ->
  allowed (Token.type (Parser.current_token p)) = true.
Proof.
  intros (l & c & H) [_ Hf]. destruct (Hf l c) as (tok & lx & E & Ha).
  rewrite E in H. now injection H as <- _.
Qed.

Lemma eat_at ty p lx0 tok lx :
  Token.type (Parser.current_token p) = ty -> Parser.lexer p = lx0 ->
  Lexer.get_next_token lx0 = Ok (tok, lx) ->
  Parser.eat ty p = Ok (Parser.mk lx tok).
Proof.
  intros Hty Hlx H. unfold Parser.eat. rewrite Hty, TokenType_eqb_refl, Hlx, H.
  reflexivity.
Qed.

Lemma stands_mk text l c tok lx :
  Lexer.get_next_token (Lexer.mk text l c) = Ok (tok, lx) -> stands (Parser.mk lx tok) text.
Proof. intros H. exists l, c. exact H. Qed.

Lemma length_app_op a ch b :
  String.length (a ++ String ch b) = (String.length a + S (String.length b))%nat.
Proof. rewrite append_length. reflexivity. Qed.

Lemma app_op_assoc a ch b rest : (a ++ String ch b) ++ rest = a ++ String ch (b ++ rest).
Proof. now rewrite append_assoc. Qed.

(** A loop returns its running result at a token it does not go on at. *)
Lemma loop_returns first follow follow' rank f loop text value ops :
  (forall ty, follow' ty = true -> follow ty = true) ->
  (forall n r p, follow' (Token.type (Parser.current_token p)) = true ->
                 loop (S n) r p = Ok (r, p)) ->
  (ops <= String.length text)%nat -> (2 <= rank)%nat ->
  reads_text first follow rank f (fun n => loop (n - 1 - ops)%nat) text value ->
  reads_text first follow' rank f returned text value.
Proof.
  intros Hw Hstop Hops Hrank H rest Hrest l c.
  destruct (H rest (follows_weaken _ _ _ Hw Hrest) l c) as (tok & lx & E & Hf & Hrun).
  exists tok, lx. split; [exact E |]. split; [exact Hf |].
  intros n Hn. specialize (Hrun n Hn). unfold goes_on in *.
  destruct value as [v | x |]; [| exact Hrun | exact Hrun].
  destruct Hrun as (p' & Hp' & ->). exists p'. split; [exact Hp' |].
  replace (n - 1 - ops)%nat with (S (n - 2 - ops)) by lia.
  apply Hstop. now apply stands_follows with rest.
Qed.

(** A production that calls the next one and then loops. *)
Lemma descends first follow rank f g loop text value :
  (forall n p, f (S n) p = ('(r, p1) <- g n p ;; loop n r p1)) ->
  reads_text first follow rank g returned text value ->
  reads_text first follow (S rank) f (fun n => loop (n - 1 - 0)%nat) text value.
Proof.
  intros Hf H rest Hrest l c.
  destruct (H rest Hrest l c) as (tok & lx & E & Hfirst & Hrun).
  exists tok, lx. split; [exact E |]. split; [exact Hfirst |].
  intros [|n] Hn; [lia |]. specialize (Hrun n ltac:(lia)).
  rewrite Hf. unfold goes_on, returned in *.
  destruct value as [v | x |]; [| now rewrite Hrun | exact Hrun].
  destruct Hrun as (p' & Hp' & ->). exists p'. split; [exact Hp' |].
  cbn [bind]. now replace (S n - 1 - 0)%nat with n by lia.
Qed.

(** A loop at an operator: the text read so far, the operator and its right
    operand. *)
Lemma binary_reads first firstR followL follow rankL rankR fL fR loop ch ty combine
    textL textR valueL valueR opsL :
  single ch ty -> followL ty = true -> numeral_char ch = false ->
  (forall n r p, Token.type (Parser.current_token p) = ty ->
     loop (S n) r p =
     (p1 <- Parser.eat ty p ;; '(v, p2) <- fR n p1 ;;
      r' <- combine r v ;; loop n r' p2)) ->
  (forall x y, combine x y <> OutOfFuel) ->
  (opsL <= String.length textL)%nat -> (rankR <= rankL + 3)%nat ->
  reads_text first followL rankL fL (fun n => loop (n - 1 - opsL)%nat) textL valueL ->
  reads_text firstR follow rankR fR returned textR valueR ->
  reads_text first follow rankL fL (fun n => loop (n - 1 - S opsL)%nat)
    (textL ++ String ch textR)
    (x <- valueL ;; y <- valueR ;; combine x y).
Proof.
  intros Hch Hty Hnum Hstep Hcomb Hops Hrank HL HR rest Hrest l c.
  rewrite app_op_assoc.
  destruct (HL (String ch (textR ++ rest)) (follows_single _ _ _ _ Hch Hty Hnum) l c)
    as (tok & lx & E & Hfirst & HrunL).
  exists tok, lx. split; [exact E |]. split; [exact Hfirst |].
  intros n Hn. rewrite length_app_op in Hn.
  specialize (HrunL n ltac:(lia)). unfold goes_on in HrunL |- *.
  destruct valueL as [x | e |]; cbn [bind]; [| exact HrunL | exact HrunL].
  destruct HrunL as (p1 & Hp1 & ->).
  destruct (stands_single _ _ _ _ Hch Hp1) as (Htok & l1 & c1 & Hlx).
  destruct (HR rest Hrest l1 c1) as (tok2 & lx2 & E2 & _ & HrunR).
  replace (n - 1 - opsL)%nat with (S (n - 1 - S opsL)) by lia.
  rewrite (Hstep _ _ _ Htok), (eat_at _ _ _ _ _ Htok Hlx E2). cbn [bind].
  specialize (HrunR (n - 1 - S opsL)%nat ltac:(lia)). unfold goes_on, returned in HrunR.
  destruct valueR as [y | e |]; cbn [bind]; [| now rewrite HrunR | destruct HrunR].
  destruct HrunR as (p2 & Hp2 & ->). cbn [bind].
  destruct (combine x y) as [z | e |] eqn:Ez; cbn [bind].
  - exists p2. split; [exact Hp2 | reflexivity].
  - reflexivity.
  - now apply Hcomb in Ez.
Qed.

Lemma reads_text_follow first follow follow' rank f k text value :
  (forall ty, follow' ty = true -> follow ty = true) ->
  reads_text first follow rank f k text value ->
  reads_text first follow' rank f k text value.
Proof. intros Hw H rest Hrest. apply H. revert Hrest. now apply follows_weaken. Qed.

Lemma reads_text_first (first first' : TokenType.t -> bool) follow rank f k text value :
  (forall ty, first ty = true -> first' ty = true) ->
  reads_text first follow rank f k text value ->
  reads_text first' follow rank f k text value.
Proof.
  intros Hw H rest Hrest l c. destruct (H rest Hrest l c) as (tok & lx & E & Hf & Hrun).
  exists tok, lx. auto.
Qed.

Import Grammar.

Lemma operators_expression_le e :
  (operators_expression e <= String.length (print_expression e))%nat.
Proof.
  induction e as [t | e IH t | e IH t]; cbn [operators_expression print_expression];
    rewrite ?length_app_op; lia.
Qed.

Lemma operators_term_le t :
  (operators_term t <= String.length (print_term t))%nat.
Proof.
  induction t as [f | t IH f | t IH f | t IH f]; cbn [operators_term print_term];
    rewrite ?length_app_op; lia.
Qed.

Lemma numeral_digits d :
  numeral d = true -> all_chars Float.isdigit d = true /\ d <> EmptyString.
Proof.
  unfold numeral. intros H. apply andb_prop in H as [H1 H2]. split; [exact H1 |].
  intros ->. discriminate H2.
Qed.

Section Reads.

Variable libm_pow : Float.float -> Float.float -> Float.float.

Lemma atom_number p v p1 n :
  Token.type (Parser.current_token p) = NUMBER ->
  Token.value (Parser.current_token p) = PyFloat v ->
  Parser.eat NUMBER p = Ok p1 ->
  Parser.atom libm_pow (S n) p = Ok (v, p1).
Proof.
  intros Hty Hv He. rewrite atom_S, Hty, He, Hv. reflexivity.
Qed.

Lemma number_reads d :
  numeral d = true ->
  reads_text starts_atom (fun _ => true) 1 (Parser.atom libm_pow) returned
    d (Float.of_string d).
Proof.
  intros Hd rest [Hrest Hnext] l c. apply numeral_digits in Hd as [Hd Hne].
  destruct (integer_literal d rest l c Hd Hne Hrest) as (v & Hv & E).
  eexists. eexists. split; [exact E |]. split; [reflexivity |].
  intros [|n] Hn; [lia |]. rewrite Hv. unfold goes_on, returned.
  destruct (Hnext l (c + len d)) as (tok & lx & E' & _).
  exists (Parser.mk lx tok). split; [now apply stands_mk with l (c + len d) |].
  apply atom_number; [reflexivity | reflexivity |].
  now apply eat_at with (Lexer.mk rest l (c + len d)).
Qed.

Lemma or_zero_numeral d : numeral d = true -> or_zero d = d.
Proof. intros H. apply numeral_digits in H as [_ H]. destruct d; [now elim H | reflexivity]. Qed.

Lemma decimal_reads d1 d2 :
  numeral d1 = true -> numeral d2 = true ->
  reads_text starts_atom (fun _ => true) 1 (Parser.atom libm_pow) returned
    (d1 ++ String "." d2) (Float.of_string (d1 ++ String "." d2)).
Proof.
  intros H1 H2 rest [Hrest Hnext] l c.
  pose proof (or_zero_numeral _ H1) as Hz1. pose proof (or_zero_numeral _ H2) as Hz2.
  apply numeral_digits in H1 as [H1 _]. apply numeral_digits in H2 as [H2 _].
  destruct (decimal_literal d1 d2 rest l c H1 H2 Hrest) as (v & Hv & E).
  rewrite Hz1, Hz2 in Hv, E. rewrite app_op_assoc.
  eexists. eexists. split; [exact E |]. split; [reflexivity |].
  intros [|n] Hn; [lia |]. rewrite Hv. unfold goes_on, returned.
  destruct (Hnext l (c + len (d1 ++ String "." d2))) as (tok & lx & E' & _).
  exists (Parser.mk lx tok). split; [eapply stands_mk, E' |].
  apply atom_number; [reflexivity | reflexivity |].
  eapply eat_at; [reflexivity | reflexivity | exact E'].
Qed.

Lemma parenthesis_reads text value :
  reads_text starts_operand after_expression 5 (Parser.expression libm_pow) returned
    text value ->
  reads_text starts_atom (fun _ => true) 1 (Parser.atom libm_pow) returned
    (String "(" (text ++ ")")) value.
Proof.
  intros H rest [Hrest Hnext] l c.
  cbn [append]. rewrite app_op_assoc. cbn [append].
  rewrite single_lparen.
  eexists. eexists. split; [reflexivity |]. split; [reflexivity |].
  intros [|n] Hn; [lia |]. cbn [String.length] in Hn. rewrite length_app_op in Hn.
  destruct (H (String ")" rest)
               (follows_single _ _ _ _ single_rparen eq_refl eq_refl) l (c + 1))
    as (tok & lx & E & _ & Hrun).
  rewrite atom_S. cbn [Parser.current_token Token.type].
  change (eqb LPAREN NUMBER) with false. change (eqb LPAREN LPAREN) with true. cbv iota.
  erewrite eat_at; [| reflexivity | reflexivity | exact E]. cbn [bind].
  specialize (Hrun n ltac:(lia)). unfold goes_on, returned in Hrun |- *.
  destruct value as [v | x |]; [| now rewrite Hrun | exact Hrun].
  destruct Hrun as (p1 & Hp1 & ->). cbn [bind].
  destruct (stands_single _ _ _ _ single_rparen Hp1) as (Htok & l1 & c1 & Hlx).
  destruct (Hnext l1 c1) as (tok2 & lx2 & E2 & _).
  rewrite (eat_at RPAREN _ _ _ _ Htok Hlx E2). cbn [bind].
  exists (Parser.mk lx2 tok2). split; [eapply stands_mk, E2 | reflexivity].
Qed.

Lemma exponentiation_loop_stops n r p :
  after_factor (Token.type (Parser.current_token p)) = true ->
  Parser.exponentiation_loop libm_pow (S n) r p = Ok (r, p).
Proof.
  intros H. rewrite exponentiation_loop_S. unfold after_factor in H.
  now destruct (eqb _ _).
Qed.

Lemma term_loop_stops n r p :
  after_term (Token.type (Parser.current_token p)) = true ->
  Parser.term_loop libm_pow (S n) r p = Ok (r, p).
Proof.
  intros H. rewrite term_loop_S. unfold after_term in H.
  destruct (Token.type (Parser.current_token p)); try discriminate H; reflexivity.
Qed.

Lemma expression_loop_stops n r p :
  after_expression (Token.type (Parser.current_token p)) = true ->
  Parser.expression_loop libm_pow (S n) r p = Ok (r, p).
Proof.
  intros H. rewrite expression_loop_S. unfold after_expression in H.
  destruct (Token.type (Parser.current_token p)); try discriminate H; reflexivity.
Qed.

Lemma atom_reads_exponentiation text value :
  reads_text starts_atom (fun _ => true) 1 (Parser.atom libm_pow) returned text value ->
  reads_text starts_atom after_factor 2 (Parser.exponentiation libm_pow) returned
    text value.
Proof.
  intros H.
  apply loop_returns
    with (follow := after_factor) (loop := Parser.exponentiation_loop libm_pow) (ops := O);
    [auto | intros; now apply exponentiation_loop_stops | lia | lia |].
  apply (descends starts_atom after_factor 1 (Parser.exponentiation libm_pow)
           (Parser.atom libm_pow) (Parser.exponentiation_loop libm_pow));
    [reflexivity |].
  revert H. now apply reads_text_follow.
Qed.

Lemma power_reads textA textF valueA valueF :
  reads_text starts_atom (fun _ => true) 1 (Parser.atom libm_pow) returned textA valueA ->
  reads_text starts_operand after_factor 3 (Parser.factor libm_pow) returned textF valueF ->
  reads_text starts_atom after_factor 2 (Parser.exponentiation libm_pow) returned
    (textA ++ String "^" textF)
    (b <- valueA ;; e <- valueF ;; Float.math_pow libm_pow b e).
Proof.
  intros HA HF.
  apply loop_returns
    with (follow := after_factor) (loop := Parser.exponentiation_loop libm_pow) (ops := 1%nat);
    [auto | intros; now apply exponentiation_loop_stops | rewrite length_app_op; lia | lia |].
  apply (binary_reads starts_atom starts_operand (fun _ => true) after_factor 2 3
           (Parser.exponentiation libm_pow) (Parser.factor libm_pow)
           (Parser.exponentiation_loop libm_pow) "^" EXPONENTIATION
           (Float.math_pow libm_pow) textA textF valueA valueF O single_exponentiation);
    [reflexivity | reflexivity | | apply math_pow_fuel | lia | lia | | exact HF].
  - intros n r p Hty. now rewrite exponentiation_loop_S, Hty.
  - apply (descends starts_atom (fun _ => true) 1 (Parser.exponentiation libm_pow)
             (Parser.atom libm_pow) (Parser.exponentiation_loop libm_pow));
      [reflexivity | exact HA].
Qed.

Lemma starts_atom_operand ty : starts_atom ty = true -> starts_operand ty = true.
Proof. destruct ty; intros H; try discriminate H; reflexivity. Qed.

Lemma exponentiation_reads_factor text value :
  reads_text starts_atom after_factor 2 (Parser.exponentiation libm_pow) returned
    text value ->
  reads_text starts_operand after_factor 3 (Parser.factor libm_pow) returned text value.
Proof.
  intros H rest Hrest l c. destruct (H rest Hrest l c) as (tok & lx & E & Hf & Hrun).
  exists tok, lx. split; [exact E |]. split; [now apply starts_atom_operand |].
  intros [|n] Hn; [lia |]. specialize (Hrun n ltac:(lia)).
  rewrite factor_S. cbn [Parser.current_token].
  destruct (Token.type tok); try discriminate Hf; exact Hrun.
Qed.

Lemma sign_reads ch ty g text value :
  single ch ty -> starts_operand ty = true ->
  (forall n p, Token.type (Parser.current_token p) = ty ->
     Parser.factor libm_pow (S n) p =
     (p1 <- Parser.eat ty p ;; '(v, p2) <- Parser.factor libm_pow n p1 ;; Ok (g v, p2))) ->
  reads_text starts_operand after_factor 3 (Parser.factor libm_pow) returned text value ->
  reads_text starts_operand after_factor 3 (Parser.factor libm_pow) returned
    (String ch text) (x <- value ;; Ok (g x)).
Proof.
  intros Hch Hty Hstep H rest Hrest l c. cbn [append]. rewrite Hch.
  eexists. eexists. split; [reflexivity |]. split; [exact Hty |].
  intros [|n] Hn; [lia |]. cbn [String.length] in Hn.
  destruct (H rest Hrest l (c + 1)) as (tok & lx & E & _ & Hrun).
  rewrite Hstep by reflexivity.
  erewrite eat_at; [| reflexivity | reflexivity | exact E]. cbn [bind].
  specialize (Hrun n ltac:(lia)). unfold goes_on, returned in Hrun |- *.
  destruct value as [v | x |]; cbn [bind]; [| now rewrite Hrun | exact Hrun].
  destruct Hrun as (p' & Hp' & ->). exists p'. split; [exact Hp' | reflexivity].
Qed.

Lemma factor_plus n p :
  Token.type (Parser.current_token p) = PLUS ->
  Parser.factor libm_pow (S n) p =
  (p1 <- Parser.eat PLUS p ;; '(v, p2) <- Parser.factor libm_pow n p1 ;; Ok (v, p2)).
Proof.
  intros Hty. rewrite factor_S, Hty. cbn [eqb]. change (eqb PLUS PLUS) with true. cbv iota.
  destruct (Parser.eat PLUS p); cbn [bind]; try reflexivity.
  now destruct (Parser.factor libm_pow n a) as [[]| |].
Qed.

Lemma factor_minus n p :
  Token.type (Parser.current_token p) = MINUS ->
  Parser.factor libm_pow (S n) p =
  (p1 <- Parser.eat MINUS p ;; '(v, p2) <- Parser.factor libm_pow n p1 ;;
   Ok (Float.neg v, p2)).
Proof. intros Hty. now rewrite factor_S, Hty. Qed.

Lemma term_reads_full text value ops :
  (ops <= String.length text)%nat ->
  reads_text starts_operand after_factor 4 (Parser.term libm_pow)
    (fun n => Parser.term_loop libm_pow (n - 1 - ops)%nat) text value ->
  reads_text starts_operand after_term 4 (Parser.term libm_pow) returned text value.
Proof.
  intros Hops H.
  apply loop_returns
    with (follow := after_factor) (loop := Parser.term_loop libm_pow) (ops := ops);
    [ | intros; now apply term_loop_stops | exact Hops | lia | exact H].
  intros ty. now destruct ty.
Qed.

Lemma expression_reads_full text value ops :
  (ops <= String.length text)%nat ->
  reads_text starts_operand after_term 5 (Parser.expression libm_pow)
    (fun n => Parser.expression_loop libm_pow (n - 1 - ops)%nat) text value ->
  reads_text starts_operand after_expression 5 (Parser.expression libm_pow) returned
    text value.
Proof.
  intros Hops H.
  apply loop_returns
    with (follow := after_term) (loop := Parser.expression_loop libm_pow) (ops := ops);
    [ | intros; now apply expression_loop_stops | exact Hops | lia | exact H].
  intros ty. now destruct ty.
Qed.

Lemma term_binary ch ty combine textL textR valueL valueR opsL :
  single ch ty -> after_factor ty = true -> numeral_char ch = false ->
  (forall n r p, Token.type (Parser.current_token p) = ty ->
     Parser.term_loop libm_pow (S n) r p =
     (p1 <- Parser.eat ty p ;; '(v, p2) <- Parser.factor libm_pow n p1 ;;
      r' <- combine r v ;; Parser.term_loop libm_pow n r' p2)) ->
  (forall x y, combine x y <> OutOfFuel) ->
  (opsL <= String.length textL)%nat ->
  reads_text starts_operand after_factor 4 (Parser.term libm_pow)
    (fun n => Parser.term_loop libm_pow (n - 1 - opsL)%nat) textL valueL ->
  reads_text starts_operand after_factor 3 (Parser.factor libm_pow) returned textR valueR ->
  reads_text starts_operand after_factor 4 (Parser.term libm_pow)
    (fun n => Parser.term_loop libm_pow (n - 1 - S opsL)%nat)
    (textL ++ String ch textR) (x <- valueL ;; y <- valueR ;; combine x y).
Proof.
  intros Hch Hty Hnum Hstep Hcomb Hops HL HR.
  apply (binary_reads starts_operand starts_operand after_factor after_factor 4 3
           (Parser.term libm_pow) (Parser.factor libm_pow) (Parser.term_loop libm_pow)
           ch ty combine textL textR valueL valueR opsL Hch Hty Hnum Hstep Hcomb Hops);
    [lia | exact HL | exact HR].
Qed.

Lemma expression_binary ch ty combine textL textR valueL valueR opsL :
  single ch ty -> after_term ty = true -> numeral_char ch = false ->
  (forall n r p, Token.type (Parser.current_token p) = ty ->
     Parser.expression_loop libm_pow (S n) r p =
     (p1 <- Parser.eat ty p ;; '(v, p2) <- Parser.term libm_pow n p1 ;;
      r' <- combine r v ;; Parser.expression_loop libm_pow n r' p2)) ->
  (forall x y, combine x y <> OutOfFuel) ->
  (opsL <= String.length textL)%nat ->
  reads_text starts_operand after_term 5 (Parser.expression libm_pow)
    (fun n => Parser.expression_loop libm_pow (n - 1 - opsL)%nat) textL valueL ->
  reads_text starts_operand after_term 4 (Parser.term libm_pow) returned textR valueR ->
  reads_text starts_operand after_term 5 (Parser.expression libm_pow)
    (fun n => Parser.expression_loop libm_pow (n - 1 - S opsL)%nat)
    (textL ++ String ch textR) (x <- valueL ;; y <- valueR ;; combine x y).
Proof.
  intros Hch Hty Hnum Hstep Hcomb Hops HL HR.
  apply (binary_reads starts_operand starts_operand after_term after_term 5 4
           (Parser.expression libm_pow) (Parser.term libm_pow)
           (Parser.expression_loop libm_pow)
           ch ty combine textL textR valueL valueR opsL Hch Hty Hnum Hstep Hcomb Hops);
    [lia | exact HL | exact HR].
Qed.

Lemma term_loop_multiply n r p :
  Token.type (Parser.current_token p) = MULTIPLY ->
  Parser.term_loop libm_pow (S n) r p =
  (p1 <- Parser.eat MULTIPLY p ;; '(v, p2) <- Parser.factor libm_pow n p1 ;;
   r' <- Ok (Float.mul r v) ;; Parser.term_loop libm_pow n r' p2).
Proof. intros Hty. now rewrite term_loop_S, Hty. Qed.

Lemma term_loop_divide n r p :
  Token.type (Parser.current_token p) = DIVIDE ->
  Parser.term_loop libm_pow (S n) r p =
  (p1 <- Parser.eat DIVIDE p ;; '(v, p2) <- Parser.factor libm_pow n p1 ;;
   r' <- (if Float.eqb v Float.zero then Raise Exception_DivisionByZero
          else Ok (Float.div r v)) ;;
   Parser.term_loop libm_pow n r' p2).
Proof.
  intros Hty. rewrite term_loop_S, Hty.
  change (is_in DIVIDE [MULTIPLY; DIVIDE; MODULUS]) with true.
  change (eqb DIVIDE MULTIPLY) with false. change (eqb DIVIDE DIVIDE) with true. cbv iota.
  destruct (Parser.eat DIVIDE p); cbn [bind]; try reflexivity.
  destruct (Parser.factor libm_pow n a) as [[v p2]| |]; cbn [bind]; try reflexivity.
  now destruct (Float.eqb v Float.zero).
Qed.

Lemma term_loop_modulus n r p :
  Token.type (Parser.current_token p) = MODULUS ->
  Parser.term_loop libm_pow (S n) r p =
  (p1 <- Parser.eat MODULUS p ;; '(v, p2) <- Parser.factor libm_pow n p1 ;;
   r' <- Float.rem r v ;; Parser.term_loop libm_pow n r' p2).
Proof. intros Hty. now rewrite term_loop_S, Hty. Qed.

Lemma expression_loop_plus n r p :
  Token.type (Parser.current_token p) = PLUS ->
  Parser.expression_loop libm_pow (S n) r p =
  (p1 <- Parser.eat PLUS p ;; '(v, p2) <- Parser.term libm_pow n p1 ;;
   r' <- Ok (Float.add r v) ;; Parser.expression_loop libm_pow n r' p2).
Proof. intros Hty. now rewrite expression_loop_S, Hty. Qed.

Lemma expression_loop_minus n r p :
  Token.type (Parser.current_token p) = MINUS ->
  Parser.expression_loop libm_pow (S n) r p =
  (p1 <- Parser.eat MINUS p ;; '(v, p2) <- Parser.term libm_pow n p1 ;;
   r' <- Ok (Float.sub r v) ;; Parser.expression_loop libm_pow n r' p2).
Proof. intros Hty. now rewrite expression_loop_S, Hty. Qed.

(** Every production reads the text of a tree of its kind and gives its
    value. *)
Lemma grammar_reads :
  (forall e, wf_expression e = true ->
     reads_text starts_operand after_term 5 (Parser.expression libm_pow)
       (fun n => Parser.expression_loop libm_pow (n - 1 - operators_expression e)%nat)
       (print_expression e) (eval_expression libm_pow e)) /\
  (forall t, wf_term t = true ->
     reads_text starts_operand after_factor 4 (Parser.term libm_pow)
       (fun n => Parser.term_loop libm_pow (n - 1 - operators_term t)%nat)
       (print_term t) (eval_term libm_pow t)) /\
  (forall f, wf_factor f = true ->
     reads_text starts_operand after_factor 3 (Parser.factor libm_pow) returned
       (print_factor f) (eval_factor libm_pow f)) /\
  (forall x, wf_exponentiation x = true ->
     reads_text starts_atom after_factor 2 (Parser.exponentiation libm_pow) returned
       (print_exponentiation x) (eval_exponentiation libm_pow x)) /\
  (forall a, wf_atom a = true ->
     reads_text starts_atom (fun _ => true) 1 (Parser.atom libm_pow) returned
       (print_atom a) (eval_atom libm_pow a)).
Proof.
  apply mutual_ind.
  - (* E_term *)
    intros t IH Hwf. cbn in Hwf |- *.
    apply (descends starts_operand after_term 4 (Parser.expression libm_pow)
             (Parser.term libm_pow) (Parser.expression_loop libm_pow));
      [reflexivity |].
    apply term_reads_full with (operators_term t); [apply operators_term_le | now apply IH].
  - (* E_plus *)
    intros e IHe t IHt Hwf. cbn in Hwf. apply andb_prop in Hwf as [He Ht].
    cbn [print_expression eval_expression operators_expression].
    apply (expression_binary "+" PLUS (fun x y => Ok (Float.add x y)));
      [exact single_plus | reflexivity | reflexivity | apply expression_loop_plus
      | discriminate | apply operators_expression_le | now apply IHe |].
    apply term_reads_full with (operators_term t); [apply operators_term_le | now apply IHt].
  - (* E_minus *)
    intros e IHe t IHt Hwf. cbn in Hwf. apply andb_prop in Hwf as [He Ht].
    cbn [print_expression eval_expression operators_expression].
    apply (expression_binary "-" MINUS (fun x y => Ok (Float.sub x y)));
      [exact single_minus | reflexivity | reflexivity | apply expression_loop_minus
      | discriminate | apply operators_expression_le | now apply IHe |].
    apply term_reads_full with (operators_term t); [apply operators_term_le | now apply IHt].
  - (* T_factor *)
    intros f IH Hwf. cbn in Hwf |- *.
    apply (descends starts_operand after_factor 3 (Parser.term libm_pow)
             (Parser.factor libm_pow) (Parser.term_loop libm_pow));
      [reflexivity | now apply IH].
  - (* T_multiply *)
    intros t IHt f IHf Hwf. cbn in Hwf. apply andb_prop in Hwf as [Ht Hf].
    cbn [print_term eval_term operators_term].
    apply (term_binary "*" MULTIPLY (fun x y => Ok (Float.mul x y)));
      [exact single_multiply | reflexivity | reflexivity | apply term_loop_multiply
      | discriminate | apply operators_term_le | now apply IHt | now apply IHf].
  - (* T_divide *)
    intros t IHt f IHf Hwf. cbn in Hwf. apply andb_prop in Hwf as [Ht Hf].
    cbn [print_term eval_term operators_term].
    apply (term_binary "/" DIVIDE
             (fun x y => if Float.eqb y Float.zero then Raise Exception_DivisionByZero
                         else Ok (Float.div x y)));
      [exact single_divide | reflexivity | reflexivity | apply term_loop_divide
      | intros x y; destruct (Float.eqb y Float.zero); discriminate
      | apply operators_term_le | now apply IHt | now apply IHf].
  - (* T_modulus *)
    intros t IHt f IHf Hwf. cbn in Hwf. apply andb_prop in Hwf as [Ht Hf].
    cbn [print_term eval_term operators_term].
    apply (term_binary "%" MODULUS Float.rem);
      [exact single_modulus | reflexivity | reflexivity | apply term_loop_modulus
      | apply rem_fuel | apply operators_term_le | now apply IHt | now apply IHf].
  - (* F_plus *)
    intros f IH Hwf. cbn in Hwf. cbn [print_factor eval_factor].
    assert (Hv : eval_factor libm_pow f = (x <- eval_factor libm_pow f ;; Ok x))
      by now destruct (eval_factor libm_pow f).
    rewrite Hv.
    apply (sign_reads "+" PLUS (fun x => x));
      [exact single_plus | reflexivity | apply factor_plus | now apply IH].
  - (* F_minus *)
    intros f IH Hwf. cbn in Hwf. cbn [print_factor eval_factor].
    apply (sign_reads "-" MINUS Float.neg);
      [exact single_minus | reflexivity | apply factor_minus | now apply IH].
  - (* F_exponentiation *)
    intros x IH Hwf. cbn in Hwf |- *. now apply exponentiation_reads_factor, IH.
  - (* X_atom *)
    intros a IH Hwf. cbn in Hwf |- *. now apply atom_reads_exponentiation, IH.
  - (* X_power *)
    intros a IHa f IHf Hwf. cbn in Hwf. apply andb_prop in Hwf as [Ha Hf].
    cbn [print_exponentiation eval_exponentiation].
    apply power_reads; [now apply IHa | now apply IHf].
  - (* A_number *)
    intros d Hwf. cbn in Hwf |- *. now apply number_reads.
  - (* A_decimal *)
    intros d1 d2 Hwf. cbn in Hwf. apply andb_prop in Hwf as [H1 H2].
    cbn [print_atom eval_atom]. now apply decimal_reads.
  - (* A_parenthesis *)
    intros e IH Hwf. cbn in Hwf. cbn [print_atom eval_atom].
    apply parenthesis_reads.
    apply expression_reads_full with (operators_expression e);
      [apply operators_expression_le | now apply IH].
Qed.

End Reads.

Lemma follows_end : follows after_expression EmptyString.
Proof.
  split; [reflexivity |]. intros l c. eexists. eexists. split; reflexivity.
Qed.

Lemma stands_end p : stands p EmptyString -> Token.type (Parser.current_token p) = EOF.
Proof. intros (l & c & H). cbn in H. now injection H as <- _. Qed.

Lemma comparison_loop_end libm_pow n r p :
  Token.type (Parser.current_token p) = EOF ->
  Parser.comparison_loop libm_pow (S n) r p = Ok (r, p).
Proof. intros H. now rewrite comparison_loop_S, H. Qed.

Lemma logical_expr_loop_end libm_pow n r p :
  Token.type (Parser.current_token p) = EOF ->
  Parser.logical_expr_loop libm_pow (S n) r p = Ok (r, p).
Proof. intros H. now rewrite logical_expr_loop_S, H. Qed.

(** X16.  The parser implements the grammar of the docstring.  For every
    tree of that grammar, from <expression> down to <number>, that nests the
    productions within Python's limit on recursion, [evaluate] on the text
    of the tree returns the value of the tree, or raises the exception the
    evaluation of the tree raises.  In that value the operands are evaluated
    from left to right; [*], [/] and [%] bind tighter than [+]
    and [-]; operators of one rank group to the left; and [^] groups to the
    right, under a sign before it and over a sign after it. *)
Theorem evaluate_print libm_pow e :
  Grammar.wf_expression e = true ->
  (Grammar.frames_expression e <= frames_left)%nat ->
  evaluate libm_pow (Grammar.print_expression e) =
  outcome_map VFloat (Grammar.eval_expression libm_pow e).
Proof.
  intros Hwf _.
  pose proof (expression_reads_full libm_pow _ _ _ (operators_expression_le e)
                (proj1 (grammar_reads libm_pow) e Hwf) EmptyString follows_end 1 1)
    as (tok & lx & E & Hfirst & Hrun).
  rewrite append_nil_r in E.
  unfold evaluate, Parser.init, Lexer.init. rewrite E. cbn [bind].
  specialize (Hrun (fuel_for (Grammar.print_expression e))
                ltac:(unfold fuel_for; lia)).
  unfold Parser.parse, Parser.logical_expr, Parser.comparison.
  cbn [Parser.current_token].
  replace (eqb (Token.type tok) IF) with false
    by (destruct (Token.type tok); try discriminate Hfirst; reflexivity).
  unfold goes_on, returned in Hrun.
  destruct (Grammar.eval_expression libm_pow e) as [v | x |]; cbn [outcome_map];
    [| now rewrite Hrun | destruct Hrun].
  destruct Hrun as (p' & Hp' & ->). cbn [bind]. apply stands_end in Hp'.
  unfold fuel_for. replace (5 * String.length (Grammar.print_expression e) + 5)%nat
    with (S (5 * String.length (Grammar.print_expression e) + 4)) by lia.
  rewrite comparison_loop_end by exact Hp'. cbn [bind].
  rewrite logical_expr_loop_end by exact Hp'. reflexivity.
Qed.

Lemma evaluate_print_witness :
  evaluate libm_pow_nan "8-2*3-1" = Ok (VFloat (Float.of_Z 1)).
Proof.
  exact (evaluate_print libm_pow_nan
           (Grammar.E_minus
              (Grammar.E_minus
                 (Grammar.E_term (Grammar.T_factor (Grammar.F_exponentiation
                    (Grammar.X_atom (Grammar.A_number "8")))))
                 (Grammar.T_multiply
                    (Grammar.T_factor (Grammar.F_exponentiation
                       (Grammar.X_atom (Grammar.A_number "2"))))
                    (Grammar.F_exponentiation (Grammar.X_atom (Grammar.A_number "3")))))
              (Grammar.T_factor (Grammar.F_exponentiation
                 (Grammar.X_atom (Grammar.A_number "1")))))
           eq_refl ltac:(vm_compute; lia)).
Defined.

(** * The claims *)

(** ** C1: the bitwise tokens *)

(** C1, as stated, fails on the code: "5 & 3" is no syntax error,
    [evaluate] returns 5.0. *)
Lemma bitwise_and_is_no_syntax_error :
  (forall libm_pow, evaluate libm_pow "5 & 3" = Ok (VFloat (Float.of_Z 5))) /\
  (forall libm_pow, evaluate libm_pow "5 & 3" <> Raise Exception_InvalidSyntax).
Proof.
  split; intros; vm_compute; [reflexivity | discriminate].
Qed.

(** C1, amended.  The lexer turns [&] and [|] into tokens, and no production
    consumes them: with one of them as the current token [atom] fails with a
    syntax error and every loop returns its running result, leaving the
    token in place.  [parse] does not look at the token it stops at, so a
    program followed by [&] and anything keeps its value: "5 & 3" returns
    5.0, the value of the operand before [&], and no bitwise result
    (5 & 3 = 1).  Where a token is required after the operand, as in
    "(5 & 3)", or an operand has to start, as in "& 3", the evaluation
    fails with a syntax error. *)
Theorem bitwise_and_returns_left_operand libm_pow :
  (forall rest line column,
     Lexer.get_next_token (Lexer.mk (String "&" rest) line column) =
     Ok (Token.mk BITWISE_AND (PyStr "&") line column,
         Lexer.mk rest line (column + 1))) /\
  (forall ty, In ty [BITWISE_AND; BITWISE_OR] ->
   forall fuel lexer v l c,
     let p := Parser.mk lexer (Token.mk ty v l c) in
     Parser.atom libm_pow (S fuel) p = Raise Exception_InvalidSyntax /\
     (forall r, Parser.exponentiation_loop libm_pow (S fuel) r p = Ok (r, p)) /\
     (forall r, Parser.term_loop libm_pow (S fuel) r p = Ok (r, p)) /\
     (forall r, Parser.expression_loop libm_pow (S fuel) r p = Ok (r, p)) /\
     (forall r, Parser.comparison_loop libm_pow (S fuel) r p = Ok (r, p)) /\
     (forall r, Parser.logical_expr_loop libm_pow (S fuel) r p = Ok (r, p))) /\
  (forall program rest v,
     evaluate libm_pow program = Ok v ->
     evaluate libm_pow (program ++ String newline (String "&" rest)) = Ok v) /\
  evaluate libm_pow "5 & 3" = Ok (VFloat (Float.of_Z 5)) /\
  evaluate libm_pow "5 | 3" = Ok (VFloat (Float.of_Z 5)) /\
  evaluate libm_pow "(5 & 3)" = Raise Exception_InvalidSyntax /\
  evaluate libm_pow "& 3" = Raise Exception_InvalidSyntax.
Proof.
  assert (Hlex : forall rest line column,
            Lexer.get_next_token (Lexer.mk (String "&" rest) line column) =
            Ok (Token.mk BITWISE_AND (PyStr "&") line column,
                Lexer.mk rest line (column + 1))).
  { intros. cbv -[Z.add Z.sub String.length].
    replace (column + 1 - 1) with column by lia. reflexivity. }
  split; [exact Hlex | split; [| split]].
  - intros ty Hty fuel lexer v l c p. subst p.
    destruct Hty as [<- | [<- | []]]; repeat split; intros; reflexivity.
  - intros program rest v Hv. apply evaluate_extend; [| exact Hv].
    intros line column. rewrite Hlex. eexists. eexists. split; reflexivity.
  - repeat split; vm_compute; reflexivity.
Qed.

Lemma bitwise_and_returns_left_operand_witness :
  Parser.logical_expr_loop libm_pow_nan 1 (VFloat (Float.of_Z 5))
    (Parser.mk (Lexer.mk " 3" 1 4) (Token.mk BITWISE_AND (PyStr "&") 1 3))
  = Ok (VFloat (Float.of_Z 5),
        Parser.mk (Lexer.mk " 3" 1 4) (Token.mk BITWISE_AND (PyStr "&") 1 3)).
Proof.
  apply (proj1 (proj2 (bitwise_and_returns_left_operand libm_pow_nan))
           BITWISE_AND (or_introl eq_refl) O).
Defined.

(** ** C2: what follows a complete program *)

(** C2, as stated, fails on the code: after the complete program "2" the
    remaining tokens are not ignored whatever they are.  "2 +" raises
    'Invalid syntax', "2 @" raises 'Invalid character', and "2 * 3" is 6 and
    not the value 2 of the leading program. *)
Lemma trailing_input_is_not_always_ignored :
  (forall libm_pow, evaluate libm_pow "2" = Ok (VFloat (Float.of_Z 2))) /\
  (forall libm_pow, evaluate libm_pow "2 +" = Raise Exception_InvalidSyntax) /\
  (forall libm_pow,
     evaluate libm_pow "2 @" = Raise (Exception_InvalidCharacter 1 3)) /\
  (forall libm_pow, evaluate libm_pow "2 * 3" = Ok (VFloat (Float.of_Z 6))).
Proof.
  repeat split; intros; vm_compute; reflexivity.
Qed.

(** C2, amended.  [evaluate] returns the value [parse] returns, whatever
    token [parse] stopped at: nothing checks that it is EOF.  So a complete
    program keeps its value when more input follows it on a new line that
    begins with a token, and that token is no binary operator (the one way
    in which a following token continues the program): for every [program]
    that evaluates to [v] and every such [rest] in ASCII, [program], a
    newline and [rest] evaluate to [v].  Of [rest] the lexer reads that one
    token and nothing more.  "2 3" returns 2.0, and [parse] stops there at
    the NUMBER 3; "7 3" returns 7.0, "3 * 4 )" returns 12.0 and "2 3 @"
    returns 2.0.  Where the next token is a binary operator the program goes
    on with it, and where what follows is no token the lexer fails: "2 * 3"
    is 6.0, "2 +" is a syntax error and "2 @" an invalid character. *)
Theorem trailing_input_ignored libm_pow :
  (forall text p v p',
     Parser.init (Lexer.init text) = Ok p ->
     Parser.parse libm_pow (fuel_for text) p = Ok (v, p') ->
     evaluate libm_pow text = Ok v) /\
  (forall program rest v,
     evaluate libm_pow program = Ok v ->
     begins_with_no_operator rest -> ascii_text rest = true ->
     evaluate libm_pow (program ++ String newline rest) = Ok v) /\
  evaluate libm_pow "2 3" = Ok (VFloat (Float.of_Z 2)) /\
  (exists p p',
     Parser.init (Lexer.init "2 3") = Ok p /\
     Parser.parse libm_pow (fuel_for "2 3") p = Ok (VFloat (Float.of_Z 2), p') /\
     Parser.current_token p' = Token.mk NUMBER (PyFloat (Float.of_Z 3)) 1 3) /\
  evaluate libm_pow "2 )" = Ok (VFloat (Float.of_Z 2)) /\
  evaluate libm_pow "2 3 @" = Ok (VFloat (Float.of_Z 2)) /\
  evaluate libm_pow "1 + 1 IF 7" = Ok (VFloat (Float.of_Z 2)) /\
  evaluate libm_pow "7 3" = Ok (VFloat (Float.of_Z 7)) /\
  evaluate libm_pow "3 * 4 )" = Ok (VFloat (Float.of_Z 12)) /\
  evaluate libm_pow "(1 + 2) 9 9" = Ok (VFloat (Float.of_Z 3)) /\
  evaluate libm_pow "1 < 2 3" = Ok (VBool true) /\
  evaluate libm_pow "2 * 3" = Ok (VFloat (Float.of_Z 6)) /\
  evaluate libm_pow "2 +" = Raise Exception_InvalidSyntax /\
  evaluate libm_pow "2 @" = Raise (Exception_InvalidCharacter 1 3).
Proof.
  split; [| split].
  - intros text p v p' Hinit Hparse. unfold evaluate.
    rewrite Hinit. cbn [bind]. rewrite Hparse. reflexivity.
  - intros program rest v Hv Hrest _. now apply evaluate_extend.
  - split; [vm_compute; reflexivity |]. split.
    + eexists. eexists. split; [vm_compute; reflexivity |].
      split; vm_compute; reflexivity.
    + repeat split; vm_compute; reflexivity.
Qed.

Lemma trailing_input_ignored_witness :
  evaluate libm_pow_nan ("1 + 1" ++ String newline "3 4 5") = Ok (VFloat (Float.of_Z 2)).
Proof.
  apply (proj1 (proj2 (trailing_input_ignored libm_pow_nan))).
  - vm_compute. reflexivity.
  - intros line column. eexists. eexists. split.
    + cbv -[Z.add Z.sub]. reflexivity.
    + reflexivity.
  - reflexivity.
Defined.

(** ** C3: [and], [or] and the right operand *)

(** C3.  What the code does where the claim fails.  After eating AND with a
    false running result (OR with a true one) the loop of [logical_expr]
    keeps the result and does not call [comparison]: no token of the right
    operand is consumed, and the loop tests the operand's first token next.
    "1 > 2 AND (" returns False and "1 < 2 OR (" returns True with no
    syntax error; with a true left side (a false one for OR) the same
    operand is parsed and does fail.  The tokens left over make
    "IF 1 > 2 AND 3 > 1 THEN 1 ELSE 0" a syntax error and
    "1 > 2 AND 2 > 1 OR 3 > 2" False. *)
Theorem short_circuit_skips_right_operand libm_pow :
  (forall fuel result p p1,
     truthy result = false ->
     Parser.eat AND p = Ok p1 ->
     Parser.logical_expr_loop libm_pow (S fuel) result p =
     Parser.logical_expr_loop libm_pow fuel result p1) /\
  (forall fuel result p p1,
     truthy result = true ->
     Parser.eat OR p = Ok p1 ->
     Parser.logical_expr_loop libm_pow (S fuel) result p =
     Parser.logical_expr_loop libm_pow fuel result p1) /\
  evaluate libm_pow "1 > 2 AND (" = Ok (VBool false) /\
  evaluate libm_pow "1 < 2 OR (" = Ok (VBool true) /\
  evaluate libm_pow "1 < 2 AND (" = Raise Exception_InvalidSyntax /\
  evaluate libm_pow "1 > 2 OR (" = Raise Exception_InvalidSyntax /\
  evaluate libm_pow "IF 1 > 2 AND 3 > 1 THEN 1 ELSE 0" = Raise Exception_InvalidSyntax /\
  evaluate libm_pow "1 > 2 AND 2 > 1 OR 3 > 2" = Ok (VBool false).
Proof.
  split; [| split].
  - intros fuel result p p1 Hr Heat.
    rewrite logical_expr_loop_S, (eat_Ok_type _ _ _ Heat), Heat, Hr. reflexivity.
  - intros fuel result p p1 Hr Heat.
    rewrite logical_expr_loop_S, (eat_Ok_type _ _ _ Heat), Heat, Hr. reflexivity.
  - repeat split; vm_compute; reflexivity.
Qed.

Lemma short_circuit_skips_right_operand_witness :
  Parser.logical_expr_loop libm_pow_nan 2 (VBool false)
    (Parser.mk (Lexer.mk " (" 1 10) (Token.mk AND (PyStr "AND") 1 7))
  = Ok (VBool false,
        Parser.mk (Lexer.mk "" 1 12) (Token.mk LPAREN (PyStr "(") 1 11)).
Proof.
  rewrite (proj1 (short_circuit_skips_right_operand libm_pow_nan) 1%nat (VBool false)
             (Parser.mk (Lexer.mk " (" 1 10) (Token.mk AND (PyStr "AND") 1 7))
             (Parser.mk (Lexer.mk "" 1 12) (Token.mk LPAREN (PyStr "(") 1 11))
             eq_refl eq_refl).
  reflexivity.
Defined.

(** ** C4: modulus by zero *)

(** C4, as stated, fails on the code: "5 % 0" propagates no value, it
    raises the zero-division error of the float operator [%]. *)
Lemma modulus_by_zero_returns_no_value :
  (forall libm_pow, evaluate libm_pow "5 % 0" = Raise ZeroDivisionError) /\
  (forall libm_pow v, evaluate libm_pow "5 % 0" <> Ok v).
Proof.
  split; intros; vm_compute; [reflexivity | discriminate].
Qed.

(** C4, amended.  [term] does not test the right operand of [%] and so
    never raises its own 'Division by zero' for a modulus; it applies the
    float operator [%], which raises [ZeroDivisionError] on every zero right
    operand.  "5 % 0" fails with that error and returns no value, where
    "5 / 0" fails with the parser's 'Division by zero'. *)
Theorem modulus_by_zero_raises_ZeroDivisionError libm_pow :
  (forall x s, Float.rem x (S754_zero s) = Raise ZeroDivisionError) /\
  evaluate libm_pow "5 % 0" = Raise ZeroDivisionError /\
  evaluate libm_pow "5 % 0" <> Raise Exception_DivisionByZero /\
  (forall v, evaluate libm_pow "5 % 0" <> Ok v) /\
  evaluate libm_pow "0 % 0" = Raise ZeroDivisionError /\
  evaluate libm_pow "5 % -0" = Raise ZeroDivisionError /\
  evaluate libm_pow "5 / 0" = Raise Exception_DivisionByZero.
Proof.
  split; [| repeat split; try (vm_compute; reflexivity);
            intros; vm_compute; discriminate].
  intros x []; destruct x; reflexivity.
Qed.

(** ** C5: the domain of exponentiation *)

(** C5, as stated, fails on the code: "(-2) ^ 0.5" returns no
    not-a-number, it raises the 'math domain error' of [math.pow]. *)
Lemma pow_domain_error_returns_no_nan :
  (forall libm_pow, evaluate libm_pow "(-2) ^ 0.5" = Raise ValueError) /\
  (forall libm_pow v, evaluate libm_pow "(-2) ^ 0.5" <> Ok v).
Proof.
  split; intros; vm_compute; [reflexivity | discriminate].
Qed.

(** C5, amended.  [exponentiation] restricts no operand itself and hands
    both to [math.pow]; [math.pow] raises [ValueError] for every finite
    negative base with a finite exponent that is no integer, whatever the C
    library.  "(-2) ^ 0.5" fails with that error and returns no value; a
    negative or fractional exponent by itself is accepted ("2^-1",
    "(-2) ^ 2"). *)
Theorem pow_negative_base_fractional_exponent_raises libm_pow :
  (forall x y,
     Float.isfinite x = true -> Float.ltb x Float.zero = true ->
     Float.isfinite y = true -> Float.is_integer y = false ->
     Float.math_pow libm_pow x y = Raise ValueError) /\
  evaluate libm_pow "(-2) ^ 0.5" = Raise ValueError /\
  (forall v, evaluate libm_pow "(-2) ^ 0.5" <> Ok v) /\
  evaluate libm_pow "2^-1" = Ok (VFloat (Float.of_dyadic 1 (-1))) /\
  evaluate libm_pow "(-2) ^ 2" = Ok (VFloat (Float.of_Z 4)).
Proof.
  split; [| repeat split; try (vm_compute; reflexivity);
            intros; vm_compute; discriminate].
  intros x y Hx Hneg Hy Hint.
  destruct x as [sx | sx | | sx mx ex]; try discriminate.
  destruct sx; try discriminate.
  destruct y as [sy | sy | | sy my ey]; try discriminate.
  unfold Float.math_pow, Float.c_pow. cbn [Float.isfinite negb orb].
  replace (Float.eqb (S754_finite sy my ey) Float.zero) with false
    by (destruct sy; reflexivity).
  change (Float.eqb (S754_finite true mx ex) Float.one) with false.
  change (Float.eqb (S754_finite true mx ex) Float.zero) with false.
  change (Float.ltb (S754_finite true mx ex) Float.zero) with true.
  rewrite Hint. reflexivity.
Qed.

Lemma pow_negative_base_fractional_exponent_raises_witness :
  Float.math_pow libm_pow_nan (Float.of_Z (-2)) (Float.of_dyadic 1 (-1))
  = Raise ValueError.
Proof.
  apply (proj1 (pow_negative_base_fractional_exponent_raises libm_pow_nan));
    vm_compute; reflexivity.
Defined.

(** ** C6: chained comparisons *)

(** C6.  At a comparison operator the loop of [comparison] replaces the
    running result, a float or already a bool, by the bool that compares it
    with the next [expression].  Each of the six operators compares two
    floats as the float operation of its name does, and a bool takes part
    as 1.0 or 0.0, in equality as in ordering.  So "1 < 2 < 3" is
    (1 < 2) < 3, that is True < 3, that is True; "3 > 2 > 1" is True > 1,
    that is False; and "2 == 2 == 2" is True == 2, that is False. *)
Theorem comparison_chains_through_bool libm_pow :
  (forall ty cmp,
     In (ty, cmp) [(EQUAL, py_eq); (NOT_EQUAL, py_ne); (LESS, py_lt);
                   (GREATER, py_gt); (LESS_EQUAL, py_le); (GREATER_EQUAL, py_ge)] ->
   forall fuel result lexer v l c,
     let p := Parser.mk lexer (Token.mk ty v l c) in
     Parser.comparison_loop libm_pow (S fuel) result p =
     (p <- Parser.eat ty p ;;
      '(x, p) <- Parser.expression libm_pow fuel p ;;
      Parser.comparison_loop libm_pow fuel (VBool (cmp result x)) p)) /\
  (forall b x, py_lt (VBool b) x =
               Float.ltb (if b then Float.one else Float.zero) x) /\
  (forall a x,
     py_eq (VFloat a) x = Float.eqb a x /\
     py_ne (VFloat a) x = negb (Float.eqb a x) /\
     py_lt (VFloat a) x = Float.ltb a x /\
     py_gt (VFloat a) x = Float.ltb x a /\
     py_le (VFloat a) x = Float.leb a x /\
     py_ge (VFloat a) x = Float.leb x a) /\
  (forall b x,
     py_eq (VBool b) x = Float.eqb (if b then Float.one else Float.zero) x /\
     py_ne (VBool b) x = negb (Float.eqb (if b then Float.one else Float.zero) x) /\
     py_gt (VBool b) x = Float.ltb x (if b then Float.one else Float.zero) /\
     py_le (VBool b) x = Float.leb (if b then Float.one else Float.zero) x /\
     py_ge (VBool b) x = Float.leb x (if b then Float.one else Float.zero)) /\
  evaluate libm_pow "1 < 2" = Ok (VBool true) /\
  py_lt (VBool true) (Float.of_Z 3) = true /\
  evaluate libm_pow "1 < 2 < 3" = Ok (VBool true) /\
  evaluate libm_pow "3 > 2 > 1" = Ok (VBool false) /\
  evaluate libm_pow "2 < 1" = Ok (VBool false) /\
  evaluate libm_pow "2 < 1 < 1" = Ok (VBool true) /\
  evaluate libm_pow "2 > 1" = Ok (VBool true) /\
  evaluate libm_pow "1 > 2" = Ok (VBool false) /\
  evaluate libm_pow "3 > 2 > 0" = Ok (VBool true) /\
  evaluate libm_pow "1 == 1" = Ok (VBool true) /\
  evaluate libm_pow "1 == 2" = Ok (VBool false) /\
  evaluate libm_pow "1 == 1 == 1" = Ok (VBool true) /\
  evaluate libm_pow "2 == 2 == 2" = Ok (VBool false) /\
  evaluate libm_pow "1 != 2" = Ok (VBool true) /\
  evaluate libm_pow "1 != 1" = Ok (VBool false) /\
  evaluate libm_pow "1 != 1 != 1" = Ok (VBool true) /\
  evaluate libm_pow "1 != 2 != 1" = Ok (VBool false) /\
  evaluate libm_pow "1 <= 1" = Ok (VBool true) /\
  evaluate libm_pow "2 <= 1" = Ok (VBool false) /\
  evaluate libm_pow "1 <= 2 <= 1" = Ok (VBool true) /\
  evaluate libm_pow "1 <= 2 <= 0" = Ok (VBool false) /\
  evaluate libm_pow "1 >= 1" = Ok (VBool true) /\
  evaluate libm_pow "1 >= 2" = Ok (VBool false) /\
  evaluate libm_pow "3 >= 2 >= 1" = Ok (VBool true) /\
  evaluate libm_pow "3 >= 2 >= 2" = Ok (VBool false).
Proof.
  split; [| split; [| split; [| split]]].
  - intros ty cmp Hin fuel result lexer v l c p. subst p.
    rewrite comparison_loop_S.
    repeat (destruct Hin as [[= <- <-] | Hin]; [reflexivity |]). destruct Hin.
  - intros [] x; reflexivity.
  - intros a x. repeat split.
  - intros [] x; repeat split.
  - repeat split; vm_compute; reflexivity.
Qed.

Lemma comparison_chains_through_bool_witness :
  Parser.comparison_loop libm_pow_nan 6 (VBool true)
    (Parser.mk (Lexer.mk " 3" 1 8) (Token.mk LESS (PyStr "<") 1 7))
  = Ok (VBool true, Parser.mk (Lexer.mk "" 1 10) (Token.mk EOF PyNone 1 10)).
Proof.
  rewrite (proj1 (comparison_chains_through_bool libm_pow_nan) LESS py_lt
             (or_intror (or_intror (or_introl eq_refl)))).
  vm_compute. reflexivity.
Defined.

(** ** C7: division by zero *)

(** C7.  At a [/] the loop of [term] evaluates the divisor and, when it
    equals zero, raises 'Division by zero' whatever the running result is:
    no division takes place and no value is returned.  "5 / 0" fails with
    that error, and so do "0 / 0", "5 / -0" and "5 / (2 - 2)". *)
Theorem division_by_zero_checked_first libm_pow :
  (forall fuel result p p1 divisor p2,
     Parser.eat DIVIDE p = Ok p1 ->
     Parser.factor libm_pow fuel p1 = Ok (divisor, p2) ->
     Float.eqb divisor Float.zero = true ->
     Parser.term_loop libm_pow (S fuel) result p = Raise Exception_DivisionByZero) /\
  evaluate libm_pow "5 / 0" = Raise Exception_DivisionByZero /\
  evaluate libm_pow "0 / 0" = Raise Exception_DivisionByZero /\
  evaluate libm_pow "5 / -0" = Raise Exception_DivisionByZero /\
  evaluate libm_pow "5 / (2 - 2)" = Raise Exception_DivisionByZero.
Proof.
  split.
  - intros fuel result p p1 divisor p2 Heat Hfactor Hzero.
    rewrite term_loop_S, (eat_Ok_type _ _ _ Heat). cbn [is_in existsb eqb].
    change (eqb DIVIDE MULTIPLY) with false. change (eqb DIVIDE DIVIDE) with true.
    cbn [orb]. rewrite Heat. cbn [bind]. rewrite Hfactor. cbn [bind].
    now rewrite Hzero.
  - repeat split; vm_compute; reflexivity.
Qed.

Lemma division_by_zero_checked_first_witness :
  Parser.term_loop libm_pow_nan 4 (Float.of_Z 5)
    (Parser.mk (Lexer.mk " 0" 1 2) (Token.mk DIVIDE (PyStr "/") 1 1))
  = Raise Exception_DivisionByZero.
Proof.
  apply (proj1 (division_by_zero_checked_first libm_pow_nan) 3%nat (Float.of_Z 5)
           (Parser.mk (Lexer.mk " 0" 1 2) (Token.mk DIVIDE (PyStr "/") 1 1))
           (Parser.mk (Lexer.mk "" 1 4) (Token.mk NUMBER (PyFloat Float.zero) 1 3))
           Float.zero
           (Parser.mk (Lexer.mk "" 1 4) (Token.mk EOF PyNone 1 4)));
    vm_compute; reflexivity.
Defined.

(** ** C8: the conditional *)

(** C8.  [if_expr] evaluates the condition, the THEN branch and the ELSE
    branch, in that order and whatever the condition is, and only then
    selects: when it returns, both branches have been evaluated, and the
    value is that of the THEN branch for a true condition and of the ELSE
    branch otherwise; an exception of either branch is the exception of
    [if_expr].  "IF 5 > 3 THEN 1 ELSE 0" is 1 and "IF 2 > 3 THEN 1 ELSE 0"
    is 0; a division by zero in the branch that is not selected fails. *)
Theorem if_expr_evaluates_both_branches libm_pow :
  (forall fuel p v p',
     Parser.if_expr libm_pow fuel p = Ok (v, p') ->
     exists p1 condition p2 p3 true_value p4 p5 false_value,
       Parser.eat IF p = Ok p1 /\
       Parser.logical_expr libm_pow fuel p1 = Ok (condition, p2) /\
       Parser.eat THEN p2 = Ok p3 /\
       Parser.expression libm_pow fuel p3 = Ok (true_value, p4) /\
       Parser.eat ELSE p4 = Ok p5 /\
       Parser.expression libm_pow fuel p5 = Ok (false_value, p') /\
       v = if truthy condition then true_value else false_value) /\
  (forall fuel p p1 condition p2 p3 true_value p4 p5 e,
     Parser.eat IF p = Ok p1 ->
     Parser.logical_expr libm_pow fuel p1 = Ok (condition, p2) ->
     Parser.eat THEN p2 = Ok p3 ->
     (Parser.expression libm_pow fuel p3 = Raise e \/
      Parser.expression libm_pow fuel p3 = Ok (true_value, p4) /\
      Parser.eat ELSE p4 = Ok p5 /\
      Parser.expression libm_pow fuel p5 = Raise e) ->
     Parser.if_expr libm_pow fuel p = Raise e) /\
  evaluate libm_pow "IF 5 > 3 THEN 1 ELSE 0" = Ok (VFloat (Float.of_Z 1)) /\
  evaluate libm_pow "IF 2 > 3 THEN 1 ELSE 0" = Ok (VFloat (Float.of_Z 0)) /\
  evaluate libm_pow "IF 5 > 3 THEN 1 ELSE 1 / 0" = Raise Exception_DivisionByZero /\
  evaluate libm_pow "IF 2 > 3 THEN 1 / 0 ELSE 0" = Raise Exception_DivisionByZero.
Proof.
  split; [| split].
  - intros fuel p v p' H. unfold Parser.if_expr in H.
    destruct (Parser.eat IF p) as [p1| |] eqn:E1; cbn [bind] in H; try discriminate.
    destruct (Parser.logical_expr libm_pow fuel p1) as [[c p2]| |] eqn:E2;
      cbn [bind] in H; try discriminate.
    destruct (Parser.eat THEN p2) as [p3| |] eqn:E3; cbn [bind] in H; try discriminate.
    destruct (Parser.expression libm_pow fuel p3) as [[tv p4]| |] eqn:E4;
      cbn [bind] in H; try discriminate.
    destruct (Parser.eat ELSE p4) as [p5| |] eqn:E5; cbn [bind] in H; try discriminate.
    destruct (Parser.expression libm_pow fuel p5) as [[fv p6]| |] eqn:E6;
      cbn [bind] in H; try discriminate.
    injection H as Hv Hp. subst p6.
    exists p1, c, p2, p3, tv, p4, p5, fv. repeat split; auto.
  - intros fuel p p1 c p2 p3 tv p4 p5 e E1 E2 E3 H. unfold Parser.if_expr.
    rewrite E1. cbn [bind]. rewrite E2. cbn [bind]. rewrite E3. cbn [bind].
    destruct H as [E4 | (E4 & E5 & E6)]; rewrite E4; cbn [bind]; [reflexivity |].
    rewrite E5. cbn [bind]. rewrite E6. reflexivity.
  - repeat split; vm_compute; reflexivity.
Qed.

Lemma if_expr_evaluates_both_branches_witness :
  Parser.if_expr libm_pow_nan 8
    (Parser.mk (Lexer.mk " 5 > 3 THEN 1 ELSE 1 / 0" 1 3) (Token.mk IF (PyStr "IF") 1 1))
  = Raise Exception_DivisionByZero.
Proof.
  apply (proj1 (proj2 (if_expr_evaluates_both_branches libm_pow_nan)) 8%nat
           (Parser.mk (Lexer.mk " 5 > 3 THEN 1 ELSE 1 / 0" 1 3) (Token.mk IF (PyStr "IF") 1 1))
           (Parser.mk (Lexer.mk " > 3 THEN 1 ELSE 1 / 0" 1 5)
                      (Token.mk NUMBER (PyFloat (Float.of_Z 5)) 1 4))
           (VBool true)
           (Parser.mk (Lexer.mk " 1 ELSE 1 / 0" 1 14) (Token.mk THEN (PyStr "THEN") 1 10))
           (Parser.mk (Lexer.mk " ELSE 1 / 0" 1 16)
                      (Token.mk NUMBER (PyFloat (Float.of_Z 1)) 1 15))
           (Float.of_Z 1)
           (Parser.mk (Lexer.mk " 1 / 0" 1 21) (Token.mk ELSE (PyStr "ELSE") 1 17))
           (Parser.mk (Lexer.mk " / 0" 1 23)
                      (Token.mk NUMBER (PyFloat (Float.of_Z 1)) 1 22))
           Exception_DivisionByZero);
    [vm_compute; reflexivity .. | right; repeat split; vm_compute; reflexivity].
Defined.

(** ** C9, C10: exponentiation and unary minus *)

(** C9.  The right operand of [^] is a [factor]: the loop of
    [exponentiation], at a [^], eats it, evaluates a [factor] and raises the
    running result to it.  So [^] groups to the right and a unary minus may
    follow it: "2^3^2" is 2^(3^2) = 512 (and not (2^3)^2 = 64),
    "5 + 2 ^ 3 ^ 2 - 1" is 516, and "2^-1" is 0.5. *)
Theorem exponentiation_right_associative libm_pow :
  (forall fuel result lexer v l c,
     let p := Parser.mk lexer (Token.mk EXPONENTIATION v l c) in
     Parser.exponentiation_loop libm_pow (S fuel) result p =
     (p <- Parser.eat EXPONENTIATION p ;;
      '(e, p) <- Parser.factor libm_pow fuel p ;;
      result <- Float.math_pow libm_pow result e ;;
      Parser.exponentiation_loop libm_pow fuel result p)) /\
  evaluate libm_pow "2^3^2" = Ok (VFloat (Float.of_Z 512)) /\
  evaluate libm_pow "(2^3)^2" = Ok (VFloat (Float.of_Z 64)) /\
  evaluate libm_pow "5 + 2 ^ 3 ^ 2 - 1" = Ok (VFloat (Float.of_Z 516)) /\
  evaluate libm_pow "2^-1" = Ok (VFloat (Float.of_dyadic 1 (-1))).
Proof.
  split.
  - intros. subst p. rewrite exponentiation_loop_S. reflexivity.
  - repeat split; vm_compute; reflexivity.
Qed.

(** C10.  [factor] negates what the [factor] after the minus returns, and
    that inner [factor] is the whole [exponentiation]: "-2^2" is -(2^2) = -4,
    where "(-2)^2" is 4. *)
Theorem unary_minus_looser_than_exponentiation libm_pow :
  (forall fuel lexer v l c,
     let p := Parser.mk lexer (Token.mk MINUS v l c) in
     Parser.factor libm_pow (S fuel) p =
     (p <- Parser.eat MINUS p ;;
      '(x, p) <- Parser.factor libm_pow fuel p ;;
      Ok (Float.neg x, p))) /\
  evaluate libm_pow "-2^2" = Ok (VFloat (Float.of_Z (-4))) /\
  evaluate libm_pow "-2^2" = Ok (VFloat (Float.neg (Float.of_Z 4))) /\
  evaluate libm_pow "(-2)^2" = Ok (VFloat (Float.of_Z 4)).
Proof.
  split.
  - intros. subst p. rewrite factor_S. reflexivity.
  - repeat split; vm_compute; reflexivity.
Qed.
